(** * arrowcopypaste: the ArrowVortex clipboard codec

    A shallow embedding of [arrowcopypaste.py] and the verification of its
    natural-language specification.

    Python integers are unbounded, so they are [Z]; byte strings are
    [list byte]; text is [string].  A Python call either returns, raises an
    exception, or never returns: this is the type [result]. *)

From Stdlib Require Import Strings.String Strings.Ascii Strings.Byte.
From Stdlib Require Import ZArith Bool Lia Arith List.
From Stdlib Require Import Sorting.Sorted.
Import ListNotations.

Local Open Scope Z_scope.

(** ** Outcomes of a Python call *)

(** The exceptions the program and the library functions it calls can raise.
    An exception is its class and its argument, which is what a caller that
    catches it can compare; the traceback is not modelled.
    [ValueError None] is [ValueError()], [ValueError (Some m)] is
    [ValueError(m)]; [StructError] is [struct.error]. *)
Inductive exn : Type :=
| ValueError (msg : option string)
| StructError
| UnicodeDecodeError.

Inductive result (A : Type) : Type :=
| Ok (a : A)
| Raise (e : exn)
| Diverge.

Arguments Ok {A} a.
Arguments Raise {A} e.
Arguments Diverge {A}.

Definition bind {A B} (m : result A) (f : A -> result B) : result B :=
  match m with
  | Ok a => f a
  | Raise e => Raise e
  | Diverge => Diverge
  end.

Declare Scope py_scope.
Delimit Scope py_scope with py.
Notation "x <- m ;; k" := (bind m (fun x => k))
  (at level 61, m at next level, right associativity) : py_scope.
Notation "' p <- m ;; k" := (bind m (fun x => match x with p => k end))
  (at level 61, p pattern, m at next level, right associativity) : py_scope.
Local Open Scope py_scope.

(** [mapM f l]: run [f] on every element in order, stopping at the first
    failure. *)
Fixpoint mapM {A B} (f : A -> result B) (l : list A) : result (list B) :=
  match l with
  | [] => Ok []
  | x :: l' => y <- f x ;; ys <- mapM f l' ;; Ok (y :: ys)
  end.

(** ** Bytes and the [struct] module *)

Definition bytes := list byte.

Definition u8 (b : byte) : Z := Z.of_N (Byte.to_N b).

(** [struct.pack('<B', x)] *)
Definition pack_B (x : Z) : result bytes :=
  if (0 <=? x) && (x <=? 255) then
    match Byte.of_N (Z.to_N x) with
    | Some b => Ok [b]
    | None => Raise StructError
    end
  else Raise StructError.

(** The [k]-th byte of an unsigned integer, little end first. *)
Definition le_byte (x : Z) (k : Z) : Z := Z.land (Z.shiftr x (8 * k)) 255.

(** [struct.pack('<I', x)]: unsigned 32 bits, little-endian *)
Definition pack_I (x : Z) : result bytes :=
  if (0 <=? x) && (x <=? 4294967295) then
    b0 <- pack_B (le_byte x 0) ;;
    b1 <- pack_B (le_byte x 1) ;;
    b2 <- pack_B (le_byte x 2) ;;
    b3 <- pack_B (le_byte x 3) ;;
    Ok (b0 ++ b1 ++ b2 ++ b3)
  else Raise StructError.

(** [struct.pack('!I', x)]: unsigned 32 bits, big-endian (used by base64) *)
Definition pack_I_be (x : Z) : result bytes :=
  if (0 <=? x) && (x <=? 4294967295) then
    b0 <- pack_B (le_byte x 0) ;;
    b1 <- pack_B (le_byte x 1) ;;
    b2 <- pack_B (le_byte x 2) ;;
    b3 <- pack_B (le_byte x 3) ;;
    Ok (b3 ++ b2 ++ b1 ++ b0)
  else Raise StructError.

(** A Python float is an IEEE-754 binary64 value.  The codec never computes
    with it: [struct.pack('<d', v)] writes its eight bytes and
    [struct.unpack('<d', ...)] reads them back, so a float is modelled by
    those eight bytes, least significant first.  Two floats are equal when
    their bytes are: a NaN is equal to itself and [0.0] differs from
    [-0.0]. *)
Inductive float : Type :=
| Float (b0 b1 b2 b3 b4 b5 b6 b7 : byte).

(** [struct.pack('<d', v)] *)
Definition pack_d (v : float) : bytes :=
  match v with
  | Float b0 b1 b2 b3 b4 b5 b6 b7 => [b0; b1; b2; b3; b4; b5; b6; b7]
  end.

(** The float whose binary64 bit pattern is [bits]. *)
Definition byte_of_Z (x : Z) : byte :=
  match Byte.of_N (Z.to_N (Z.land x 255)) with
  | Some b => b
  | None => x00
  end.

Definition float_of_bits (bits : Z) : float :=
  Float (byte_of_Z (le_byte bits 0)) (byte_of_Z (le_byte bits 1))
        (byte_of_Z (le_byte bits 2)) (byte_of_Z (le_byte bits 3))
        (byte_of_Z (le_byte bits 4)) (byte_of_Z (le_byte bits 5))
        (byte_of_Z (le_byte bits 6)) (byte_of_Z (le_byte bits 7)).

(** An ASCII code. *)
Definition is_ascii (c : byte) : bool := u8 c <? 128.

(** [b.decode('ascii')] *)
Definition decode_ascii (b : bytes) : result string :=
  if forallb is_ascii b then Ok (string_of_list_byte b)
  else Raise UnicodeDecodeError.

(** ** The note entity *)

Record Note : Type := mkNote {
  start : Z;
  end_ : Z;
  column : Z;
  special : Z
}.

Definition is_step (n : Note) : bool :=
  (special n <=? 0) && (start n =? end_ n).

Definition is_mine (n : Note) : bool :=
  (special n =? 1) && (start n =? end_ n).

Definition is_lift (n : Note) : bool :=
  (special n =? 3) && (start n =? end_ n).

Definition is_fake (n : Note) : bool :=
  (special n =? 4) && (start n =? end_ n).

Definition is_hold (n : Note) : bool :=
  (special n =? 0) && negb (start n =? end_ n).

Definition is_roll (n : Note) : bool :=
  negb (special n =? 0) && negb (start n =? end_ n).

Definition make_step (tick column : Z) : Note := mkNote tick tick column (-1).
Definition make_mine (tick column : Z) : Note := mkNote tick tick column 1.
Definition make_lift (tick column : Z) : Note := mkNote tick tick column 3.
Definition make_fake (tick column : Z) : Note := mkNote tick tick column 4.
Definition make_hold (start end_ column : Z) : Note := mkNote start end_ column 0.
Definition make_roll (start end_ column : Z) : Note := mkNote start end_ column 2.

(** ** The variable-length integer writer *)

(** The body of the [while not done] loop of [pack_vlc]; [fuel] bounds the
    number of iterations, and running out of it is [Diverge]. *)
Fixpoint pack_vlc_loop (fuel : nat) (value : Z) : result bytes :=
  match fuel with
  | O => Diverge
  | S fuel' =>
      let byte := Z.land value 127 in
      let value := Z.shiftr value 7 in
      let done := value =? 0 in
      let byte := if negb done then Z.lor byte 128 else byte in
      b <- pack_B byte ;;
      if done then Ok b
      else rest <- pack_vlc_loop fuel' value ;; Ok (b ++ rest)
  end.

(** Enough iterations for every value on which the loop stops (see
    [pack_vlc_loop_enough] and [pack_vlc_loop_negative]). *)
Definition vlc_fuel (value : Z) : nat := S (Z.to_nat (Z.log2 value)).

Definition pack_vlc (value : Z) : result bytes :=
  pack_vlc_loop (vlc_fuel value) value.

(** ** Reading from the byte buffer

    [unpack] and [unpack_vlc] are closures over the buffer [data] and the
    read position [offset].  The buffer never changes, so it is a parameter;
    the position is threaded through: a reader takes the position and
    returns its value with the new position. *)

Definition reader (A : Type) : Type := nat -> result (A * nat).

Definition ret {A} (a : A) : reader A := fun offset => Ok (a, offset).

Definition raise {A} (e : exn) : reader A := fun _ => Raise e.

Definition rbind {A B} (m : reader A) (f : A -> reader B) : reader B :=
  fun offset =>
    match m offset with
    | Ok (a, offset') => f a offset'
    | Raise e => Raise e
    | Diverge => Diverge
    end.

Notation "x <~ m ;; k" := (rbind m (fun x => k))
  (at level 61, m at next level, right associativity) : py_scope.
Notation "' p <~ m ;; k" := (rbind m (fun x => match x with p => k end))
  (at level 61, p pattern, m at next level, right associativity) : py_scope.

(** Little-endian unsigned integer held by a byte string. *)
Fixpoint le_uint (bs : bytes) : Z :=
  match bs with
  | [] => 0
  | b :: bs' => u8 b + 256 * le_uint bs'
  end.

Definition float_of_bytes (bs : bytes) : float :=
  match bs with
  | [b0; b1; b2; b3; b4; b5; b6; b7] => Float b0 b1 b2 b3 b4 b5 b6 b7
  | _ => Float x00 x00 x00 x00 x00 x00 x00 x00
  end.

(** A tempo point [(tick, bpm)] or a stop point [(tick, seconds)]. *)
Definition tempo_point : Type := (Z * float)%type.

(** The two lists [clipboard_data_to_tempo] returns. *)
Definition tempo_lists : Type := (list tempo_point * list tempo_point)%type.

Section Reader.

Variable data : bytes.

(** [unpack(format)], with [size = struct.calcsize(format)]: the bytes
    [data[offset : offset + size]]. *)
Definition unpack (size : nat) : reader bytes :=
  fun offset =>
    if (length data <? offset + size)%nat then Raise (ValueError None)
    else Ok (firstn size (skipn offset data), (offset + size)%nat).

(** [unpack('<B')[0]], [unpack('<I')[0]], [unpack('<d')[0]] *)
Definition unpack_B : reader Z := bs <~ unpack 1 ;; ret (le_uint bs).
Definition unpack_I : reader Z := bs <~ unpack 4 ;; ret (le_uint bs).
Definition unpack_d : reader float := bs <~ unpack 8 ;; ret (float_of_bytes bs).

(** The [while not last] loop of [unpack_vlc]. *)
Fixpoint unpack_vlc_loop (fuel : nat) (value num_bytes : Z) : reader Z :=
  match fuel with
  | O => fun _ => Diverge
  | S fuel' =>
      byte <~ unpack_B ;;
      let last := Z.land byte 128 =? 0 in
      let value := Z.lor value (Z.shiftl (Z.land byte 127) (7 * num_bytes)) in
      let num_bytes := num_bytes + 1 in
      if last then ret value else unpack_vlc_loop fuel' value num_bytes
  end.

(** Every iteration reads one byte, so the loop cannot make more
    iterations than there are bytes left, plus the one that fails. *)
Definition unpack_vlc : reader Z :=
  fun offset => unpack_vlc_loop (S (length data - offset)) 0 0 offset.

(** The [for _ in range(count)] loop of [clipboard_data_to_notes]. *)
Fixpoint notes_for (count : nat) (notes : list Note) : reader (list Note) :=
  match count with
  | O => ret notes
  | S count' =>
      bits <~ unpack_B ;;
      let is_long_format := negb (Z.land bits 128 =? 0) in
      let column := Z.land bits 127 in
      if is_long_format then
        start <~ unpack_vlc ;;
        end_ <~ unpack_vlc ;;
        special <~ unpack_B ;;
        notes_for count' (notes ++ [mkNote start end_ column special])
      else
        let special := -1 in
        start <~ unpack_vlc ;;
        notes_for count' (notes ++ [mkNote start start column special])
  end.

(** The body of [clipboard_data_to_notes] after the text has been
    unwrapped. *)
Definition read_notes : reader (list Note) :=
  head <~ unpack_B ;;
  count <~ unpack_vlc ;;
  notes_for (Z.to_nat count) [].

(** The [for _ in range(count)] loop of [clipboard_data_to_tempo]. *)
Fixpoint tempo_for (count : nat) (type : Z) (bpms stops : list tempo_point)
  : reader tempo_lists :=
  match count with
  | O => ret (bpms, stops)
  | S count' =>
      tick <~ unpack_I ;;
      value <~ unpack_d ;;
      let item := (tick, value) in
      if type =? 0 then tempo_for count' type (bpms ++ [item]) stops
      else if type =? 1 then tempo_for count' type bpms (stops ++ [item])
      else raise (ValueError None)
  end.

(** The [while True] loop of [clipboard_data_to_tempo]. *)
Fixpoint tempo_while (fuel : nat) (bpms stops : list tempo_point)
  : reader tempo_lists :=
  match fuel with
  | O => fun _ => Diverge
  | S fuel' =>
      count <~ unpack_B ;;
      if count =? 0 then ret (bpms, stops)
      else
        type <~ unpack_B ;;
        '(bpms, stops) <~ tempo_for (Z.to_nat count) type bpms stops ;;
        tempo_while fuel' bpms stops
  end.

(** Every iteration that does not leave the loop reads at least two
    bytes. *)
Definition read_tempo : reader tempo_lists :=
  tempo_while (S (length data)) [] [].

End Reader.

(** ** The [base64] module: Ascii85

    [base64.a85encode(b)] and [base64.a85decode(b)] of the Python standard
    library, with their default keyword arguments ([foldspaces=False],
    [wrapcol=0], [pad=False], [adobe=False],
    [ignorechars=b' \t\n\r\v']). *)
Module base64.

(** [_a85chars[d]] is the byte [33 + d]. *)
Definition a85chars (d : Z) : bytes := [byte_of_Z (33 + d)].

(** [_a85chars2 = [(a + b) for a in _a85chars for b in _a85chars]] *)
Definition a85chars2 (i : Z) : bytes := a85chars (i / 85) ++ a85chars (i mod 85).

(** [struct.Struct('!%dI' % (len(b) // 4)).unpack(b)] *)
Fixpoint unpack_words (b : bytes) : list Z :=
  match b with
  | b0 :: b1 :: b2 :: b3 :: rest =>
      (((u8 b0 * 256 + u8 b1) * 256 + u8 b2) * 256 + u8 b3) :: unpack_words rest
  | _ => []
  end.

Definition encode_word (word : Z) : bytes :=
  if word =? 0 then ["z"%byte]
  else a85chars2 (word / 614125) ++ a85chars2 (word / 85 mod 7225)
       ++ a85chars (word mod 85).

Definition is_z (chunk : bytes) : bool :=
  match chunk with
  | [c] => Byte.eqb c "z"%byte
  | _ => false
  end.

(** What happens to [chunks[-1]] when there is padding. *)
Definition unpad_chunk (padding : nat) (chunk : bytes) : bytes :=
  let chunk := if is_z chunk then concat (repeat (a85chars 0) 5) else chunk in
  firstn (length chunk - padding) chunk.

Fixpoint map_last {A} (f : A -> A) (l : list A) : list A :=
  match l with
  | [] => []
  | [x] => [f x]
  | x :: l' => x :: map_last f l'
  end.

(** [_85encode(b, _a85chars, _a85chars2, pad=False, foldnuls=True,
    foldspaces=False)] *)
Definition a85encode (b : bytes) : bytes :=
  let padding := ((4 - length b mod 4) mod 4)%nat in
  let b := b ++ repeat x00 padding in
  let words := unpack_words b in
  let chunks := map encode_word words in
  let chunks :=
    if (padding =? 0)%nat then chunks else map_last (unpad_chunk padding) chunks in
  concat chunks.

Definition ignorechars : list Z := [32; 9; 10; 13; 11].

(** The [for x in b + b'u' * 4] loop of [a85decode]. *)
Fixpoint a85decode_loop (b : bytes) (curr : list Z) (decoded : bytes)
  : result (list Z * bytes) :=
  match b with
  | [] => Ok (curr, decoded)
  | xb :: b' =>
      let x := u8 xb in
      if (33 <=? x) && (x <=? 117) then
        let curr := (curr ++ [x])%list in
        if (length curr =? 5)%nat then
          let acc := fold_left (fun acc x => 85 * acc + (x - 33)) curr 0 in
          match pack_I_be acc with
          | Ok w => a85decode_loop b' [] (decoded ++ w)
          | _ => Raise (ValueError (Some "Ascii85 overflow"%string))
          end
        else a85decode_loop b' curr decoded
      else if x =? 122 then
        match curr with
        | _ :: _ => Raise (ValueError (Some "z inside Ascii85 5-tuple"%string))
        | [] => a85decode_loop b' curr (decoded ++ [x00; x00; x00; x00])
        end
      else if existsb (Z.eqb x) ignorechars then
        a85decode_loop b' curr decoded
      else
        Raise (ValueError (Some ("Non-Ascii85 digit found: "
                                 ++ String (ascii_of_byte xb) EmptyString)%string))
  end.

(** The end of [a85decode]: [result = b''.join(decoded)], and the padding
    is thrown away. *)
Definition unpad (st : list Z * bytes) : result bytes :=
  let '(curr, result) := st in
  let padding := (4 - length curr)%nat in
  if (padding =? 0)%nat then Ok result
  else Ok (firstn (length result - padding) result).

(** The body of [a85decode] on bytes; [decoded] is empty at the start. *)
Definition a85decode_from (decoded b : bytes) : result bytes :=
  st <- a85decode_loop (b ++ repeat "u"%byte 4) [] decoded ;; unpad st.

Definition a85decode_bytes (b : bytes) : result bytes := a85decode_from [] b.

(** [_bytes_from_decode_data(s)] for a [str] argument:
    [s.encode('ascii')]. *)
Definition bytes_from_decode_data (s : string) : result bytes :=
  let b := list_byte_of_string s in
  if forallb is_ascii b then Ok b
  else Raise (ValueError
                (Some "string argument should contain only ASCII characters"%string)).

(** [a85decode(s)] for a [str] argument. *)
Definition a85decode (s : string) : result bytes :=
  b <- bytes_from_decode_data s ;;
  a85decode_bytes b.

(** *** Notions used in the proofs about Ascii85 *)

(** The five characters of a word, without the ['z'] shortcut. *)
Definition digits5 (word : Z) : bytes :=
  a85chars2 (word / 614125) ++ a85chars2 (word / 85 mod 7225)
  ++ a85chars (word mod 85).

(** The big-endian word of four bytes. *)
Definition word_of (b0 b1 b2 b3 : byte) : Z :=
  ((u8 b0 * 256 + u8 b1) * 256 + u8 b2) * 256 + u8 b3.

(** The character of the digit [d]. *)
Definition digit (d : Z) : byte := byte_of_Z (33 + d).

(** The number a group of characters stands for. *)
Definition acc_of (curr : list Z) : Z :=
  fold_left (fun acc x => 85 * acc + (x - 33)) curr 0.

(** The four bytes of [struct.pack('!I', x)]. *)
Definition be32 (x : Z) : bytes :=
  [byte_of_Z (x / 16777216); byte_of_Z (x / 65536); byte_of_Z (x / 256); byte_of_Z x].

End base64.

(** ** Text helpers *)

(** [s.startswith(p)] *)
Fixpoint startswith (s p : string) {struct p} : bool :=
  match p with
  | EmptyString => true
  | String c p' =>
      match s with
      | EmptyString => false
      | String d s' => Ascii.eqb c d && startswith s' p'
      end
  end.

(** [s[n:]] *)
Fixpoint drop (n : nat) (s : string) : string :=
  match n with
  | O => s
  | S n' =>
      match s with
      | EmptyString => EmptyString
      | String _ s' => drop n' s'
      end
  end.

Definition TEMPO_MAGIC : string := "ArrowVortex:tempo:".
Definition NOTES_MAGIC : string := "ArrowVortex:notes:".

(** ** The tempo codec *)

(** [sorted(l, key=key)]: Python's sort is stable; the model inserts every
    element, from the last to the first, in front of the first element whose
    key is not smaller.  [sorted_is_stable_sort] shows that this is a stable
    sort and [stable_sort_unique] that a stable sort has only one possible
    result. *)
Fixpoint insert_sorted {A} (key : A -> Z) (x : A) (l : list A) : list A :=
  match l with
  | [] => [x]
  | y :: l' =>
      if key x <=? key y then x :: y :: l' else y :: insert_sorted key x l'
  end.

Definition sorted {A} (key : A -> Z) (l : list A) : list A :=
  fold_right (insert_sorted key) [] l.

(** [range(0, stop, step)] *)
Definition range_step (stop step : nat) : list nat :=
  map (fun k => (k * step)%nat) (seq 0 ((stop + step - 1) / step)).

(** [l[i:j]] for [0 <= i <= j] *)
Definition slice {A} (l : list A) (i j : nat) : list A :=
  firstn (j - i) (skipn i l).

Definition pack_tempo_item (item : tempo_point) : result bytes :=
  tick <- pack_I (fst item) ;;
  Ok (tick ++ pack_d (snd item)).

(** [pack_tempo_block(data, type)]: the bytes it appends to [blocks]. *)
Definition pack_tempo_block (data : list tempo_point) (type : Z) : result bytes :=
  count <- pack_B (Z.of_nat (length data)) ;;
  type <- pack_B type ;;
  items <- mapM pack_tempo_item data ;;
  Ok (count ++ type ++ concat items).

(** The bytes handed to [base64.a85encode] by [tempo_to_clipboard_data]. *)
Definition tempo_payload (bpms stops : list tempo_point) : result bytes :=
  let bpms := sorted fst bpms in
  let stops := sorted fst stops in
  bpm_blocks <-
    mapM (fun i => pack_tempo_block (slice bpms i (i + 254)) 0)
         (range_step (length bpms) 254) ;;
  stop_blocks <-
    mapM (fun i => pack_tempo_block (slice stops i (i + 254)) 1)
         (range_step (length stops) 254) ;;
  terminator <- pack_B 0 ;;
  Ok (concat bpm_blocks ++ concat stop_blocks ++ terminator).

Definition tempo_to_clipboard_data (bpms stops : list tempo_point) : result string :=
  blocks <- tempo_payload bpms stops ;;
  encoded <- decode_ascii (base64.a85encode blocks) ;;
  Ok (TEMPO_MAGIC ++ encoded)%string.

Definition clipboard_data_to_tempo (data : string) : result tempo_lists :=
  if negb (startswith data TEMPO_MAGIC) then
    Raise (ValueError (Some "Invalid data"%string))
  else
    data <- base64.a85decode (drop (String.length TEMPO_MAGIC) data) ;;
    '(lists, _) <- read_tempo data 0%nat ;;
    Ok lists.

(** ** The note codec *)

(** The body of the [for note in notes] loop: the bytes one note adds. *)
Definition pack_note (note : Note) : result bytes :=
  if is_step note then
    ctrl <- pack_B (Z.land (column note) 127) ;;
    s <- pack_vlc (start note) ;;
    Ok (ctrl ++ s)
  else
    ctrl <- pack_B (Z.lor (column note) 128) ;;
    s <- pack_vlc (start note) ;;
    e <- pack_vlc (end_ note) ;;
    sp <- pack_B (special note) ;;
    Ok (ctrl ++ s ++ e ++ sp).

(** The bytes handed to [base64.a85encode] by [notes_to_clipboard_data]. *)
Definition notes_payload (notes : list Note) : result bytes :=
  head <- pack_B 0 ;;
  count <- pack_vlc (Z.of_nat (length notes)) ;;
  records <- mapM pack_note notes ;;
  Ok (head ++ count ++ concat records).

Definition notes_to_clipboard_data (notes : list Note) : result string :=
  data <- notes_payload notes ;;
  encoded <- decode_ascii (base64.a85encode data) ;;
  Ok (NOTES_MAGIC ++ encoded)%string.

Definition clipboard_data_to_notes (data : string) : result (list Note) :=
  if negb (startswith data NOTES_MAGIC) then
    Raise (ValueError (Some "Invalid data"%string))
  else
    data <- base64.a85decode (drop (String.length NOTES_MAGIC) data) ;;
    '(notes, _) <- read_notes data 0%nat ;;
    Ok notes.

(** ** Notions used to state the properties *)

(** [clipboard_data_to_notes(notes_to_clipboard_data(notes))] *)
Definition notes_roundtrip (notes : list Note) : result (list Note) :=
  text <- notes_to_clipboard_data notes ;; clipboard_data_to_notes text.

(** [clipboard_data_to_tempo(tempo_to_clipboard_data(bpms, stops))] *)
Definition tempo_roundtrip (bpms stops : list tempo_point) : result tempo_lists :=
  text <- tempo_to_clipboard_data bpms stops ;; clipboard_data_to_tempo text.

(** A tick that fits the 32-bit field of the wire format. *)
Definition u32_tick (item : tempo_point) : Prop := 0 <= fst item <= 4294967295.

(** The order of the keys. *)
Definition le_key {A} (key : A -> Z) (x y : A) : Prop := key x <= key y.

(** [l'] is [l] sorted by [key], ascending, with a stable sort: it is in
    ascending order, and for every key value its elements with that key are
    those of [l], in the order they have in [l]. *)
Definition stable_sort_of {A} (key : A -> Z) (l l' : list A) : Prop :=
  StronglySorted (le_key key) l' /\
  forall k, filter (fun x => key x =? k) l' = filter (fun x => key x =? k) l.

(** The bytes of a tick, of one entry and of one block of the tempo payload,
    as the specification lays them out: unsigned 32 bits, least significant
    byte first; tick then value; count, type, entries. *)
Definition le32 (x : Z) : bytes :=
  [byte_of_Z x; byte_of_Z (x / 256); byte_of_Z (x / 65536); byte_of_Z (x / 16777216)].

Definition tempo_entry (item : tempo_point) : bytes :=
  le32 (fst item) ++ pack_d (snd item).

Definition tempo_block (type : Z) (chunk : list tempo_point) : bytes :=
  byte_of_Z (Z.of_nat (length chunk)) :: byte_of_Z type
  :: concat (map tempo_entry chunk).

(** The binary64 bit pattern of a float, as an unsigned 64-bit integer:
    [float_of_bits] read backwards. *)
Definition bits_of_float (v : float) : Z :=
  match v with
  | Float b0 b1 b2 b3 b4 b5 b6 b7 =>
      u8 b0 + 256 * (u8 b1 + 256 * (u8 b2 + 256 * (u8 b3 + 256 * (u8 b4
      + 256 * (u8 b5 + 256 * (u8 b6 + 256 * u8 b7))))))
  end.

(** Unsigned 64 bits, least significant byte first. *)
Definition le64 (x : Z) : bytes :=
  [byte_of_Z x; byte_of_Z (x / 256); byte_of_Z (x / 65536);
   byte_of_Z (x / 16777216); byte_of_Z (x / 4294967296);
   byte_of_Z (x / 1099511627776); byte_of_Z (x / 281474976710656);
   byte_of_Z (x / 72057594037927936)].

(** An entry and a block of the tempo payload in the words of the
    specification, written from the numbers alone and not with the
    [pack_d] of the code: [(tick:u32-LE, value:f64-LE)] is the tick in four
    bytes followed by the bit pattern of the value in eight, and a block is
    [count:u8], [type:u8] and the entries. *)
Definition wire_entry (item : tempo_point) : bytes :=
  le32 (fst item) ++ le64 (bits_of_float (snd item)).

Definition wire_block (type : Z) (chunk : list tempo_point) : bytes :=
  byte_of_Z (Z.of_nat (length chunk)) :: byte_of_Z type
  :: concat (map wire_entry chunk).

(** A chunk the block writer accepts and the reader reads back: the count
    fits in a byte and is not the terminator, and the ticks fit in 32
    bits. *)
Definition block_sized (chunk : list tempo_point) : Prop :=
  (1 <= length chunk <= 255)%nat /\ Forall u32_tick chunk.

(** [chunks] cuts [l] into consecutive chunks of [size] entries, the last
    one possibly shorter. *)
Definition chunking {A} (size : nat) (l : list A) (chunks : list (list A)) : Prop :=
  concat chunks = l /\
  Forall (fun c => (1 <= length c <= size)%nat) chunks /\
  forall i, (S i < length chunks)%nat -> length (nth i chunks []) = size.

(** The chunks [tempo_payload] hands to [pack_tempo_block]. *)
Definition blocks_of (l : list tempo_point) : list (list tempo_point) :=
  map (fun i => slice l i (i + 254)) (range_step (length l) 254).

(** The varint format in the words of the specification: the value is split
    into groups of seven bits, least significant group first; byte [i]
    carries group [i] in its low bits, and bit 7 is set when more bytes
    follow.  There are as many groups as it takes to hold every set bit of
    the value, and at least one. *)
Definition varint_length (n : Z) : nat := S (Z.to_nat (Z.log2 n / 7)).

Definition varint_byte (n : Z) (i : nat) : Z :=
  Z.land (Z.shiftr n (7 * Z.of_nat i)) 127
  + (if (S i <? varint_length n)%nat then 128 else 0).

Definition varint (n : Z) : bytes :=
  map (fun i => byte_of_Z (varint_byte n i)) (seq 0 (varint_length n)).

(** The two record layouts of the note codec. *)
Definition short_record (note : Note) : bytes :=
  byte_of_Z (Z.land (column note) 127) :: varint (start note).

Definition long_record (note : Note) : bytes :=
  byte_of_Z (Z.lor (column note) 128)
  :: varint (start note) ++ varint (end_ note) ++ [byte_of_Z (special note)].

(** What the note decoder makes of a note the encoder wrote: the column
    keeps its low seven bits, and a note written in short form comes back
    as a plain step. *)
Definition decoded_note (note : Note) : Note :=
  if is_step note then
    mkNote (start note) (start note) (Z.land (column note) 127) (-1)
  else
    mkNote (start note) (end_ note) (Z.land (column note) 127) (special note).

(** The notes the encoder accepts: the varints must be non-negative and the
    two bytes of the long form must fit in a byte. *)
Definition encodable (note : Note) : Prop :=
  0 <= start note /\
  (is_step note = false ->
   0 <= end_ note /\ 0 <= column note <= 255 /\ 0 <= special note <= 255).

(** The notes that survive a round trip unchanged. *)
Definition well_formed (note : Note) : Prop :=
  0 <= start note /\ 0 <= end_ note /\ 0 <= column note <= 127 /\
  (if is_step note then special note = -1 else 0 <= special note <= 255).

(** ** Notions used to reason about readers *)

(** A reader that takes the buffer as a parameter. *)
Definition reading (A : Type) : Type := bytes -> reader A.

(** A successful run of [m] moves forward, depends only on the bytes up to
    the position it stops at, and fails with the [ValueError()] of [unpack]
    on every buffer cut before that position. *)
Definition stable {A} (m : reading A) : Prop :=
  forall data offset a offset',
    m data offset = Ok (a, offset') ->
    (offset <= offset')%nat /\
    (forall data', firstn offset' data' = firstn offset' data ->
                   m data' offset = Ok (a, offset')) /\
    (forall k, (offset <= k < offset')%nat ->
               m (firstn k data) offset = Raise (ValueError None)).

(** The run of a reader ends: it returns a value at a position further on,
    by at least [step] bytes and within the buffer if any byte was read, or
    it raises [ValueError()]. *)
Definition ends {A} (step : nat) (data : bytes) (offset : nat)
           (r : result (A * nat)) : Prop :=
  match r with
  | Ok (_, offset') =>
      (offset + step <= offset')%nat /\
      (offset' = offset \/ offset' <= length data)%nat
  | Raise e => e = ValueError None
  | Diverge => False
  end.

(** The errors of [base64.a85decode]: a [ValueError] with a message, which
    is never the message of the magic check. *)
Definition a85_error (e : exn) : Prop :=
  exists m, e = ValueError (Some m) /\ m <> "Invalid data"%string.

(** A continuation byte of a varint: bit 7 is set. *)
Definition continuation (c : byte) : Prop := 128 <= u8 c.

(** The error kinds of the specification. *)
Inductive error_kind : Type :=
| MagicMismatch
| Truncated
| UnknownBlockType
| MalformedTextEncoding.

(** ** Notions used to state further properties of the code *)

(** The six kind predicates of a note, in the order of the source. *)
Definition kinds (n : Note) : list bool :=
  [is_step n; is_mine n; is_lift n; is_fake n; is_hold n; is_roll n].

(** The number a run of varint bytes stands for: seven bits a byte, least
    significant group first. *)
Fixpoint base128 (bs : bytes) : Z :=
  match bs with
  | [] => 0
  | b :: bs' => Z.land (u8 b) 127 + 128 * base128 bs'
  end.

(** The notes the note decoder can return. *)
Definition decodable_note (n : Note) : Prop :=
  0 <= start n /\ 0 <= end_ n /\ 0 <= column n <= 127 /\
  ((special n = -1 /\ start n = end_ n) \/ 0 <= special n <= 255).

(** A block of the tempo payload: its type and its entries. *)
Definition typed_block : Type := (Z * list tempo_point)%type.

(** The bytes of a sequence of blocks. *)
Definition blocks_bytes (blocks : list typed_block) : bytes :=
  concat (map (fun b => tempo_block (fst b) (snd b)) blocks).

(** The entries of the blocks of type [type], in the order of the blocks. *)
Definition entries_of_type (type : Z) (blocks : list typed_block)
  : list tempo_point :=
  concat (map snd (filter (fun b => fst b =? type) blocks)).

(** A block the tempo decoder reads: of type 0 or 1, with 1 to 255 entries
    whose ticks fit in 32 bits. *)
Definition readable_block (b : typed_block) : Prop :=
  (fst b = 0 \/ fst b = 1) /\ block_sized (snd b).

(** The outcomes of packing with [struct]: a value or [struct.error],
    never a loop. *)
Definition struct_outcome {A} (r : result A) : Prop :=
  match r with
  | Ok _ => True
  | Raise e => e = StructError
  | Diverge => False
  end.

(** The characters [base64.a85decode] skips: space, tab, line feed,
    carriage return and vertical tab. *)
Definition a85_ignored (c : byte) : bool :=
  existsb (Z.eqb (u8 c)) base64.ignorechars.

(** [s] without the characters [base64.a85decode] skips. *)
Definition strip_ignored (s : string) : string :=
  string_of_list_byte
    (filter (fun c => negb (a85_ignored c)) (list_byte_of_string s)).

(** The run of [m] from a position depends only on the length of the buffer
    and on its bytes from that position on. *)
Definition forward {A} (m : reading A) : Prop :=
  forall data data' offset,
    length data = length data' ->
    skipn offset data = skipn offset data' ->
    m data offset = m data' offset.

(** The characters of an Ascii85 text: ['!'] to ['u'], and ['z']. *)
Definition a85_char (c : byte) : bool :=
  ((33 <=? u8 c) && (u8 c <=? 117)) || (u8 c =? 122).

(** The notes the factories build from ticks that are not negative, a
    column that fits in seven bits and, for a hold or a roll, two different
    ticks. *)
Inductive factory_built : Note -> Prop :=
| built_step (tick column : Z) :
    0 <= tick -> 0 <= column <= 127 -> factory_built (make_step tick column)
| built_mine (tick column : Z) :
    0 <= tick -> 0 <= column <= 127 -> factory_built (make_mine tick column)
| built_lift (tick column : Z) :
    0 <= tick -> 0 <= column <= 127 -> factory_built (make_lift tick column)
| built_fake (tick column : Z) :
    0 <= tick -> 0 <= column <= 127 -> factory_built (make_fake tick column)
| built_hold (start end_ column : Z) :
    0 <= start -> 0 <= end_ -> start <> end_ -> 0 <= column <= 127 ->
    factory_built (make_hold start end_ column)
| built_roll (start end_ column : Z) :
    0 <= start -> 0 <= end_ -> start <> end_ -> 0 <= column <= 127 ->
    factory_built (make_roll start end_ column).
(** * Verification *)

(** ** Bytes *)

Lemma u8_range (b : byte) : 0 <= u8 b <= 255.
Proof.
  unfold u8. pose proof (Byte.to_N_bounded b). lia.
Qed.

Lemma land_255_mod (x : Z) : Z.land x 255 = x mod 256.
Proof.
  change 255 with (Z.ones 8). now rewrite Z.land_ones by lia.
Qed.

Lemma land_127_mod (x : Z) : Z.land x 127 = x mod 128.
Proof.
  change 127 with (Z.ones 7). now rewrite Z.land_ones by lia.
Qed.

Lemma land_255_range (x : Z) : 0 <= Z.land x 255 <= 255.
Proof.
  rewrite land_255_mod. pose proof (Z.mod_pos_bound x 256). lia.
Qed.

Lemma land_255_small (x : Z) : 0 <= x <= 255 -> Z.land x 255 = x.
Proof.
  intros R. rewrite land_255_mod. apply Z.mod_small. lia.
Qed.

Lemma u8_byte_of_Z (x : Z) : u8 (byte_of_Z x) = Z.land x 255.
Proof.
  unfold byte_of_Z, u8. pose proof (land_255_range x) as R.
  destruct (Byte.of_N (Z.to_N (Z.land x 255))) as [b|] eqn:E.
  - apply Byte.to_of_N in E. rewrite E. lia.
  - apply Byte.of_N_None_iff in E. lia.
Qed.

Lemma byte_of_Z_u8 (b : byte) : byte_of_Z (u8 b) = b.
Proof.
  unfold byte_of_Z. rewrite (land_255_small _ (u8_range b)).
  unfold u8. now rewrite N2Z.id, Byte.of_to_N.
Qed.

Lemma pack_B_ok (x : Z) : 0 <= x <= 255 -> pack_B x = Ok [byte_of_Z x].
Proof.
  intros R. unfold pack_B, byte_of_Z.
  replace ((0 <=? x) && (x <=? 255)) with true by (symmetry; apply andb_true_iff; lia).
  rewrite (land_255_small x R).
  destruct (Byte.of_N (Z.to_N x)) eqn:E; [reflexivity|].
  apply Byte.of_N_None_iff in E. lia.
Qed.

Lemma pack_B_error (x : Z) : x < 0 \/ 255 < x -> pack_B x = Raise StructError.
Proof.
  intros R. unfold pack_B.
  replace ((0 <=? x) && (x <=? 255)) with false; [reflexivity|].
  symmetry. apply andb_false_iff. lia.
Qed.

Lemma pack_B_u8 (b : byte) : pack_B (u8 b) = Ok [b].
Proof.
  rewrite pack_B_ok by apply u8_range. now rewrite byte_of_Z_u8.
Qed.

(** ** The variable-length integer codec *)

Lemma land_128_low (r : Z) : 0 <= r < 128 -> Z.land r 128 = 0.
Proof.
  intros R. apply Z.bits_inj'. intros n Hn.
  rewrite Z.land_spec, Z.bits_0.
  destruct (Z.eq_dec n 7) as [->|Hne].
  - replace (Z.testbit r 7) with false; [reflexivity|].
    symmetry. apply Z.testbit_false; [lia|].
    change (2 ^ 7) with 128. rewrite Z.div_small by lia. reflexivity.
  - replace (Z.testbit 128 n) with false; [apply andb_false_r|].
    symmetry. change 128 with (2 ^ 7). apply Z.pow2_bits_false. lia.
Qed.

Lemma lor_128_low (r : Z) : 0 <= r < 128 -> Z.lor r 128 = r + 128.
Proof.
  intros R. pose proof (land_128_low r R) as H.
  rewrite (Z.add_nocarry_lxor r 128 H). symmetry. now apply Z.lxor_lor.
Qed.

Lemma land_128_high (r : Z) : 0 <= r < 128 -> Z.land (r + 128) 128 = 128.
Proof.
  intros R. rewrite <- lor_128_low by assumption.
  rewrite Z.land_lor_distr_l, land_128_low by assumption. reflexivity.
Qed.

Lemma land_127_range (x : Z) : 0 <= Z.land x 127 < 128.
Proof.
  rewrite land_127_mod. apply Z.mod_pos_bound. lia.
Qed.

Lemma vlc_split (v : Z) : Z.lor (Z.land v 127) (Z.shiftl (Z.shiftr v 7) 7) = v.
Proof.
  change 127 with (Z.ones 7).
  rewrite <- Z.ldiff_ones_r by lia.
  rewrite Z.lor_comm. apply Z.lor_ldiff_and.
Qed.

(** One iteration of the writer, spelled out. *)
Lemma pack_vlc_loop_S (fuel : nat) (v : Z) :
  pack_vlc_loop (S fuel) v =
  if Z.shiftr v 7 =? 0 then Ok [byte_of_Z (Z.land v 127)]
  else rest <- pack_vlc_loop fuel (Z.shiftr v 7) ;;
       Ok (byte_of_Z (Z.land v 127 + 128) :: rest).
Proof.
  pose proof (land_127_range v) as R.
  cbn [pack_vlc_loop]. destruct (Z.shiftr v 7 =? 0); cbn [negb].
  - rewrite pack_B_ok by lia. reflexivity.
  - rewrite lor_128_low by assumption. rewrite pack_B_ok by lia.
    cbn [bind]. destruct (pack_vlc_loop fuel (Z.shiftr v 7)); reflexivity.
Qed.

(** On a negative value the writer never stops: no amount of fuel is
    enough. *)
Lemma pack_vlc_loop_negative (fuel : nat) (v : Z) :
  v < 0 -> pack_vlc_loop fuel v = Diverge.
Proof.
  revert v. induction fuel as [|fuel IH]; intros v Hv; [reflexivity|].
  rewrite pack_vlc_loop_S.
  assert (Z.shiftr v 7 < 0) as Hs by (apply Z.shiftr_neg; lia).
  destruct (Z.eqb_spec (Z.shiftr v 7) 0); [lia|].
  now rewrite (IH _ Hs).
Qed.

Lemma pack_vlc_loop_bounded (fuel : nat) (v : Z) :
  0 <= v < 2 ^ (7 * Z.of_nat fuel) -> (0 < fuel)%nat ->
  exists bs, pack_vlc_loop fuel v = Ok bs.
Proof.
  revert v. induction fuel as [|fuel IH]; intros v Hv Hf; [lia|].
  rewrite pack_vlc_loop_S.
  destruct (Z.eqb_spec (Z.shiftr v 7) 0) as [E|E]; [eauto|].
  assert (0 <= Z.shiftr v 7 < 2 ^ (7 * Z.of_nat fuel)) as Hs.
  { rewrite Z.shiftr_div_pow2 by lia. split.
    - apply Z.div_pos; lia.
    - apply Z.div_lt_upper_bound; [lia|].
      rewrite <- Z.pow_add_r by lia.
      replace (7 + 7 * Z.of_nat fuel) with (7 * Z.of_nat (S fuel)) by lia. lia. }
  destruct fuel as [|fuel].
  - change (2 ^ (7 * Z.of_nat 0)) with 1 in Hs. lia.
  - destruct (IH _ Hs ltac:(lia)) as [bs ->]. cbn [bind]. eauto.
Qed.

(** More fuel does not change a result. *)
Lemma pack_vlc_loop_more (fuel fuel' : nat) (v : Z) (bs : bytes) :
  pack_vlc_loop fuel v = Ok bs -> (fuel <= fuel')%nat ->
  pack_vlc_loop fuel' v = Ok bs.
Proof.
  revert fuel' v bs. induction fuel as [|fuel IH]; intros fuel' v bs H Hf.
  - discriminate.
  - destruct fuel' as [|fuel']; [lia|].
    rewrite pack_vlc_loop_S in *.
    destruct (Z.shiftr v 7 =? 0); [assumption|].
    destruct (pack_vlc_loop fuel (Z.shiftr v 7)) as [rest| |] eqn:E; try discriminate.
    rewrite (IH fuel' _ rest E) by lia. assumption.
Qed.

(** On a non-negative value the writer stops, and [vlc_fuel] is enough. *)
Lemma pack_vlc_ok (v : Z) : 0 <= v -> exists bs, pack_vlc v = Ok bs.
Proof.
  intros Hv. apply pack_vlc_loop_bounded; [|unfold vlc_fuel; lia].
  split; [assumption|]. unfold vlc_fuel.
  destruct (Z.eq_dec v 0) as [->|Hne]; [reflexivity|].
  pose proof (Z.log2_spec v ltac:(lia)) as [_ Hlt].
  pose proof (Z.log2_nonneg v).
  eapply Z.lt_le_trans; [exact Hlt|].
  apply Z.pow_le_mono_r; lia.
Qed.

Lemma pack_vlc_loop_enough (fuel : nat) (v : Z) :
  0 <= v -> (vlc_fuel v <= fuel)%nat -> pack_vlc_loop fuel v = pack_vlc v.
Proof.
  intros Hv Hf. destruct (pack_vlc_ok v Hv) as [bs E].
  rewrite E. eapply pack_vlc_loop_more; eassumption.
Qed.

Lemma pack_vlc_negative (v : Z) : v < 0 -> pack_vlc v = Diverge.
Proof.
  apply pack_vlc_loop_negative.
Qed.

(** ** Readers on a buffer of known shape *)

Lemma unpack_at (pre bs post : bytes) :
  unpack (pre ++ bs ++ post) (length bs) (length pre)
  = Ok (bs, (length pre + length bs)%nat).
Proof.
  unfold unpack. rewrite !length_app.
  destruct (Nat.ltb_spec (length pre + (length bs + length post))
                         (length pre + length bs)) as [H|H]; [lia|].
  rewrite skipn_app, Nat.sub_diag, skipn_all. cbn [skipn app].
  rewrite firstn_app, Nat.sub_diag, firstn_all. cbn [firstn].
  now rewrite app_nil_r.
Qed.

Lemma le_uint_1 (b : byte) : le_uint [b] = u8 b.
Proof.
  cbn. lia.
Qed.

Lemma unpack_B_at (pre : bytes) (b : byte) (post : bytes) :
  unpack_B (pre ++ b :: post) (length pre) = Ok (u8 b, S (length pre)).
Proof.
  unfold unpack_B, rbind.
  change (b :: post) with ([b] ++ post). rewrite unpack_at.
  unfold ret. rewrite le_uint_1. cbn [length]. f_equal. f_equal. lia.
Qed.

Lemma unpack_B_end (data : bytes) (offset : nat) :
  (length data <= offset)%nat -> unpack_B data offset = Raise (ValueError None).
Proof.
  intros H. unfold unpack_B, rbind, unpack.
  destruct (Nat.ltb_spec (length data) (offset + 1)); [reflexivity|lia].
Qed.

(** Reading back what the writer wrote: the loop invariant. *)
Lemma unpack_vlc_loop_pack (fuel : nat) :
  forall (v : Z) (bs : bytes), pack_vlc_loop fuel v = Ok bs ->
  forall (pre post : bytes) (fuel' : nat) (value k : Z),
    (length bs <= fuel')%nat -> 0 <= k ->
    unpack_vlc_loop (pre ++ bs ++ post) fuel' value k (length pre)
    = Ok (Z.lor value (Z.shiftl v (7 * k)), (length pre + length bs)%nat).
Proof.
  induction fuel as [|fuel IH]; intros v bs H pre post fuel' value k Hf Hk.
  - discriminate.
  - rewrite pack_vlc_loop_S in H.
    pose proof (land_127_range v) as R.
    destruct (Z.eqb_spec (Z.shiftr v 7) 0) as [E|E].
    + injection H as <-. destruct fuel' as [|fuel']; [cbn in Hf; lia|].
      cbn [unpack_vlc_loop app]. unfold rbind at 1. rewrite unpack_B_at.
      rewrite u8_byte_of_Z, land_255_small by lia.
      replace (Z.land (Z.land v 127) 128) with 0
        by (symmetry; apply land_128_low; assumption).
      cbn [Z.eqb]. unfold ret. cbn [length].
      rewrite <- Z.land_assoc, Z.land_diag.
      rewrite <- (vlc_split v) at 2. rewrite E, Z.shiftl_0_l, Z.lor_0_r.
      f_equal. f_equal. lia.
    + destruct (pack_vlc_loop fuel (Z.shiftr v 7)) as [rest| |] eqn:Er; try discriminate.
      injection H as <-. destruct fuel' as [|fuel']; [cbn in Hf; lia|].
      cbn [unpack_vlc_loop app]. unfold rbind at 1. rewrite unpack_B_at.
      rewrite u8_byte_of_Z, land_255_small by lia.
      rewrite land_128_high by assumption. cbn [Z.eqb].
      replace (Z.land (Z.land v 127 + 128) 127) with (Z.land v 127).
      2:{ rewrite (land_127_mod (_ + _)), land_127_mod.
          rewrite <- Z.add_mod_idemp_r, Z.mod_same, Z.add_0_r by lia.
          now rewrite Z.mod_mod by lia. }
      pose proof (IH _ _ Er (pre ++ [byte_of_Z (Z.land v 127 + 128)]) post fuel'
                    (Z.lor value (Z.shiftl (Z.land v 127) (7 * k))) (k + 1)) as IH'.
      rewrite <- app_assoc in IH'. cbn [app] in IH'.
      rewrite length_app in IH'. cbn [length] in IH'.
      rewrite Nat.add_1_r in IH'.
      rewrite IH' by (cbn [length] in Hf; lia).
      f_equal. f_equal.
      * rewrite <- Z.lor_assoc. f_equal.
        replace (7 * (k + 1)) with (7 + 7 * k) by lia.
        rewrite <- Z.shiftl_shiftl by lia.
        rewrite <- Z.shiftl_lor. now rewrite vlc_split.
      * cbn [length]. lia.
Qed.

Lemma pack_vlc_loop_nonempty (fuel : nat) (v : Z) (bs : bytes) :
  pack_vlc_loop fuel v = Ok bs -> (0 < length bs)%nat.
Proof.
  destruct fuel as [|fuel]; [discriminate|].
  rewrite pack_vlc_loop_S.
  destruct (Z.shiftr v 7 =? 0).
  - intros [= <-]. cbn. lia.
  - destruct (pack_vlc_loop fuel (Z.shiftr v 7)); try discriminate.
    intros [= <-]. cbn. lia.
Qed.

(** [unpack_vlc] reads back, from anywhere in a buffer, what [pack_vlc]
    wrote there. *)
Lemma unpack_vlc_pack (v : Z) (bs pre post : bytes) :
  pack_vlc v = Ok bs ->
  unpack_vlc (pre ++ bs ++ post) (length pre)
  = Ok (v, (length pre + length bs)%nat).
Proof.
  intros H. unfold unpack_vlc.
  rewrite (unpack_vlc_loop_pack _ _ _ H pre post _ 0 0).
  - now rewrite Z.lor_0_l, Z.shiftl_0_r.
  - rewrite !length_app. lia.
  - lia.
Qed.

(** The bytes of a varint: byte [i] holds bits [7i .. 7i+6] of the value
    and has bit 7 set exactly when it is not the last one. *)
Lemma pack_vlc_loop_layout (fuel : nat) :
  forall (v : Z) (bs : bytes), pack_vlc_loop fuel v = Ok bs ->
  forall i : nat, (i < length bs)%nat ->
    u8 (nth i bs x00)
    = Z.land (Z.shiftr v (7 * Z.of_nat i)) 127
      + (if (S i <? length bs)%nat then 128 else 0).
Proof.
  induction fuel as [|fuel IH]; intros v bs H i Hi; [discriminate|].
  rewrite pack_vlc_loop_S in H.
  pose proof (land_127_range v) as R.
  destruct (Z.shiftr v 7 =? 0).
  - injection H as <-. cbn [length] in *.
    assert (i = 0%nat) as -> by lia. cbn [nth Nat.ltb Nat.leb].
    rewrite u8_byte_of_Z, land_255_small by lia.
    cbn [Z.of_nat]. rewrite Z.mul_0_r, Z.shiftr_0_r. lia.
  - destruct (pack_vlc_loop fuel (Z.shiftr v 7)) as [rest| |] eqn:Er; try discriminate.
    injection H as <-. pose proof (pack_vlc_loop_nonempty _ _ _ Er) as Hne.
    cbn [length] in *. destruct i as [|i].
    + cbn [nth]. rewrite u8_byte_of_Z, land_255_small by lia.
      cbn [Z.of_nat]. rewrite Z.mul_0_r, Z.shiftr_0_r.
      destruct (Nat.ltb_spec 1 (S (length rest))); [reflexivity|lia].
    + cbn [nth]. rewrite (IH _ _ Er i) by lia.
      rewrite Z.shiftr_shiftr by lia.
      replace (7 + 7 * Z.of_nat i) with (7 * Z.of_nat (S i)) by lia.
      f_equal.
Qed.

(** ** Ascii85: decoding inverts encoding *)

Module base64_facts.
Import base64.

Lemma word_of_range (b0 b1 b2 b3 : byte) :
  0 <= word_of b0 b1 b2 b3 <= 4294967295.
Proof.
  unfold word_of.
  pose proof (u8_range b0). pose proof (u8_range b1).
  pose proof (u8_range b2). pose proof (u8_range b3). lia.
Qed.

Lemma a85encode_nil : a85encode [] = [].
Proof. reflexivity. Qed.

Lemma a85encode_full (b0 b1 b2 b3 : byte) (rest : bytes) :
  a85encode (b0 :: b1 :: b2 :: b3 :: rest)
  = encode_word (word_of b0 b1 b2 b3) ++ a85encode rest.
Proof.
  unfold a85encode.
  replace (length (b0 :: b1 :: b2 :: b3 :: rest) mod 4)%nat
    with (length rest mod 4)%nat.
  2:{ cbn [length]. replace (S (S (S (S (length rest)))))
        with (length rest + 1 * 4)%nat by lia.
      now rewrite Nat.Div0.mod_add. }
  cbn [app unpack_words map]. fold (word_of b0 b1 b2 b3).
  destruct (((4 - length rest mod 4) mod 4 =? 0)%nat) eqn:E; [reflexivity|].
  destruct rest as [|c0 [|c1 [|c2 [|c3 rest]]]]; try reflexivity.
  cbn in E. discriminate.
Qed.

Lemma unpad_encode_word (padding : nat) (w : Z) :
  unpad_chunk padding (encode_word w) = firstn (5 - padding) (digits5 w).
Proof.
  unfold unpad_chunk, encode_word. destruct (Z.eqb_spec w 0) as [->|Hne].
  - reflexivity.
  - reflexivity.
Qed.

Lemma a85encode_1 (b0 : byte) :
  a85encode [b0] = firstn 2 (digits5 (word_of b0 x00 x00 x00)).
Proof.
  unfold a85encode. change ((4 - length [b0] mod 4) mod 4)%nat with 3%nat.
  cbn [Nat.eqb repeat app unpack_words map map_last concat].
  fold (word_of b0 x00 x00 x00).
  now rewrite unpad_encode_word, app_nil_r.
Qed.

Lemma a85encode_2 (b0 b1 : byte) :
  a85encode [b0; b1] = firstn 3 (digits5 (word_of b0 b1 x00 x00)).
Proof.
  unfold a85encode. change ((4 - length [b0; b1] mod 4) mod 4)%nat with 2%nat.
  cbn [Nat.eqb repeat app unpack_words map map_last concat].
  fold (word_of b0 b1 x00 x00).
  now rewrite unpad_encode_word, app_nil_r.
Qed.

Lemma a85encode_3 (b0 b1 b2 : byte) :
  a85encode [b0; b1; b2] = firstn 4 (digits5 (word_of b0 b1 b2 x00)).
Proof.
  unfold a85encode. change ((4 - length [b0; b1; b2] mod 4) mod 4)%nat with 1%nat.
  cbn [Nat.eqb repeat app unpack_words map map_last concat].
  fold (word_of b0 b1 b2 x00).
  now rewrite unpad_encode_word, app_nil_r.
Qed.

Lemma u8_digit (d : Z) : 0 <= d <= 84 -> u8 (digit d) = 33 + d.
Proof.
  intros R. unfold digit. rewrite u8_byte_of_Z. apply land_255_small. lia.
Qed.

Lemma a85decode_loop_digit (d : Z) (rest : bytes) (curr : list Z) (dec : bytes) :
  0 <= d <= 84 ->
  a85decode_loop (digit d :: rest) curr dec
  = if Nat.eqb (length (curr ++ [33 + d])) 5 then
      match pack_I_be (acc_of (curr ++ [33 + d])) with
      | Ok w => a85decode_loop rest [] (dec ++ w)
      | _ => Raise (ValueError (Some "Ascii85 overflow"%string))
      end
    else a85decode_loop rest (curr ++ [33 + d]) dec.
Proof.
  intros R. cbn [a85decode_loop]. rewrite (u8_digit d R).
  replace ((33 <=? 33 + d) && (33 + d <=? 117)) with true; [reflexivity|].
  symmetry. apply andb_true_iff. lia.
Qed.

Lemma byte_of_Z_land (x : Z) : byte_of_Z (Z.land x 255) = byte_of_Z x.
Proof.
  unfold byte_of_Z. now rewrite <- Z.land_assoc, Z.land_diag.
Qed.

Lemma pack_I_be_ok (x : Z) : 0 <= x <= 4294967295 -> pack_I_be x = Ok (be32 x).
Proof.
  intros R. unfold pack_I_be.
  replace ((0 <=? x) && (x <=? 4294967295)) with true
    by (symmetry; apply andb_true_iff; lia).
  rewrite !pack_B_ok by apply land_255_range.
  unfold le_byte, be32. cbn [bind app].
  rewrite !byte_of_Z_land, !Z.shiftr_div_pow2 by lia.
  change (2 ^ (8 * 0)) with 1. rewrite Z.div_1_r. reflexivity.
Qed.

Lemma a85decode_loop_5 (d0 d1 d2 d3 d4 : Z) (rest dec : bytes) :
  0 <= d0 <= 84 -> 0 <= d1 <= 84 -> 0 <= d2 <= 84 -> 0 <= d3 <= 84 ->
  0 <= d4 <= 84 ->
  (((d0 * 85 + d1) * 85 + d2) * 85 + d3) * 85 + d4 <= 4294967295 ->
  a85decode_loop (digit d0 :: digit d1 :: digit d2 :: digit d3 :: digit d4 :: rest)
                 [] dec
  = a85decode_loop rest []
      (dec ++ be32 ((((d0 * 85 + d1) * 85 + d2) * 85 + d3) * 85 + d4)).
Proof.
  intros R0 R1 R2 R3 R4 Hacc.
  rewrite !a85decode_loop_digit by assumption.
  cbn [app length Nat.eqb]. unfold acc_of. cbn [fold_left].
  replace (85 * (85 * (85 * (85 * (85 * 0 + (33 + d0 - 33)) + (33 + d1 - 33))
                      + (33 + d2 - 33)) + (33 + d3 - 33)) + (33 + d4 - 33))
    with ((((d0 * 85 + d1) * 85 + d2) * 85 + d3) * 85 + d4) by lia.
  rewrite pack_I_be_ok by lia. reflexivity.
Qed.

Lemma digits5_digits (w : Z) :
  digits5 w = [digit (w / 614125 / 85); digit ((w / 614125) mod 85);
               digit ((w / 85 mod 7225) / 85); digit ((w / 85 mod 7225) mod 85);
               digit (w mod 85)].
Proof. reflexivity. Qed.

Lemma byte_of_Z_eq (x : Z) (b : byte) : x mod 256 = u8 b -> byte_of_Z x = b.
Proof.
  intros H. rewrite <- byte_of_Z_land, land_255_mod, H. apply byte_of_Z_u8.
Qed.

Lemma u8_zero (b : byte) : u8 b = 0 -> b = x00.
Proof.
  intros H. rewrite <- (byte_of_Z_u8 b), H. reflexivity.
Qed.

Ltac euclid := Z.to_euclidean_division_equations; lia.

Lemma digits_range (w : Z) :
  0 <= w <= 4294967295 ->
  0 <= w / 614125 / 85 <= 84 /\ 0 <= (w / 614125) mod 85 <= 84 /\
  0 <= w / 85 mod 7225 / 85 <= 84 /\ 0 <= (w / 85 mod 7225) mod 85 <= 84 /\
  0 <= w mod 85 <= 84.
Proof. intros R. repeat split; euclid. Qed.

(** A full group of four bytes. *)
Lemma a85decode_loop_word (b0 b1 b2 b3 : byte) (rest dec : bytes) :
  a85decode_loop (encode_word (word_of b0 b1 b2 b3) ++ rest) [] dec
  = a85decode_loop rest [] (dec ++ [b0; b1; b2; b3]).
Proof.
  pose proof (u8_range b0) as R0. pose proof (u8_range b1) as R1.
  pose proof (u8_range b2) as R2. pose proof (u8_range b3) as R3.
  unfold encode_word. destruct (Z.eqb_spec (word_of b0 b1 b2 b3) 0) as [E|E].
  - unfold word_of in E.
    rewrite (u8_zero b0), (u8_zero b1), (u8_zero b2), (u8_zero b3) by lia.
    reflexivity.
  - fold (digits5 (word_of b0 b1 b2 b3)). rewrite digits5_digits.
    cbn [app]. set (w := word_of b0 b1 b2 b3).
    assert (0 <= w <= 4294967295) as Rw by apply word_of_range.
    pose proof (digits_range w Rw) as (D0 & D1 & D2 & D3 & D4).
    rewrite a85decode_loop_5; try assumption.
    + f_equal. f_equal. unfold be32.
      replace ((((w / 614125 / 85 * 85 + (w / 614125) mod 85) * 85
                 + (w / 85 mod 7225) / 85) * 85 + (w / 85 mod 7225) mod 85) * 85
               + w mod 85) with w by (Z.to_euclidean_division_equations; lia).
      unfold w, word_of.
      f_equal; [|f_equal; [|f_equal; [|f_equal]]]; apply byte_of_Z_eq;
        Z.to_euclidean_division_equations; lia.
    + Z.to_euclidean_division_equations; lia.
Qed.

Lemma a85decode_bytes_from (b : bytes) : a85decode_bytes b = a85decode_from [] b.
Proof.
  reflexivity.
Qed.

Lemma firstn_app_keep {A} (l l' : list A) (n k : nat) :
  (k <= length l')%nat -> n = (length l' - k)%nat ->
  firstn (length (l ++ l') - k) (l ++ l') = l ++ firstn n l'.
Proof.
  intros Hk ->. rewrite length_app.
  replace (length l + length l' - k)%nat with (length l + (length l' - k))%nat by lia.
  apply firstn_app_2.
Qed.

(** Filling a group up with the digit 84 gives a number that is at least
    the word and less than the word plus the weight of the last digit
    kept. *)
Lemma keep2_bounds (w : Z) :
  0 <= w <= 4294967295 ->
  w <= (((w / 614125 / 85 * 85 + (w / 614125) mod 85) * 85 + 84) * 85 + 84) * 85 + 84
    < w + 614125.
Proof. intros R. euclid. Qed.

Lemma keep3_bounds (w : Z) :
  0 <= w <= 4294967295 ->
  w <= (((w / 614125 / 85 * 85 + (w / 614125) mod 85) * 85
         + w / 85 mod 7225 / 85) * 85 + 84) * 85 + 84
    < w + 7225.
Proof. intros R. euclid. Qed.

Lemma keep4_bounds (w : Z) :
  0 <= w <= 4294967295 ->
  w <= (((w / 614125 / 85 * 85 + (w / 614125) mod 85) * 85
         + w / 85 mod 7225 / 85) * 85 + (w / 85 mod 7225) mod 85) * 85 + 84
    < w + 85.
Proof. intros R. euclid. Qed.

Lemma top_same (w a B M : Z) :
  0 < M -> w = B * M -> w <= a < w + M -> a / M = B.
Proof.
  intros HM -> H. symmetry. apply Z.div_unique with (a - B * M); lia.
Qed.

Lemma top_bytes_1 (a x : Z) :
  0 <= x <= 255 -> a / 16777216 = x -> (a / 16777216) mod 256 = x.
Proof. intros. euclid. Qed.

Lemma top_bytes_2 (a x y : Z) :
  0 <= x <= 255 -> 0 <= y <= 255 -> a / 65536 = x * 256 + y ->
  (a / 16777216) mod 256 = x /\ (a / 65536) mod 256 = y.
Proof. intros. euclid. Qed.

Lemma top_bytes_3 (a x y z : Z) :
  0 <= x <= 255 -> 0 <= y <= 255 -> 0 <= z <= 255 ->
  a / 256 = (x * 256 + y) * 256 + z ->
  (a / 16777216) mod 256 = x /\ (a / 65536) mod 256 = y /\ (a / 256) mod 256 = z.
Proof. intros. euclid. Qed.

(** A last group of one, two or three bytes. *)
Lemma a85decode_from_1 (dec : bytes) (b0 : byte) :
  a85decode_from dec (a85encode [b0]) = Ok (dec ++ [b0]).
Proof.
  pose proof (u8_range b0) as R0.
  unfold a85decode_from. rewrite a85encode_1, digits5_digits.
  cbn [firstn app repeat]. change "u"%byte with (digit 84).
  pose proof (word_of_range b0 x00 x00 x00) as Rw.
  set (w := word_of b0 x00 x00 x00) in *.
  assert (w = u8 b0 * 16777216) as Hw by (unfold w, word_of; cbn; lia).
  clearbody w.
  pose proof (digits_range w Rw) as (D0 & D1 & D2 & D3 & D4).
  pose proof (keep2_bounds w Rw) as Ha.
  rewrite a85decode_loop_5 by lia.
  rewrite a85decode_loop_digit by lia.
  cbn [app length Nat.eqb a85decode_loop bind unpad Nat.sub].
  unfold be32. rewrite (firstn_app_keep dec _ 1) by (cbn [length]; lia).
  cbn [firstn]. do 2 f_equal.
  f_equal. apply byte_of_Z_eq. apply top_bytes_1; [lia|].
  apply top_same with w; lia.
Qed.

Lemma a85decode_from_2 (dec : bytes) (b0 b1 : byte) :
  a85decode_from dec (a85encode [b0; b1]) = Ok (dec ++ [b0; b1]).
Proof.
  pose proof (u8_range b0) as R0. pose proof (u8_range b1) as R1.
  unfold a85decode_from. rewrite a85encode_2, digits5_digits.
  cbn [firstn app repeat]. change "u"%byte with (digit 84).
  pose proof (word_of_range b0 b1 x00 x00) as Rw.
  set (w := word_of b0 b1 x00 x00) in *.
  assert (w = (u8 b0 * 256 + u8 b1) * 65536) as Hw by (unfold w, word_of; cbn; lia).
  clearbody w.
  pose proof (digits_range w Rw) as (D0 & D1 & D2 & D3 & D4).
  pose proof (keep3_bounds w Rw) as Ha.
  rewrite a85decode_loop_5 by lia.
  rewrite !a85decode_loop_digit by lia.
  cbn [app length Nat.eqb a85decode_loop bind unpad Nat.sub].
  unfold be32. rewrite (firstn_app_keep dec _ 2) by (cbn [length]; lia).
  cbn [firstn]. do 2 f_equal.
  match goal with
  | |- [byte_of_Z (?a / _); _] = _ =>
      destruct (top_bytes_2 a (u8 b0) (u8 b1) R0 R1) as [H0 H1];
        [apply top_same with w; lia|]
  end.
  f_equal; [|f_equal]; apply byte_of_Z_eq; assumption.
Qed.

Lemma a85decode_from_3 (dec : bytes) (b0 b1 b2 : byte) :
  a85decode_from dec (a85encode [b0; b1; b2]) = Ok (dec ++ [b0; b1; b2]).
Proof.
  pose proof (u8_range b0) as R0. pose proof (u8_range b1) as R1.
  pose proof (u8_range b2) as R2.
  unfold a85decode_from. rewrite a85encode_3, digits5_digits.
  cbn [firstn app repeat]. change "u"%byte with (digit 84).
  pose proof (word_of_range b0 b1 b2 x00) as Rw.
  set (w := word_of b0 b1 b2 x00) in *.
  assert (w = ((u8 b0 * 256 + u8 b1) * 256 + u8 b2) * 256) as Hw
    by (unfold w, word_of; cbn; lia).
  clearbody w.
  pose proof (digits_range w Rw) as (D0 & D1 & D2 & D3 & D4).
  pose proof (keep4_bounds w Rw) as Ha.
  rewrite a85decode_loop_5 by lia.
  rewrite !a85decode_loop_digit by lia.
  cbn [app length Nat.eqb a85decode_loop bind unpad Nat.sub].
  unfold be32. rewrite (firstn_app_keep dec _ 3) by (cbn [length]; lia).
  cbn [firstn]. do 2 f_equal.
  match goal with
  | |- [byte_of_Z (?a / _); _; _] = _ =>
      destruct (top_bytes_3 a (u8 b0) (u8 b1) (u8 b2) R0 R1 R2) as (H0 & H1 & H2);
        [apply top_same with w; lia|]
  end.
  f_equal; [|f_equal; [|f_equal]]; apply byte_of_Z_eq; assumption.
Qed.

(** Induction on a byte string, four bytes at a time. *)
Lemma bytes_ind4 (P : bytes -> Prop) :
  P [] -> (forall b0, P [b0]) -> (forall b0 b1, P [b0; b1]) ->
  (forall b0 b1 b2, P [b0; b1; b2]) ->
  (forall b0 b1 b2 b3 rest, P rest -> P (b0 :: b1 :: b2 :: b3 :: rest)) ->
  forall b, P b.
Proof.
  intros H0 H1 H2 H3 H4.
  assert (forall n b, (length b <= n)%nat -> P b) as H.
  { induction n as [|n IH]; intros l Hl.
    - destruct l; [assumption|cbn in Hl; lia].
    - destruct l as [|b0 [|b1 [|b2 [|b3 rest]]]]; auto.
      apply H4, IH. cbn in Hl. lia. }
  intros b. now apply (H (length b)).
Qed.

Lemma a85decode_from_encode (b : bytes) :
  forall dec, a85decode_from dec (a85encode b) = Ok (dec ++ b).
Proof.
  induction b as [|b0|b0 b1|b0 b1 b2|b0 b1 b2 b3 rest IH] using bytes_ind4;
    intros dec.
  - now rewrite app_nil_r.
  - apply a85decode_from_1.
  - apply a85decode_from_2.
  - apply a85decode_from_3.
  - rewrite a85encode_full. unfold a85decode_from.
    rewrite <- app_assoc, a85decode_loop_word.
    fold (a85decode_from (dec ++ [b0; b1; b2; b3]) (a85encode rest)).
    rewrite IH. now rewrite <- app_assoc.
Qed.

(** [a85decode] inverts [a85encode]. *)
Lemma a85decode_bytes_encode (b : bytes) : a85decode_bytes (a85encode b) = Ok b.
Proof.
  rewrite a85decode_bytes_from. apply a85decode_from_encode.
Qed.

Lemma digits5_ascii (w : Z) :
  0 <= w <= 4294967295 -> forallb is_ascii (digits5 w) = true.
Proof.
  intros R. rewrite digits5_digits.
  pose proof (digits_range w R) as (D0 & D1 & D2 & D3 & D4).
  cbn [forallb]. unfold is_ascii. rewrite !u8_digit by assumption.
  repeat (apply andb_true_iff; split); try reflexivity; apply Z.ltb_lt; lia.
Qed.

Lemma forallb_firstn {A} (f : A -> bool) (n : nat) (l : list A) :
  forallb f l = true -> forallb f (firstn n l) = true.
Proof.
  intros H. rewrite <- (firstn_skipn n l), forallb_app in H.
  now apply andb_true_iff in H.
Qed.

Lemma a85encode_ascii (b : bytes) : forallb is_ascii (a85encode b) = true.
Proof.
  induction b as [|b0|b0 b1|b0 b1 b2|b0 b1 b2 b3 rest IH] using bytes_ind4.
  - reflexivity.
  - rewrite a85encode_1. apply forallb_firstn, digits5_ascii, word_of_range.
  - rewrite a85encode_2. apply forallb_firstn, digits5_ascii, word_of_range.
  - rewrite a85encode_3. apply forallb_firstn, digits5_ascii, word_of_range.
  - rewrite a85encode_full, forallb_app, IH, andb_true_r.
    unfold encode_word. destruct (word_of b0 b1 b2 b3 =? 0); [reflexivity|].
    apply digits5_ascii, word_of_range.
Qed.

(** The text-safe wrapper: [a85encode(b).decode('ascii')] is a text, and
    [a85decode] of that text is [b]. *)
Lemma a85_text_roundtrip (b : bytes) :
  decode_ascii (a85encode b) = Ok (string_of_list_byte (a85encode b)) /\
  a85decode (string_of_list_byte (a85encode b)) = Ok b.
Proof.
  pose proof (a85encode_ascii b) as H. split.
  - unfold decode_ascii. now rewrite H.
  - unfold a85decode, bytes_from_decode_data.
    rewrite list_byte_of_string_of_list_byte, H. cbn [bind].
    apply a85decode_bytes_encode.
Qed.

End base64_facts.

(** ** The note codec *)

Lemma pack_B_inv (x : Z) (bs : bytes) :
  pack_B x = Ok bs -> 0 <= x <= 255 /\ bs = [byte_of_Z x].
Proof.
  intros H. destruct (Z_le_gt_dec 0 x) as [H0|H0]; [destruct (Z_le_gt_dec x 255) as [H1|H1]|].
  - rewrite pack_B_ok in H by lia. injection H as <-. split; [lia|reflexivity].
  - rewrite pack_B_error in H by lia. discriminate.
  - rewrite pack_B_error in H by lia. discriminate.
Qed.

Lemma pack_vlc_inv (v : Z) (bs : bytes) : pack_vlc v = Ok bs -> 0 <= v.
Proof.
  intros H. destruct (Z_lt_le_dec v 0) as [Hneg|Hpos]; [|assumption].
  rewrite pack_vlc_negative in H by assumption. discriminate.
Qed.

Lemma land_lor_128_128 (c : Z) : Z.land (Z.lor c 128) 128 = 128.
Proof.
  apply Z.bits_inj'. intros n Hn. rewrite Z.land_spec, Z.lor_spec.
  destruct (Z.testbit 128 n), (Z.testbit c n); reflexivity.
Qed.

Lemma land_lor_128_127 (c : Z) : Z.land (Z.lor c 128) 127 = Z.land c 127.
Proof.
  rewrite Z.land_lor_distr_l. change (Z.land 128 127) with 0. apply Z.lor_0_r.
Qed.

Lemma lor_128_range (c : Z) : 0 <= c <= 255 -> 0 <= Z.lor c 128 <= 255.
Proof.
  intros R. split.
  - apply Z.lor_nonneg. lia.
  - assert (Z.lor c 128 < 2 ^ 8); [|lia].
    destruct (Z.eq_dec (Z.lor c 128) 0) as [->|Hne]; [lia|].
    apply Z.log2_lt_pow2.
    + assert (0 <= Z.lor c 128) by (apply Z.lor_nonneg; lia). lia.
    + rewrite Z.log2_lor by lia.
      assert (Z.log2 c < 8).
      { destruct (Z.eq_dec c 0) as [->|Hc]; [cbn; lia|].
        apply Z.log2_lt_pow2; lia. }
      change (Z.log2 128) with 7. lia.
Qed.

Lemma lor_128_range_inv (c : Z) : 0 <= Z.lor c 128 <= 255 -> 0 <= c <= 255.
Proof.
  intros [H0 H1]. pose proof H0 as H0'.
  apply Z.lor_nonneg in H0' as [Hc _]. split; [assumption|].
  assert (c < 2 ^ 8); [|lia].
  destruct (Z.eq_dec c 0) as [->|Hne]; [lia|].
  apply Z.log2_lt_pow2; [lia|].
  assert (Z.log2 (Z.lor c 128) < 8).
  { apply Z.log2_lt_pow2; [|lia].
    assert (Z.lor c 128 <> 0); [|lia].
    intros E. apply Z.lor_eq_0_iff in E. lia. }
  rewrite Z.log2_lor in H by lia. lia.
Qed.

(** The encoder accepts exactly the encodable notes. *)
Lemma pack_note_ok (note : Note) :
  encodable note -> exists bs, pack_note note = Ok bs.
Proof.
  intros [Hs Hl]. unfold pack_note.
  destruct (pack_vlc_ok _ Hs) as [s Es].
  destruct (is_step note).
  - rewrite pack_B_ok by (pose proof (land_127_range (column note)); lia).
    rewrite Es. cbn [bind]. eauto.
  - destruct (Hl eq_refl) as (He & Hc & Hsp).
    destruct (pack_vlc_ok _ He) as [e Ee].
    rewrite pack_B_ok by (apply lor_128_range; assumption).
    rewrite Es, Ee, pack_B_ok by assumption. cbn [bind]. eauto.
Qed.

Lemma pack_note_inv (note : Note) (bs : bytes) :
  pack_note note = Ok bs -> encodable note.
Proof.
  unfold pack_note, encodable. destruct (is_step note).
  - destruct (pack_B _) as [ctrl| |]; try discriminate. cbn [bind].
    destruct (pack_vlc (start note)) as [s| |] eqn:Es; try discriminate.
    intros _. split; [eapply pack_vlc_inv; eassumption|discriminate].
  - destruct (pack_B (Z.lor _ _)) as [ctrl| |] eqn:Ec; try discriminate. cbn [bind].
    destruct (pack_vlc (start note)) as [s| |] eqn:Es; try discriminate. cbn [bind].
    destruct (pack_vlc (end_ note)) as [e| |] eqn:Ee; try discriminate. cbn [bind].
    destruct (pack_B (special note)) as [sp| |] eqn:Esp; try discriminate.
    intros _. apply pack_B_inv in Ec as [Hc _]. apply pack_B_inv in Esp as [Hsp _].
    split; [eapply pack_vlc_inv; eassumption|]. intros _.
    split; [eapply pack_vlc_inv; eassumption|].
    split; [apply lor_128_range_inv|]; assumption.
Qed.

(** One iteration of the decoder's loop on the bytes of one note. *)
Lemma notes_for_pack_note (note : Note) (bs : bytes) :
  pack_note note = Ok bs ->
  forall (pre post : bytes) (count : nat) (acc : list Note),
    notes_for (pre ++ bs ++ post) (S count) acc (length pre)
    = notes_for (pre ++ bs ++ post) count (acc ++ [decoded_note note])
                (length pre + length bs)%nat.
Proof.
  intros H pre post count acc. unfold pack_note, decoded_note in *.
  destruct (is_step note).
  - pose proof (land_127_range (column note)) as Rc.
    rewrite pack_B_ok in H by lia. cbn [bind] in H.
    destruct (pack_vlc (start note)) as [s| |] eqn:Es; try discriminate.
    injection H as <-. cbn [notes_for app].
    unfold rbind at 1. rewrite unpack_B_at.
    rewrite u8_byte_of_Z, land_255_small by lia.
    rewrite land_128_low by assumption. cbn [Z.eqb negb].
    unfold rbind at 1.
    pose proof (unpack_vlc_pack _ _ (pre ++ [byte_of_Z (Z.land (column note) 127)]) post Es) as Hv.
    rewrite <- app_assoc, length_app in Hv. cbn [app length] in Hv.
    rewrite Nat.add_1_r in Hv. rewrite Hv.
    rewrite <- Z.land_assoc, Z.land_diag. cbn [length].
    f_equal. lia.
  - destruct (pack_B (Z.lor _ _)) as [ctrl| |] eqn:Ec; try discriminate.
    apply pack_B_inv in Ec as [Rc ->]. cbn [bind] in H.
    destruct (pack_vlc (start note)) as [s| |] eqn:Es; try discriminate. cbn [bind] in H.
    destruct (pack_vlc (end_ note)) as [e| |] eqn:Ee; try discriminate. cbn [bind] in H.
    destruct (pack_B (special note)) as [sp| |] eqn:Esp; try discriminate.
    apply pack_B_inv in Esp as [Rsp ->]. injection H as <-.
    cbn [notes_for app]. set (c := byte_of_Z (Z.lor (column note) 128)).
    set (sp := byte_of_Z (special note)).
    assert (u8 c = Z.lor (column note) 128) as Hc
      by (unfold c; rewrite u8_byte_of_Z; apply land_255_small; lia).
    assert (u8 sp = special note) as Hsp'
      by (unfold sp; rewrite u8_byte_of_Z; apply land_255_small; lia).
    clearbody c sp.
    unfold rbind at 1. rewrite unpack_B_at, Hc.
    rewrite land_lor_128_128. cbn [Z.eqb negb].
    unfold rbind at 1.
    pose proof (unpack_vlc_pack _ _ (pre ++ [c]) ((e ++ [sp]) ++ post) Es) as Hs.
    rewrite <- !app_assoc, length_app in Hs. cbn [app length] in Hs.
    rewrite Nat.add_1_r in Hs. rewrite <- !app_assoc. cbn [app]. rewrite Hs.
    unfold rbind at 1.
    pose proof (unpack_vlc_pack _ _ (pre ++ c :: s) ([sp] ++ post) Ee) as He.
    rewrite <- !app_assoc, length_app in He. cbn [app length] in He.
    rewrite <- Nat.add_succ_comm in He. rewrite He.
    unfold rbind at 1.
    pose proof (unpack_B_at (pre ++ c :: s ++ e) sp post) as Hsp.
    rewrite <- !app_assoc, !length_app in Hsp. cbn [app length] in Hsp.
    rewrite <- !app_assoc, !length_app in Hsp. cbn [app length] in Hsp.
    replace (S (length pre) + length s + length e)%nat
      with (length pre + S (length s + length e))%nat by lia.
    rewrite Hsp, Hsp', land_lor_128_127. cbn [length]. rewrite !length_app. cbn [length].
    f_equal. lia.
Qed.

Lemma mapM_cons_inv {A B} (f : A -> result B) (x : A) (l : list A) (ys : list B) :
  mapM f (x :: l) = Ok ys ->
  exists y ys', ys = y :: ys' /\ f x = Ok y /\ mapM f l = Ok ys'.
Proof.
  cbn [mapM]. destruct (f x) as [y| |]; try discriminate. cbn [bind].
  destruct (mapM f l) as [ys'| |]; try discriminate. cbn [bind].
  intros [= <-]. eauto.
Qed.

Lemma mapM_ok {A B} (f : A -> result B) (l : list A) :
  Forall (fun x => exists y, f x = Ok y) l -> exists ys, mapM f l = Ok ys.
Proof.
  induction 1 as [|x l [y Hy] _ [ys IH]]; cbn [mapM]; [eauto|].
  rewrite Hy, IH. cbn [bind]. eauto.
Qed.

Lemma mapM_ok_inv {A B} (f : A -> result B) (l : list A) (ys : list B) :
  mapM f l = Ok ys -> Forall (fun x => exists y, f x = Ok y) l.
Proof.
  revert ys. induction l as [|x l IH]; intros ys H; [constructor|].
  apply mapM_cons_inv in H as (y & ys' & -> & Hy & Hl).
  constructor; eauto.
Qed.

(** The decoder's loop on the bytes of a list of notes. *)
Lemma notes_for_mapM (notes : list Note) :
  forall (recs : list bytes), mapM pack_note notes = Ok recs ->
  forall (pre post : bytes) (acc : list Note),
    notes_for (pre ++ concat recs ++ post) (length notes) acc (length pre)
    = Ok (acc ++ map decoded_note notes, (length pre + length (concat recs))%nat).
Proof.
  induction notes as [|note notes IH]; intros recs H pre post acc.
  - injection H as <-. cbn. unfold ret. now rewrite app_nil_r, Nat.add_0_r.
  - apply mapM_cons_inv in H as (bs & recs' & -> & Hbs & Hrecs).
    cbn [concat length map]. rewrite <- app_assoc.
    rewrite (notes_for_pack_note _ _ Hbs).
    specialize (IH _ Hrecs (pre ++ bs) post (acc ++ [decoded_note note])).
    rewrite <- !app_assoc, length_app in IH. cbn [app] in IH.
    rewrite IH, length_app. f_equal. f_equal. lia.
Qed.

(** Decoding the bytes the encoder wrote. *)
Lemma read_notes_payload (notes : list Note) (data : bytes) :
  notes_payload notes = Ok data ->
  read_notes data 0%nat = Ok (map decoded_note notes, length data).
Proof.
  unfold notes_payload. rewrite pack_B_ok by lia. cbn [bind].
  destruct (pack_vlc _) as [count| |] eqn:Ec; try discriminate. cbn [bind].
  destruct (mapM pack_note notes) as [recs| |] eqn:Er; try discriminate. cbn [bind].
  intros [= <-]. change (byte_of_Z 0) with x00. cbn [app].
  unfold read_notes. unfold rbind at 1.
  pose proof (unpack_B_at [] x00 (count ++ concat recs)) as Hh.
  cbn [app length] in Hh. rewrite Hh.
  unfold rbind.
  pose proof (unpack_vlc_pack _ _ [x00] (concat recs) Ec) as Hc.
  cbn [app length] in Hc. rewrite Hc. rewrite Nat2Z.id.
  pose proof (notes_for_mapM _ _ Er (x00 :: count) [] []) as Hn.
  rewrite app_nil_r in Hn. cbn [app length] in Hn.
  change (1 + length count)%nat with (S (length count)). rewrite Hn.
  cbn [length]. now rewrite length_app.
Qed.

(** ** Text with a magic prefix *)

Lemma startswith_app (p s : string) : startswith (p ++ s) p = true.
Proof.
  induction p as [|c p IH]; [reflexivity|].
  cbn. now rewrite Ascii.eqb_refl, IH.
Qed.

Lemma drop_app (p s : string) : drop (String.length p) (p ++ s) = s.
Proof.
  induction p as [|c p IH]; [reflexivity|]. cbn. apply IH.
Qed.

Lemma Ok_inj {A} (a b : A) : Ok a = Ok b -> a = b.
Proof.
  now intros [= ->].
Qed.

(** Encoding then decoding a list of notes: whenever the encoder returns a
    text, the decoder returns the decoded form of every note, in order. *)
Lemma notes_roundtrip_decoded (notes : list Note) (text : string) :
  notes_to_clipboard_data notes = Ok text ->
  clipboard_data_to_notes text = Ok (map decoded_note notes).
Proof.
  unfold notes_to_clipboard_data.
  destruct (notes_payload notes) as [data| |] eqn:Ed; try discriminate. cbn [bind].
  destruct (base64_facts.a85_text_roundtrip data) as [Ha Hb]. rewrite Ha. cbn [bind].
  intros H. apply Ok_inj in H. subst text. unfold clipboard_data_to_notes.
  rewrite startswith_app, drop_app. cbn [negb]. rewrite Hb. cbn [bind].
  now rewrite (read_notes_payload _ _ Ed).
Qed.

(** The encoder returns a text exactly for lists of encodable notes. *)
Lemma notes_to_clipboard_data_ok (notes : list Note) :
  Forall encodable notes <-> exists text, notes_to_clipboard_data notes = Ok text.
Proof.
  unfold notes_to_clipboard_data, notes_payload. split.
  - intros H. rewrite pack_B_ok by lia. cbn [bind].
    destruct (pack_vlc_ok (Z.of_nat (length notes)) ltac:(lia)) as [count ->].
    cbn [bind]. destruct (mapM_ok pack_note notes) as [recs ->].
    { eapply Forall_impl; [|exact H]. apply pack_note_ok. }
    cbn [bind].
    destruct (base64_facts.a85_text_roundtrip (byte_of_Z 0 :: count ++ concat recs))
      as [Ha _].
    cbn [app]. rewrite Ha. cbn [bind]. eauto.
  - intros [text H]. rewrite pack_B_ok in H by lia. cbn [bind] in H.
    destruct (pack_vlc _) as [count| |]; try discriminate. cbn [bind] in H.
    destruct (mapM pack_note notes) as [recs| |] eqn:Er; try discriminate.
    apply mapM_ok_inv in Er. eapply Forall_impl; [|exact Er].
    intros note [bs Hbs]. eapply pack_note_inv; eassumption.
Qed.

(** ** The varint writer and the format of the specification *)

Lemma pack_vlc_loop_length (fuel : nat) :
  forall (v : Z) (bs : bytes), 0 <= v -> pack_vlc_loop fuel v = Ok bs ->
  length bs = varint_length v.
Proof.
  induction fuel as [|fuel IH]; intros v bs Hv H; [discriminate|].
  rewrite pack_vlc_loop_S in H. unfold varint_length.
  destruct (Z.eqb_spec (Z.shiftr v 7) 0) as [E|E].
  - injection H as <-. cbn [length]. f_equal.
    rewrite Z.shiftr_div_pow2 in E by lia. change (2 ^ 7) with 128 in E.
    assert (v < 128) by (Z.to_euclidean_division_equations; lia).
    assert (Z.log2 v < 7).
    { destruct (Z.eq_dec v 0) as [->|Hne]; [cbn; lia|].
      apply Z.log2_lt_pow2; lia. }
    pose proof (Z.log2_nonneg v).
    rewrite Z.div_small by lia. reflexivity.
  - destruct (pack_vlc_loop fuel (Z.shiftr v 7)) as [rest| |] eqn:Er; try discriminate.
    injection H as <-. cbn [length]. f_equal.
    pose proof (proj2 (Z.shiftr_nonneg v 7) Hv) as Hs.
    rewrite (IH _ _ Hs Er). unfold varint_length.
    assert (0 < Z.shiftr v 7) as Hpos by lia.
    assert (0 < v) as Hv' by (destruct (Z.eq_dec v 0) as [->|]; [now cbn in E|lia]).
    rewrite Z.log2_shiftr by lia.
    assert (7 <= Z.log2 v).
    { assert (0 <= Z.log2 (Z.shiftr v 7)) by apply Z.log2_nonneg.
      destruct (Z_lt_le_dec (Z.log2 v) 7) as [Hlt|]; [|assumption].
      exfalso. apply E. apply Z.shiftr_eq_0; lia. }
    rewrite Z.max_r by lia.
    replace (Z.log2 v) with ((Z.log2 v - 7) + 1 * 7) at 2 by lia.
    rewrite Z.div_add by lia.
    assert (0 <= (Z.log2 v - 7) / 7) by (apply Z.div_pos; lia).
    lia.
Qed.

Lemma nth_map_seq {A} (f : nat -> A) (n i : nat) (d : A) :
  (i < n)%nat -> nth i (map f (seq 0 n)) d = f i.
Proof.
  intros Hi. rewrite (nth_indep _ d (f 0%nat)) by now rewrite length_map, length_seq.
  now rewrite map_nth, seq_nth.
Qed.

(** On a non-negative value the writer produces the bytes of the format. *)
Lemma pack_vlc_varint (v : Z) : 0 <= v -> pack_vlc v = Ok (varint v).
Proof.
  intros Hv. destruct (pack_vlc_ok v Hv) as [bs E]. rewrite E. f_equal.
  pose proof (pack_vlc_loop_length _ _ _ Hv E) as Hlen.
  apply nth_ext with (d := x00) (d' := x00).
  - unfold varint. now rewrite length_map, length_seq.
  - intros i Hi. unfold varint.
    rewrite <- (byte_of_Z_u8 (nth i bs x00)).
    rewrite (pack_vlc_loop_layout _ _ _ E i Hi), Hlen.
    rewrite nth_map_seq by lia. reflexivity.
Qed.

(** ** Notes that survive the round trip *)

Lemma land_127_small (c : Z) : 0 <= c <= 127 -> Z.land c 127 = c.
Proof.
  intros R. rewrite land_127_mod. apply Z.mod_small. lia.
Qed.

Lemma is_step_true (note : Note) :
  is_step note = true <-> special note <= 0 /\ start note = end_ note.
Proof.
  unfold is_step. rewrite andb_true_iff, Z.leb_le, Z.eqb_eq. reflexivity.
Qed.

Lemma well_formed_encodable (note : Note) : well_formed note -> encodable note.
Proof.
  intros (Hs & He & Hc & Hsp). split; [assumption|].
  intros E. rewrite E in Hsp. repeat split; lia.
Qed.

Lemma decoded_note_well_formed (note : Note) :
  encodable note -> (decoded_note note = note <-> well_formed note).
Proof.
  intros [Hs Hl]. unfold decoded_note, well_formed.
  pose proof (land_127_range (column note)) as Rc.
  destruct note as [s e c sp]. cbn [start end_ column special] in *.
  destruct (is_step _) eqn:E.
  - apply is_step_true in E as [Hsp Heq]. cbn [start end_ special] in *. subst e.
    split.
    + intros [= Hc Hsp']. lia.
    + intros (_ & _ & Hc & ->). now rewrite land_127_small by assumption.
  - destruct (Hl eq_refl) as (He & Hc & Hsp). split.
    + intros [= Hc']. lia.
    + intros (_ & _ & Hc' & _). now rewrite land_127_small by assumption.
Qed.

Lemma map_id_Forall {A} (f : A -> A) (l : list A) :
  map f l = l <-> Forall (fun x => f x = x) l.
Proof.
  induction l as [|x l IH]; cbn [map].
  - split; [constructor|reflexivity].
  - split.
    + intros [= Hx Hl]. constructor; [assumption|now apply IH].
    + intros H. inversion H as [|? ? Hx Hl]; subst. rewrite Hx. f_equal. now apply IH.
Qed.

(** ** The layout of the note payload *)

Lemma pack_note_record (note : Note) (bs : bytes) :
  pack_note note = Ok bs ->
  bs = if is_step note then short_record note else long_record note.
Proof.
  intros H. pose proof (pack_note_inv _ _ H) as [Hs Hl]. revert H.
  unfold pack_note, short_record, long_record. destruct (is_step note).
  - pose proof (land_127_range (column note)).
    rewrite pack_B_ok, pack_vlc_varint by lia. cbn [bind app].
    now intros [= <-].
  - destruct (Hl eq_refl) as (He & Hc & Hsp).
    rewrite pack_B_ok by now apply lor_128_range.
    rewrite !pack_vlc_varint, pack_B_ok by assumption. cbn [bind app].
    now intros [= <-].
Qed.

Lemma mapM_pack_note_records (notes : list Note) (recs : list bytes) :
  mapM pack_note notes = Ok recs ->
  Forall2 (fun note rec =>
             rec = if is_step note then short_record note else long_record note)
          notes recs.
Proof.
  revert recs. induction notes as [|note notes IH]; intros recs H.
  - injection H as <-. constructor.
  - apply mapM_cons_inv in H as (bs & recs' & -> & Hbs & Hrecs).
    constructor; [now apply pack_note_record|now apply IH].
Qed.

Lemma notes_payload_layout (notes : list Note) :
  Forall encodable notes ->
  exists recs,
    notes_payload notes = Ok (x00 :: varint (Z.of_nat (length notes)) ++ concat recs) /\
    Forall2 (fun note rec =>
               rec = if is_step note then short_record note else long_record note)
            notes recs.
Proof.
  intros H. unfold notes_payload.
  rewrite pack_B_ok, pack_vlc_varint by lia. cbn [bind].
  destruct (mapM_ok pack_note notes) as [recs E].
  { eapply Forall_impl; [|exact H]. apply pack_note_ok. }
  rewrite E. cbn [bind]. exists recs. split; [reflexivity|].
  now apply mapM_pack_note_records.
Qed.

(** ** Fixed-width fields *)

Lemma pack_I_ok (x : Z) : 0 <= x <= 4294967295 -> pack_I x = Ok (le32 x).
Proof.
  intros R. unfold pack_I.
  replace ((0 <=? x) && (x <=? 4294967295)) with true
    by (symmetry; apply andb_true_iff; lia).
  rewrite !pack_B_ok by apply land_255_range.
  unfold le_byte, le32. cbn [bind app].
  rewrite !base64_facts.byte_of_Z_land, !Z.shiftr_div_pow2 by lia.
  change (2 ^ (8 * 0)) with 1. rewrite Z.div_1_r. reflexivity.
Qed.

Lemma pack_I_error (x : Z) : x < 0 \/ 4294967295 < x -> pack_I x = Raise StructError.
Proof.
  intros R. unfold pack_I.
  replace ((0 <=? x) && (x <=? 4294967295)) with false; [reflexivity|].
  symmetry. apply andb_false_iff. lia.
Qed.

Lemma le_uint_le32 (x : Z) : 0 <= x <= 4294967295 -> le_uint (le32 x) = x.
Proof.
  intros R. unfold le32. cbn [le_uint]. rewrite !u8_byte_of_Z, !land_255_mod.
  Z.to_euclidean_division_equations; lia.
Qed.

Lemma float_of_bytes_pack_d (v : float) : float_of_bytes (pack_d v) = v.
Proof.
  now destruct v.
Qed.

Lemma length_pack_d (v : float) : length (pack_d v) = 8%nat.
Proof.
  now destruct v.
Qed.

Lemma unpack_I_at (pre post : bytes) (x : Z) :
  0 <= x <= 4294967295 ->
  unpack_I (pre ++ le32 x ++ post) (length pre) = Ok (x, (length pre + 4)%nat).
Proof.
  intros R. unfold unpack_I, rbind.
  change 4%nat with (length (le32 x)) at 1. rewrite unpack_at.
  unfold ret. now rewrite le_uint_le32.
Qed.

Lemma unpack_d_at (pre post : bytes) (v : float) :
  unpack_d (pre ++ pack_d v ++ post) (length pre) = Ok (v, (length pre + 8)%nat).
Proof.
  unfold unpack_d, rbind.
  rewrite <- (length_pack_d v) at 1. rewrite unpack_at.
  unfold ret. now rewrite float_of_bytes_pack_d, length_pack_d.
Qed.

Lemma pack_tempo_item_ok (item : tempo_point) :
  u32_tick item -> pack_tempo_item item = Ok (tempo_entry item).
Proof.
  intros R. unfold pack_tempo_item. now rewrite pack_I_ok.
Qed.

Lemma pack_tempo_item_inv (item : tempo_point) (bs : bytes) :
  pack_tempo_item item = Ok bs -> u32_tick item.
Proof.
  unfold pack_tempo_item, u32_tick. intros H.
  destruct (Z_lt_le_dec (fst item) 0); [rewrite pack_I_error in H by lia; discriminate|].
  destruct (Z_lt_le_dec 4294967295 (fst item));
    [rewrite pack_I_error in H by lia; discriminate|].
  lia.
Qed.

Lemma length_tempo_entry (item : tempo_point) : length (tempo_entry item) = 12%nat.
Proof.
  unfold tempo_entry. rewrite length_app, length_pack_d. reflexivity.
Qed.

Lemma mapM_pack_tempo_item (items : list tempo_point) :
  Forall u32_tick items -> mapM pack_tempo_item items = Ok (map tempo_entry items).
Proof.
  induction 1 as [|item items H _ IH]; [reflexivity|].
  cbn [mapM map]. now rewrite pack_tempo_item_ok, IH.
Qed.

(** The block writer on a chunk that fits a block. *)
Lemma pack_tempo_block_ok (chunk : list tempo_point) (type : Z) :
  (length chunk <= 255)%nat -> 0 <= type <= 255 -> Forall u32_tick chunk ->
  pack_tempo_block chunk type = Ok (tempo_block type chunk).
Proof.
  intros Hl Ht Hc. unfold pack_tempo_block.
  rewrite !pack_B_ok by lia. cbn [bind].
  now rewrite mapM_pack_tempo_item.
Qed.

(** Reading the entries of a block. *)
Lemma tempo_for_entries (items : list tempo_point) :
  Forall u32_tick items ->
  forall (type : Z) (pre post : bytes) (bpms stops : list tempo_point),
    type = 0 \/ type = 1 ->
    tempo_for (pre ++ concat (map tempo_entry items) ++ post) (length items) type
              bpms stops (length pre)
    = Ok (if type =? 0 then (bpms ++ items, stops) else (bpms, stops ++ items),
          (length pre + length (concat (map tempo_entry items)))%nat).
Proof.
  induction 1 as [|item items Hi _ IH]; intros type pre post bpms stops Ht.
  - cbn. unfold ret. rewrite !app_nil_r, Nat.add_0_r. now destruct (type =? 0).
  - cbn [length map concat tempo_for].
    change (tempo_entry item) with (le32 (fst item) ++ pack_d (snd item)).
    rewrite <- !app_assoc. unfold rbind at 1. rewrite unpack_I_at by assumption.
    unfold rbind at 1.
    pose proof (unpack_d_at (pre ++ le32 (fst item))
                  (concat (map tempo_entry items) ++ post) (snd item)) as Hd.
    rewrite <- app_assoc, length_app in Hd. cbn [length le32] in Hd.
    rewrite Hd. rewrite <- surjective_pairing.
    pose proof (fun b s => IH type (pre ++ le32 (fst item) ++ pack_d (snd item)) post b s Ht)
      as IH'.
    rewrite <- !app_assoc in IH'. rewrite !length_app, length_pack_d in IH'.
    cbn [length le32] in IH'.
    replace (length pre + 4 + 8)%nat with (length pre + (4 + 8))%nat by lia.
    rewrite !length_app, length_pack_d. cbn [length le32].
    destruct Ht as [-> | ->]; cbn [Z.eqb Pos.eqb] in *; rewrite IH'.
    + rewrite <- app_assoc. cbn [app]. f_equal. f_equal. lia.
    + rewrite <- app_assoc. cbn [app]. f_equal. f_equal. lia.
Qed.

(** ** Reading the blocks of a tempo payload *)

Lemma length_tempo_block (type : Z) (chunk : list tempo_point) :
  length (tempo_block type chunk)
  = (2 + length (concat (map tempo_entry chunk)))%nat.
Proof.
  reflexivity.
Qed.

(** One iteration of the [while] loop on one block. *)
Lemma tempo_while_block (chunk : list tempo_point) (type : Z) (pre post : bytes)
      (fuel : nat) (bpms stops : list tempo_point) :
  (1 <= length chunk <= 255)%nat -> Forall u32_tick chunk ->
  type = 0 \/ type = 1 ->
  tempo_while (pre ++ tempo_block type chunk ++ post) (S fuel) bpms stops (length pre)
  = tempo_while (pre ++ tempo_block type chunk ++ post) fuel
      (if type =? 0 then bpms ++ chunk else bpms)
      (if type =? 0 then stops else stops ++ chunk)
      (length pre + length (tempo_block type chunk))%nat.
Proof.
  intros Hl Hc Ht. cbn [tempo_while]. unfold tempo_block. cbn [app length].
  unfold rbind at 1. rewrite unpack_B_at.
  rewrite u8_byte_of_Z, land_255_small by lia.
  destruct (Z.eqb_spec (Z.of_nat (length chunk)) 0) as [E|_]; [lia|].
  unfold rbind at 1.
  pose proof (unpack_B_at (pre ++ [byte_of_Z (Z.of_nat (length chunk))])
                (byte_of_Z type) (concat (map tempo_entry chunk) ++ post)) as Hb.
  rewrite <- app_assoc, length_app in Hb. cbn [app length] in Hb.
  rewrite Nat.add_1_r in Hb. rewrite Hb.
  rewrite u8_byte_of_Z, land_255_small by lia.
  unfold rbind at 1. rewrite Nat2Z.id.
  pose proof (tempo_for_entries chunk Hc type
                (pre ++ [byte_of_Z (Z.of_nat (length chunk)); byte_of_Z type])
                post bpms stops Ht) as Hf.
  rewrite <- app_assoc, length_app in Hf. cbn [app length] in Hf.
  replace (length pre + 2)%nat with (S (S (length pre))) in Hf by lia.
  rewrite Hf.
  replace (S (S (length pre)) + length (concat (map tempo_entry chunk)))%nat
    with (length pre + S (S (length (concat (map tempo_entry chunk)))))%nat by lia.
  destruct (type =? 0); reflexivity.
Qed.

(** As many iterations as there are blocks. *)
Lemma tempo_while_blocks (chunks : list (list tempo_point)) (type : Z) :
  Forall block_sized chunks -> type = 0 \/ type = 1 ->
  forall (pre post : bytes) (fuel : nat) (bpms stops : list tempo_point),
    tempo_while (pre ++ concat (map (tempo_block type) chunks) ++ post)
                (length chunks + fuel) bpms stops (length pre)
    = tempo_while (pre ++ concat (map (tempo_block type) chunks) ++ post) fuel
        (if type =? 0 then bpms ++ concat chunks else bpms)
        (if type =? 0 then stops else stops ++ concat chunks)
        (length pre + length (concat (map (tempo_block type) chunks)))%nat.
Proof.
  intros Hc Ht. induction Hc as [|chunk chunks [Hl Hu] _ IH];
    intros pre post fuel bpms stops.
  - cbn [length map concat app Nat.add]. rewrite !app_nil_r, Nat.add_0_r.
    now destruct (type =? 0).
  - cbn [length map concat Nat.add]. rewrite <- !app_assoc.
    rewrite tempo_while_block by assumption.
    specialize (IH (pre ++ tempo_block type chunk) post fuel).
    rewrite <- !app_assoc, length_app in IH. rewrite IH.
    rewrite !length_app, Nat.add_assoc.
    destruct (type =? 0); now rewrite <- !app_assoc.
Qed.

Lemma length_blocks_ge (chunks : list (list tempo_point)) (type : Z) :
  (length chunks <= length (concat (map (tempo_block type) chunks)))%nat.
Proof.
  induction chunks as [|chunk chunks IH]; [reflexivity|].
  cbn [map concat length]. rewrite length_app, length_tempo_block. lia.
Qed.

(** The whole payload: blocks of tempo points, blocks of stops, and the
    terminator. *)
Lemma read_tempo_blocks (cb cs : list (list tempo_point)) :
  Forall block_sized cb -> Forall block_sized cs ->
  let data := concat (map (tempo_block 0) cb) ++ concat (map (tempo_block 1) cs)
              ++ [x00] in
  read_tempo data 0%nat = Ok ((concat cb, concat cs), length data).
Proof.
  intros Hb Hs data. unfold read_tempo.
  pose proof (length_blocks_ge cb 0) as Lb. pose proof (length_blocks_ge cs 1) as Ls.
  set (b0 := concat (map (tempo_block 0) cb)) in *.
  set (b1 := concat (map (tempo_block 1) cs)) in *.
  assert (exists fuel, S (length data) = (length cb + (length cs + S fuel))%nat)
    as [fuel ->].
  { exists (length data - length cb - length cs)%nat. subst data.
    rewrite !length_app. cbn [length]. clearbody b0 b1. lia. }
  subst data b0 b1.
  pose proof (tempo_while_blocks cb 0 Hb (or_introl eq_refl) []
                (concat (map (tempo_block 1) cs) ++ [x00])) as H0.
  cbn [app length Z.eqb] in H0. rewrite H0. clear H0.
  pose proof (tempo_while_blocks cs 1 Hs (or_intror eq_refl)
                (concat (map (tempo_block 0) cb)) [x00] (S fuel)) as H1.
  cbn [Z.eqb Pos.eqb] in H1. change (0 + ?n)%nat with n. rewrite H1. clear H1.
  cbn [tempo_while]. unfold rbind.
  pose proof (unpack_B_at (concat (map (tempo_block 0) cb)
                           ++ concat (map (tempo_block 1) cs)) x00 []) as Ht.
  rewrite <- app_assoc, length_app in Ht. rewrite Ht.
  cbn [u8 Byte.to_N Z.of_N Z.eqb]. unfold ret.
  rewrite !length_app. cbn [length app].
  now rewrite Nat.add_1_r, Nat.add_succ_r.
Qed.

(** ** Cutting a list into chunks *)

Lemma range_step_chunks {A} (size : nat) (l : list A) :
  map (fun i => slice l i (i + size)) (range_step (length l) size)
  = map (fun k => firstn size (skipn (k * size) l))
        (seq 0 ((length l + size - 1) / size)).
Proof.
  unfold range_step, slice. rewrite map_map. apply map_ext. intros k.
  now replace (k * size + size - k * size)%nat with size by lia.
Qed.

Lemma ceil_div_bound (len size : nat) :
  (0 < size)%nat ->
  (len <= (len + size - 1) / size * size)%nat /\
  ((len + size - 1) / size * size < len + size)%nat.
Proof.
  intros Hs. pose proof (Nat.div_mod_eq (len + size - 1) size) as E.
  pose proof (Nat.mod_upper_bound (len + size - 1) size ltac:(lia)). nia.
Qed.

Lemma chunks_concat {A} (size : nat) (m : nat) :
  forall l : list A, (length l <= m * size)%nat ->
  concat (map (fun k => firstn size (skipn (k * size) l)) (seq 0 m)) = l.
Proof.
  induction m as [|m IH]; intros l Hl.
  - destruct l; [reflexivity|cbn in Hl; lia].
  - cbn [seq map concat]. rewrite <- seq_shift, map_map.
    cbn [Nat.mul skipn].
    rewrite (map_ext _ (fun k => firstn size (skipn (k * size) (skipn size l)))).
    + rewrite IH; [apply firstn_skipn|]. rewrite length_skipn. lia.
    + intros k. rewrite skipn_skipn. f_equal. f_equal. lia.
Qed.

Lemma chunks_chunking {A} (size : nat) (l : list A) :
  (0 < size)%nat ->
  chunking size l (map (fun i => slice l i (i + size)) (range_step (length l) size)).
Proof.
  intros Hs. rewrite range_step_chunks.
  destruct (ceil_div_bound (length l) size Hs) as [Hlo Hhi].
  set (m := ((length l + size - 1) / size)%nat) in *.
  split; [|split].
  - now apply chunks_concat.
  - apply Forall_forall. intros c Hc. apply in_map_iff in Hc as (k & <- & Hk).
    apply in_seq in Hk. rewrite length_firstn, length_skipn. nia.
  - intros i Hi. rewrite length_map, length_seq in Hi.
    rewrite (nth_indep _ [] (firstn size (skipn (0 * size) l)))
      by (rewrite length_map, length_seq; lia).
    rewrite (map_nth (fun k => firstn size (skipn (k * size) l))), seq_nth by lia.
    rewrite length_firstn, length_skipn. nia.
Qed.

(** ** Sorting by key *)

Section Sorting.

Context {A : Type} (key : A -> Z).

Lemma insert_sorted_Forall (P : A -> Prop) (x : A) (l : list A) :
  Forall P (insert_sorted key x l) <-> P x /\ Forall P l.
Proof.
  induction l as [|y l IH]; cbn [insert_sorted].
  - split; [intros H; inversion H; auto|intros [H _]; auto].
  - destruct (key x <=? key y).
    + split; [intros H; inversion H; auto|intros [H1 H2]; auto].
    + split.
      * intros H. inversion H as [|? ? Hy Hl]; subst.
        apply IH in Hl as [Hx Hl]. auto.
      * intros [Hx H]. inversion H as [|? ? Hy Hl]; subst.
        constructor; [assumption|]. apply IH. auto.
Qed.

Lemma insert_sorted_length (x : A) (l : list A) :
  length (insert_sorted key x l) = S (length l).
Proof.
  induction l as [|y l IH]; cbn [insert_sorted]; [reflexivity|].
  destruct (key x <=? key y); cbn [length]; [reflexivity|now rewrite IH].
Qed.

Lemma sorted_length (l : list A) : length (sorted key l) = length l.
Proof.
  induction l as [|x l IH]; [reflexivity|].
  cbn [sorted fold_right]. fold (sorted key l). now rewrite insert_sorted_length, IH.
Qed.

Lemma sorted_Forall (P : A -> Prop) (l : list A) :
  Forall P (sorted key l) <-> Forall P l.
Proof.
  induction l as [|x l IH]; [reflexivity|].
  cbn [sorted fold_right]. fold (sorted key l). rewrite insert_sorted_Forall, IH.
  split; [intros [H1 H2]; auto|intros H; inversion H; auto].
Qed.

Lemma insert_sorted_StronglySorted (x : A) (l : list A) :
  StronglySorted (le_key key) l -> StronglySorted (le_key key) (insert_sorted key x l).
Proof.
  induction 1 as [|y l Hl IH Hy]; cbn [insert_sorted].
  - repeat constructor.
  - destruct (Z.leb_spec (key x) (key y)) as [Hle|Hgt].
    + constructor; [constructor; assumption|].
      constructor; [assumption|].
      eapply Forall_impl; [|exact Hy]. unfold le_key. intros z Hz. lia.
    + constructor; [assumption|].
      apply insert_sorted_Forall. split; [unfold le_key; lia|assumption].
Qed.

Lemma insert_sorted_filter (k : Z) (x : A) (l : list A) :
  filter (fun y => key y =? k) (insert_sorted key x l)
  = if key x =? k then x :: filter (fun y => key y =? k) l
    else filter (fun y => key y =? k) l.
Proof.
  induction l as [|y l IH]; cbn [insert_sorted filter].
  - reflexivity.
  - destruct (Z.leb_spec (key x) (key y)) as [Hle|Hgt]; cbn [filter].
    + reflexivity.
    + rewrite IH.
      destruct (Z.eqb_spec (key x) k) as [Ex|Ex];
        destruct (Z.eqb_spec (key y) k) as [Ey|Ey]; try reflexivity.
      lia.
Qed.

(** [sorted] is a stable sort. *)
Lemma sorted_is_stable_sort (l : list A) : stable_sort_of key l (sorted key l).
Proof.
  split.
  - induction l as [|x l IH]; [constructor|].
    cbn [sorted fold_right]. now apply insert_sorted_StronglySorted.
  - intros k. induction l as [|x l IH]; [reflexivity|].
    cbn [sorted fold_right filter]. fold (sorted key l).
    rewrite insert_sorted_filter, IH. reflexivity.
Qed.

Lemma filter_head_in (k : Z) (x : A) (l l' : list A) :
  filter (fun y => key y =? k) l = x :: l' -> In x l /\ key x = k.
Proof.
  intros H. assert (In x (filter (fun y => key y =? k) l)) as Hin
    by (rewrite H; now left).
  apply filter_In in Hin as [Hin Hk]. split; [assumption|now apply Z.eqb_eq].
Qed.

(** A stable sort has only one possible result: two lists in ascending
    order that agree on the sub-list of every key are equal. *)
Lemma sorted_filters_unique (l1 : list A) :
  forall l2 : list A,
    StronglySorted (le_key key) l1 -> StronglySorted (le_key key) l2 ->
    (forall k, filter (fun y => key y =? k) l1 = filter (fun y => key y =? k) l2) ->
    l1 = l2.
Proof.
  induction l1 as [|x l1 IH]; intros l2 S1 S2 Hf.
  - destruct l2 as [|y l2]; [reflexivity|].
    specialize (Hf (key y)). cbn [filter] in Hf. rewrite Z.eqb_refl in Hf. discriminate.
  - destruct l2 as [|y l2].
    { specialize (Hf (key x)). cbn [filter] in Hf. rewrite Z.eqb_refl in Hf. discriminate. }
    inversion S1 as [|? ? S1' Hx]; subst. inversion S2 as [|? ? S2' Hy]; subst.
    assert (key x <= key y) as Hxy.
    { pose proof (Hf (key y)) as H. cbn [filter] in H. rewrite Z.eqb_refl in H.
      destruct (Z.eqb_spec (key x) (key y)) as [E|E]; [lia|].
      apply filter_head_in in H as [Hin _].
      rewrite Forall_forall in Hx. apply (Hx _ Hin). }
    assert (key y <= key x) as Hyx.
    { pose proof (Hf (key x)) as H. cbn [filter] in H. rewrite Z.eqb_refl in H.
      destruct (Z.eqb_spec (key y) (key x)) as [E|E]; [lia|].
      symmetry in H. apply filter_head_in in H as [Hin _].
      rewrite Forall_forall in Hy. apply (Hy _ Hin). }
    assert (x = y) as ->.
    { pose proof (Hf (key x)) as H. cbn [filter] in H. rewrite Z.eqb_refl in H.
      replace (key y =? key x) with true in H by (symmetry; apply Z.eqb_eq; lia).
      now injection H. }
    f_equal. apply IH; try assumption.
    intros k. specialize (Hf k). cbn [filter] in Hf.
    destruct (key y =? k); [now injection Hf|assumption].
Qed.

Lemma stable_sort_unique (l l1 l2 : list A) :
  stable_sort_of key l l1 -> stable_sort_of key l l2 -> l1 = l2.
Proof.
  intros [S1 F1] [S2 F2]. apply sorted_filters_unique; try assumption.
  intros k. now rewrite F1, F2.
Qed.

End Sorting.

(** ** The tempo payload *)

Lemma mapM_map {A B C} (f : B -> result C) (g : A -> B) (l : list A) :
  mapM f (map g l) = mapM (fun x => f (g x)) l.
Proof.
  induction l as [|x l IH]; [reflexivity|]. cbn [map mapM]. now rewrite IH.
Qed.

Lemma mapM_ext_ok {A B} (f : A -> result B) (g : A -> B) (l : list A) :
  Forall (fun x => f x = Ok (g x)) l -> mapM f l = Ok (map g l).
Proof.
  induction 1 as [|x l H _ IH]; [reflexivity|]. cbn [mapM map]. now rewrite H, IH.
Qed.

Lemma blocks_of_chunking (l : list tempo_point) : chunking 254 l (blocks_of l).
Proof.
  apply chunks_chunking. lia.
Qed.

Lemma blocks_of_block_sized (l : list tempo_point) :
  Forall u32_tick l -> Forall block_sized (blocks_of l).
Proof.
  intros Hl. destruct (blocks_of_chunking l) as (Hc & Hs & _).
  rewrite <- Hc in Hl. rewrite Forall_forall in *. intros c Hin. split.
  - specialize (Hs c Hin). lia.
  - apply Forall_forall. intros x Hx. apply Hl, in_concat. eauto.
Qed.

Lemma pack_tempo_block_inv (chunk : list tempo_point) (type : Z) (bs : bytes) :
  pack_tempo_block chunk type = Ok bs -> Forall u32_tick chunk.
Proof.
  unfold pack_tempo_block.
  destruct (pack_B (Z.of_nat _)); try discriminate. cbn [bind].
  destruct (pack_B type); try discriminate. cbn [bind].
  destruct (mapM pack_tempo_item chunk) as [items| |] eqn:E; try discriminate.
  intros _. apply mapM_ok_inv in E. eapply Forall_impl; [|exact E].
  intros item [y Hy]. eapply pack_tempo_item_inv; eassumption.
Qed.

Lemma mapM_blocks_ok (l : list tempo_point) (type : Z) :
  0 <= type <= 255 -> Forall u32_tick l ->
  mapM (fun i => pack_tempo_block (slice l i (i + 254)) type)
       (range_step (length l) 254)
  = Ok (map (tempo_block type) (blocks_of l)).
Proof.
  intros Ht Hl.
  rewrite <- (mapM_map (fun c => pack_tempo_block c type)
                (fun i => slice l i (i + 254))).
  fold (blocks_of l). apply mapM_ext_ok.
  eapply Forall_impl; [|apply blocks_of_block_sized; exact Hl].
  intros c [Hlen Hu]. apply pack_tempo_block_ok; [lia|assumption|assumption].
Qed.

Lemma mapM_blocks_inv (l : list tempo_point) (type : Z) (bs : list bytes) :
  mapM (fun i => pack_tempo_block (slice l i (i + 254)) type)
       (range_step (length l) 254) = Ok bs ->
  Forall u32_tick l.
Proof.
  rewrite <- (mapM_map (fun c => pack_tempo_block c type)
                (fun i => slice l i (i + 254))).
  fold (blocks_of l). intros H. apply mapM_ok_inv in H.
  destruct (blocks_of_chunking l) as (Hc & _). rewrite <- Hc.
  apply Forall_concat. eapply Forall_impl; [|exact H].
  intros c [y Hy]. eapply pack_tempo_block_inv; eassumption.
Qed.

(** The encoder accepts exactly the lists whose ticks fit in 32 bits, and
    then writes the blocks of the sorted lists and the terminator. *)
Lemma tempo_payload_ok (bpms stops : list tempo_point) :
  Forall u32_tick bpms -> Forall u32_tick stops ->
  tempo_payload bpms stops
  = Ok (concat (map (tempo_block 0) (blocks_of (sorted fst bpms)))
        ++ concat (map (tempo_block 1) (blocks_of (sorted fst stops)))
        ++ [x00]).
Proof.
  intros Hb Hs. unfold tempo_payload.
  rewrite !mapM_blocks_ok by (try lia; now apply sorted_Forall).
  cbn [bind]. rewrite pack_B_ok by lia. reflexivity.
Qed.

Lemma tempo_payload_inv (bpms stops : list tempo_point) (data : bytes) :
  tempo_payload bpms stops = Ok data ->
  Forall u32_tick bpms /\ Forall u32_tick stops.
Proof.
  unfold tempo_payload.
  destruct (mapM _ (range_step (length (sorted fst bpms)) 254)) as [bb| |] eqn:Eb;
    try discriminate. cbn [bind].
  destruct (mapM _ (range_step (length (sorted fst stops)) 254)) as [sb| |] eqn:Es;
    try discriminate. intros _.
  apply mapM_blocks_inv in Eb, Es. split; eapply sorted_Forall; eassumption.
Qed.

Lemma read_tempo_payload (bpms stops : list tempo_point) (data : bytes) :
  tempo_payload bpms stops = Ok data ->
  read_tempo data 0%nat = Ok ((sorted fst bpms, sorted fst stops), length data).
Proof.
  intros H. destruct (tempo_payload_inv _ _ _ H) as [Hb Hs].
  rewrite tempo_payload_ok in H by assumption. apply Ok_inj in H. subst data.
  pose proof (read_tempo_blocks (blocks_of (sorted fst bpms))
                (blocks_of (sorted fst stops))) as R.
  cbv zeta in R. rewrite R.
  - destruct (blocks_of_chunking (sorted fst bpms)) as (-> & _).
    destruct (blocks_of_chunking (sorted fst stops)) as (-> & _). reflexivity.
  - apply blocks_of_block_sized. now apply sorted_Forall.
  - apply blocks_of_block_sized. now apply sorted_Forall.
Qed.

(** Encoding then decoding tempo data. *)
Lemma tempo_roundtrip_sorted (bpms stops : list tempo_point) (text : string) :
  tempo_to_clipboard_data bpms stops = Ok text ->
  clipboard_data_to_tempo text = Ok (sorted fst bpms, sorted fst stops).
Proof.
  unfold tempo_to_clipboard_data.
  destruct (tempo_payload bpms stops) as [data| |] eqn:Ed; try discriminate.
  cbn [bind]. destruct (base64_facts.a85_text_roundtrip data) as [Ha Hb].
  rewrite Ha. cbn [bind]. intros H. apply Ok_inj in H. subst text.
  unfold clipboard_data_to_tempo. rewrite startswith_app, drop_app. cbn [negb].
  rewrite Hb. cbn [bind]. now rewrite (read_tempo_payload _ _ _ Ed).
Qed.

Lemma tempo_to_clipboard_data_ok (bpms stops : list tempo_point) :
  Forall u32_tick bpms /\ Forall u32_tick stops
  <-> exists text, tempo_to_clipboard_data bpms stops = Ok text.
Proof.
  unfold tempo_to_clipboard_data. split.
  - intros [Hb Hs]. rewrite tempo_payload_ok by assumption. cbn [bind].
    match goal with
    | |- context [base64.a85encode ?d] =>
        destruct (base64_facts.a85_text_roundtrip d) as [-> _]
    end.
    cbn [bind]. eauto.
  - intros [text H].
    destruct (tempo_payload bpms stops) as [data| |] eqn:Ed; try discriminate.
    eapply tempo_payload_inv; eassumption.
Qed.

(** ** Readers: every run ends *)

Lemma unpack_ends (data : bytes) (size offset : nat) :
  ends size data offset (unpack data size offset).
Proof.
  unfold unpack, ends. destruct (Nat.ltb_spec (length data) (offset + size)).
  - reflexivity.
  - split; [lia|right; lia].
Qed.

Lemma ret_ends {A} (data : bytes) (offset : nat) (a : A) :
  ends 0 data offset (ret a offset).
Proof.
  cbn. split; [lia|now left].
Qed.

Lemma rbind_ends {A B} (s1 s2 : nat) (data : bytes) (offset : nat)
      (m : reader A) (f : A -> reader B) :
  ends s1 data offset (m offset) ->
  (forall a offset', (offset + s1 <= offset')%nat ->
                     (offset' = offset \/ offset' <= length data)%nat ->
                     ends s2 data offset' (f a offset')) ->
  ends (s1 + s2) data offset (rbind m f offset).
Proof.
  unfold rbind. intros Hm Hf.
  destruct (m offset) as [[a o1]| |]; cbn in Hm; try assumption.
  destruct Hm as [H1 H1']. specialize (Hf a o1 H1 H1').
  destruct (f a o1) as [[b o2]| |]; cbn in *; try assumption.
  destruct Hf as [H2 H2']. split; [lia|]. destruct H2' as [->|H2']; [|now right].
  destruct H1' as [->|H1']; [left|right]; lia.
Qed.

Lemma ends_weaken {A} (s s' : nat) (data : bytes) (offset : nat)
      (r : result (A * nat)) :
  (s' <= s)%nat -> ends s data offset r -> ends s' data offset r.
Proof.
  intros Hs. destruct r as [[a o]| |]; cbn; try tauto. intros [H1 H2]. split; [lia|tauto].
Qed.

Lemma rbind_ends_le {A B} (s s1 s2 : nat) (data : bytes) (offset : nat)
      (m : reader A) (f : A -> reader B) :
  (s <= s1 + s2)%nat ->
  ends s1 data offset (m offset) ->
  (forall a offset', (offset + s1 <= offset')%nat ->
                     (offset' = offset \/ offset' <= length data)%nat ->
                     ends s2 data offset' (f a offset')) ->
  ends s data offset (rbind m f offset).
Proof.
  intros Hs Hm Hf. eapply ends_weaken; [exact Hs|]. now apply rbind_ends.
Qed.

Lemma unpack_B_ends (data : bytes) (offset : nat) :
  ends 1 data offset (unpack_B data offset).
Proof.
  unfold unpack_B. apply (rbind_ends_le _ 1 0); [lia|apply unpack_ends|].
  intros. apply ret_ends.
Qed.

Lemma unpack_I_ends (data : bytes) (offset : nat) :
  ends 4 data offset (unpack_I data offset).
Proof.
  unfold unpack_I. apply (rbind_ends_le _ 4 0); [lia|apply unpack_ends|].
  intros. apply ret_ends.
Qed.

Lemma unpack_d_ends (data : bytes) (offset : nat) :
  ends 8 data offset (unpack_d data offset).
Proof.
  unfold unpack_d. apply (rbind_ends_le _ 8 0); [lia|apply unpack_ends|].
  intros. apply ret_ends.
Qed.

(** The varint reader stops: with more fuel than bytes left, it cannot run
    out of fuel. *)
Lemma unpack_vlc_loop_ends (data : bytes) (fuel : nat) :
  forall (value k : Z) (offset : nat),
    (length data - offset < fuel)%nat ->
    ends 1 data offset (unpack_vlc_loop data fuel value k offset).
Proof.
  induction fuel as [|fuel IH]; intros value k offset Hf; [lia|].
  cbn [unpack_vlc_loop].
  apply (rbind_ends_le _ 1 0); [lia|apply unpack_B_ends|].
  intros byte o1 Ho1 Ho1'. destruct (Z.land byte 128 =? 0); [apply ret_ends|].
  eapply ends_weaken; [|apply IH]; lia.
Qed.

Lemma unpack_vlc_ends (data : bytes) (offset : nat) :
  ends 1 data offset (unpack_vlc data offset).
Proof.
  apply unpack_vlc_loop_ends. lia.
Qed.

Lemma notes_for_ends (data : bytes) (count : nat) :
  forall (notes : list Note) (offset : nat),
    ends 0 data offset (notes_for data count notes offset).
Proof.
  induction count as [|count IH]; intros notes offset; [apply ret_ends|].
  cbn [notes_for].
  apply (rbind_ends_le _ 1 0); [lia|apply unpack_B_ends|]. intros bits o1 _ _.
  destruct (negb _).
  - apply (rbind_ends_le _ 1 0); [lia|apply unpack_vlc_ends|]. intros s o2 _ _.
    apply (rbind_ends_le _ 1 0); [lia|apply unpack_vlc_ends|]. intros e o3 _ _.
    apply (rbind_ends_le _ 1 0); [lia|apply unpack_B_ends|]. intros sp o4 _ _. apply IH.
  - apply (rbind_ends_le _ 1 0); [lia|apply unpack_vlc_ends|]. intros s o2 _ _. apply IH.
Qed.

Lemma read_notes_ends (data : bytes) : ends 2 data 0 (read_notes data 0%nat).
Proof.
  unfold read_notes.
  apply (rbind_ends_le _ 1 1); [lia|apply unpack_B_ends|]. intros head o1 _ _.
  apply (rbind_ends_le _ 1 0); [lia|apply unpack_vlc_ends|]. intros count o2 _ _.
  apply notes_for_ends.
Qed.

Lemma tempo_for_ends (data : bytes) (count : nat) (type : Z) :
  forall (bpms stops : list tempo_point) (offset : nat),
    ends 0 data offset (tempo_for data count type bpms stops offset).
Proof.
  induction count as [|count IH]; intros bpms stops offset; [apply ret_ends|].
  cbn [tempo_for].
  apply (rbind_ends_le _ 4 0); [lia|apply unpack_I_ends|]. intros tick o1 _ _.
  apply (rbind_ends_le _ 8 0); [lia|apply unpack_d_ends|]. intros value o2 _ _.
  destruct (type =? 0); [apply IH|]. destruct (type =? 1); [apply IH|reflexivity].
Qed.

Lemma tempo_while_ends (data : bytes) (fuel : nat) :
  forall (bpms stops : list tempo_point) (offset : nat),
    (length data - offset < fuel)%nat ->
    ends 1 data offset (tempo_while data fuel bpms stops offset).
Proof.
  induction fuel as [|fuel IH]; intros bpms stops offset Hf; [lia|].
  cbn [tempo_while].
  apply (rbind_ends_le _ 1 0); [lia|apply unpack_B_ends|]. intros count o1 Ho1 Ho1'.
  destruct (count =? 0); [apply ret_ends|].
  apply (rbind_ends_le _ 1 0); [lia|apply unpack_B_ends|].
  intros type o2 Ho2 _.
  apply (rbind_ends_le _ 0 0); [lia|apply tempo_for_ends|]. intros [b s] o3 Ho3 _.
  eapply ends_weaken; [|apply IH]; lia.
Qed.

Lemma read_tempo_ends (data : bytes) : ends 1 data 0 (read_tempo data 0%nat).
Proof.
  apply tempo_while_ends. lia.
Qed.

(** ** Readers: dependence on the buffer *)

Lemma stable_ret {A} (a : A) : stable (fun _ => ret a).
Proof.
  intros data offset a' offset' [= <- <-]. repeat split; auto. intros k Hk. lia.
Qed.

Lemma stable_raise {A} (e : exn) : stable (fun _ => @raise A e).
Proof.
  intros data offset a offset' H. discriminate.
Qed.

Lemma stable_unpack (size : nat) : stable (fun data => unpack data size).
Proof.
  intros data offset a offset'. unfold unpack.
  destruct (Nat.ltb_spec (length data) (offset + size)) as [Hlt|Hge]; [discriminate|].
  intros [= <- <-]. split; [lia|]. split.
  - intros data' Hd.
    assert (offset + size <= length data')%nat as Hl.
    { apply (f_equal (@length _)) in Hd. rewrite !length_firstn in Hd. lia. }
    destruct (Nat.ltb_spec (length data') (offset + size)); [lia|].
    f_equal. f_equal. rewrite !firstn_skipn_comm. now rewrite Hd.
  - intros k Hk. rewrite length_firstn.
    destruct (Nat.ltb_spec (Nat.min k (length data)) (offset + size)); [reflexivity|lia].
Qed.

Lemma stable_bind {A B} (m : reading A) (f : A -> reading B) :
  stable m -> (forall a, stable (f a)) ->
  stable (fun data => rbind (m data) (fun a => f a data)).
Proof.
  intros Hm Hf data offset b o2. unfold rbind.
  destruct (m data offset) as [[a o1]| |] eqn:Em; try discriminate.
  intros Ef. destruct (Hm _ _ _ _ Em) as (Hle & Hext & Hcut).
  destruct (Hf a _ _ _ _ Ef) as (Hle' & Hext' & Hcut').
  split; [lia|]. split.
  - intros data' Hd. rewrite Hext; [now apply Hext'|].
    apply (f_equal (firstn o1)) in Hd. rewrite !firstn_firstn in Hd.
    now replace (Nat.min o1 o2) with o1 in Hd by lia.
  - intros k Hk. destruct (Nat.lt_ge_cases k o1) as [Hlt|Hge].
    + now rewrite Hcut by lia.
    + rewrite Hext; [apply Hcut'; lia|].
      rewrite firstn_firstn. now replace (Nat.min o1 k) with o1 by lia.
Qed.

Lemma stable_unpack_B : stable unpack_B.
Proof.
  apply (stable_bind (fun data => unpack data 1) (fun bs _ => ret (le_uint bs))).
  - apply stable_unpack.
  - intros bs. apply stable_ret.
Qed.

Lemma stable_unpack_I : stable unpack_I.
Proof.
  apply (stable_bind (fun data => unpack data 4) (fun bs _ => ret (le_uint bs))).
  - apply stable_unpack.
  - intros bs. apply stable_ret.
Qed.

Lemma stable_unpack_d : stable unpack_d.
Proof.
  apply (stable_bind (fun data => unpack data 8) (fun bs _ => ret (float_of_bytes bs))).
  - apply stable_unpack.
  - intros bs. apply stable_ret.
Qed.

Lemma stable_unpack_vlc_loop (fuel : nat) :
  forall value k : Z, stable (fun data => unpack_vlc_loop data fuel value k).
Proof.
  induction fuel as [|fuel IH]; intros value k.
  - intros data offset a offset' H. discriminate.
  - cbn [unpack_vlc_loop].
    apply (stable_bind unpack_B
             (fun byte data =>
                if Z.land byte 128 =? 0
                then ret (Z.lor value (Z.shiftl (Z.land byte 127) (7 * k)))
                else unpack_vlc_loop data fuel
                       (Z.lor value (Z.shiftl (Z.land byte 127) (7 * k))) (k + 1))).
    + apply stable_unpack_B.
    + intros byte. destruct (Z.land byte 128 =? 0); [apply stable_ret|apply IH].
Qed.

(** More fuel does not change the outcome of a loop that stopped. *)
Lemma unpack_vlc_loop_more (data : bytes) (fuel : nat) :
  forall (fuel' : nat) (value k : Z) (offset : nat),
    (fuel <= fuel')%nat ->
    unpack_vlc_loop data fuel value k offset <> Diverge ->
    unpack_vlc_loop data fuel' value k offset
    = unpack_vlc_loop data fuel value k offset.
Proof.
  induction fuel as [|fuel IH]; intros fuel' value k offset Hf Hd.
  - now contradiction Hd.
  - destruct fuel' as [|fuel']; [lia|]. cbn [unpack_vlc_loop] in *.
    unfold rbind in *. destruct (unpack_B data offset) as [[byte o1]| |]; try reflexivity.
    destruct (Z.land byte 128 =? 0); [reflexivity|]. apply IH; [lia|assumption].
Qed.

Lemma ends_not_Diverge {A} (s : nat) (data : bytes) (offset : nat)
      (r : result (A * nat)) :
  ends s data offset r -> r <> Diverge.
Proof.
  intros H ->. exact H.
Qed.

Lemma unpack_vlc_fuel (data : bytes) (fuel : nat) (offset : nat) :
  unpack_vlc_loop data fuel 0 0 offset <> Diverge ->
  unpack_vlc data offset = unpack_vlc_loop data fuel 0 0 offset.
Proof.
  intros H. unfold unpack_vlc.
  set (fuel0 := S (length data - offset)).
  assert (unpack_vlc_loop data fuel0 0 0 offset <> Diverge) as H0.
  { eapply ends_not_Diverge. apply unpack_vlc_loop_ends. unfold fuel0. lia. }
  rewrite <- (unpack_vlc_loop_more data fuel0 (Nat.max fuel0 fuel)) by (auto; lia).
  rewrite <- (unpack_vlc_loop_more data fuel (Nat.max fuel0 fuel)) by (auto; lia).
  reflexivity.
Qed.

Lemma stable_unpack_vlc : stable unpack_vlc.
Proof.
  intros data offset a offset' H.
  set (fuel := S (length data - offset)).
  change (unpack_vlc_loop data fuel 0 0 offset = Ok (a, offset')) in H.
  destruct (stable_unpack_vlc_loop fuel 0 0 _ _ _ _ H) as (Hle & Hext & Hcut).
  split; [assumption|]. split.
  - intros data' Hd. rewrite (unpack_vlc_fuel data' fuel); rewrite (Hext _ Hd);
      [reflexivity|discriminate].
  - intros k Hk. rewrite (unpack_vlc_fuel _ fuel); rewrite (Hcut _ Hk);
      [reflexivity|discriminate].
Qed.

Lemma stable_notes_for (count : nat) :
  forall notes : list Note, stable (fun data => notes_for data count notes).
Proof.
  induction count as [|count IH]; intros notes; [apply stable_ret|].
  cbn [notes_for].
  apply (stable_bind unpack_B
           (fun bits data =>
              if negb (Z.land bits 128 =? 0)
              then
                rbind (unpack_vlc data) (fun start =>
                rbind (unpack_vlc data) (fun end_ =>
                rbind (unpack_B data) (fun special =>
                notes_for data count
                  (notes ++ [mkNote start end_ (Z.land bits 127) special]))))
              else
                rbind (unpack_vlc data) (fun start =>
                notes_for data count
                  (notes ++ [mkNote start start (Z.land bits 127) (-1)])))).
  - apply stable_unpack_B.
  - intros bits. destruct (negb _).
    + apply (stable_bind unpack_vlc
               (fun start data =>
                  rbind (unpack_vlc data) (fun end_ =>
                  rbind (unpack_B data) (fun special =>
                  notes_for data count
                    (notes ++ [mkNote start end_ (Z.land bits 127) special])))));
        [apply stable_unpack_vlc|]. intros s.
      apply (stable_bind unpack_vlc
               (fun end_ data =>
                  rbind (unpack_B data) (fun special =>
                  notes_for data count
                    (notes ++ [mkNote s end_ (Z.land bits 127) special]))));
        [apply stable_unpack_vlc|]. intros e.
      apply (stable_bind unpack_B
               (fun special data =>
                  notes_for data count
                    (notes ++ [mkNote s e (Z.land bits 127) special])));
        [apply stable_unpack_B|]. intros sp. apply IH.
    + apply (stable_bind unpack_vlc
               (fun start data =>
                  notes_for data count
                    (notes ++ [mkNote start start (Z.land bits 127) (-1)])));
        [apply stable_unpack_vlc|]. intros s. apply IH.
Qed.

Lemma stable_read_notes : stable read_notes.
Proof.
  unfold read_notes.
  apply (stable_bind unpack_B
           (fun head data =>
              rbind (unpack_vlc data) (fun count =>
              notes_for data (Z.to_nat count) [])));
    [apply stable_unpack_B|]. intros head.
  apply (stable_bind unpack_vlc (fun count data => notes_for data (Z.to_nat count) []));
    [apply stable_unpack_vlc|]. intros count. apply stable_notes_for.
Qed.

Lemma stable_tempo_for (count : nat) (type : Z) :
  forall bpms stops : list tempo_point,
    stable (fun data => tempo_for data count type bpms stops).
Proof.
  induction count as [|count IH]; intros bpms stops; [apply stable_ret|].
  cbn [tempo_for].
  apply (stable_bind unpack_I
           (fun tick data =>
              rbind (unpack_d data) (fun value =>
              if type =? 0 then tempo_for data count type (bpms ++ [(tick, value)]) stops
              else if type =? 1
                   then tempo_for data count type bpms (stops ++ [(tick, value)])
                   else raise (ValueError None))));
    [apply stable_unpack_I|]. intros tick.
  apply (stable_bind unpack_d
           (fun value data =>
              if type =? 0 then tempo_for data count type (bpms ++ [(tick, value)]) stops
              else if type =? 1
                   then tempo_for data count type bpms (stops ++ [(tick, value)])
                   else raise (ValueError None)));
    [apply stable_unpack_d|]. intros value.
  destruct (type =? 0); [apply IH|]. destruct (type =? 1); [apply IH|apply stable_raise].
Qed.

Lemma stable_tempo_block (bpms stops : list tempo_point) (count : Z) :
  stable (fun data =>
            rbind (unpack_B data) (fun type =>
            tempo_for data (Z.to_nat count) type bpms stops)).
Proof.
  apply (stable_bind unpack_B
           (fun type data => tempo_for data (Z.to_nat count) type bpms stops));
    [apply stable_unpack_B|]. intros type. apply stable_tempo_for.
Qed.

Lemma stable_tempo_while (fuel : nat) :
  forall bpms stops : list tempo_point,
    stable (fun data => tempo_while data fuel bpms stops).
Proof.
  induction fuel as [|fuel IH]; intros bpms stops.
  - intros data offset a offset' H. discriminate.
  - cbn [tempo_while].
    apply (stable_bind unpack_B
             (fun count data =>
                if count =? 0 then ret (bpms, stops)
                else
                  rbind (unpack_B data) (fun type =>
                  rbind (tempo_for data (Z.to_nat count) type bpms stops)
                        (fun x => match x with
                                  | (bpms, stops) => tempo_while data fuel bpms stops
                                  end))));
      [apply stable_unpack_B|]. intros count.
    destruct (count =? 0); [apply stable_ret|].
    apply (stable_bind unpack_B
             (fun type data =>
                rbind (tempo_for data (Z.to_nat count) type bpms stops)
                      (fun x => match x with
                                | (bpms, stops) => tempo_while data fuel bpms stops
                                end)));
      [apply stable_unpack_B|]. intros type.
    apply (stable_bind (fun data => tempo_for data (Z.to_nat count) type bpms stops)
             (fun x data => match x with
                            | (bpms, stops) => tempo_while data fuel bpms stops
                            end));
      [apply stable_tempo_for|]. intros [b s]. apply IH.
Qed.

Lemma tempo_while_more (data : bytes) (fuel : nat) :
  forall (fuel' : nat) (bpms stops : list tempo_point) (offset : nat),
    (fuel <= fuel')%nat ->
    tempo_while data fuel bpms stops offset <> Diverge ->
    tempo_while data fuel' bpms stops offset
    = tempo_while data fuel bpms stops offset.
Proof.
  induction fuel as [|fuel IH]; intros fuel' bpms stops offset Hf Hd.
  - now contradiction Hd.
  - destruct fuel' as [|fuel']; [lia|]. cbn [tempo_while] in *.
    unfold rbind in *. destruct (unpack_B data offset) as [[count o1]| |]; try reflexivity.
    destruct (count =? 0); [reflexivity|].
    destruct (unpack_B data o1) as [[type o2]| |]; try reflexivity.
    destruct (tempo_for data (Z.to_nat count) type bpms stops o2) as [[[b s] o3]| |];
      try reflexivity.
    apply IH; [lia|assumption].
Qed.

Lemma read_tempo_fuel (data : bytes) (fuel : nat) :
  tempo_while data fuel [] [] 0%nat <> Diverge ->
  read_tempo data 0%nat = tempo_while data fuel [] [] 0%nat.
Proof.
  intros H. unfold read_tempo.
  set (fuel0 := S (length data)).
  assert (tempo_while data fuel0 [] [] 0%nat <> Diverge) as H0.
  { eapply ends_not_Diverge. apply tempo_while_ends. unfold fuel0. lia. }
  rewrite <- (tempo_while_more data fuel0 (Nat.max fuel0 fuel)) by (auto; lia).
  rewrite <- (tempo_while_more data fuel (Nat.max fuel0 fuel)) by (auto; lia).
  reflexivity.
Qed.

(** Cutting a buffer that decodes before the end of what the decoder read
    makes the decoder raise [ValueError()]. *)
Lemma read_tempo_truncated (data : bytes) (lists : tempo_lists) (used k : nat) :
  read_tempo data 0%nat = Ok (lists, used) -> (k < used)%nat ->
  read_tempo (firstn k data) 0%nat = Raise (ValueError None).
Proof.
  intros H Hk. unfold read_tempo in H.
  destruct (stable_tempo_while _ _ _ _ _ _ _ H) as (_ & _ & Hcut).
  rewrite (read_tempo_fuel _ (S (length data))); rewrite Hcut by lia;
    [reflexivity|discriminate].
Qed.

Lemma read_notes_truncated (data : bytes) (notes : list Note) (used k : nat) :
  read_notes data 0%nat = Ok (notes, used) -> (k < used)%nat ->
  read_notes (firstn k data) 0%nat = Raise (ValueError None).
Proof.
  intros H Hk. destruct (stable_read_notes _ _ _ _ H) as (_ & _ & Hcut).
  apply Hcut. lia.
Qed.

(** ** A varint that never ends *)

Lemma continuation_bit (c : byte) : continuation c -> Z.land (u8 c) 128 = 128.
Proof.
  unfold continuation. intros H. pose proof (u8_range c).
  replace (u8 c) with ((u8 c - 128) + 128) by lia. apply land_128_high. lia.
Qed.

Lemma unpack_vlc_loop_continuation (conts : bytes) :
  Forall continuation conts ->
  forall (pre : bytes) (fuel : nat) (value k : Z),
    (length conts < fuel)%nat ->
    unpack_vlc_loop (pre ++ conts) fuel value k (length pre) = Raise (ValueError None).
Proof.
  induction 1 as [|c conts Hc _ IH]; intros pre fuel value k Hf;
    (destruct fuel as [|fuel]; [cbn in Hf; lia|]); cbn [unpack_vlc_loop]; unfold rbind.
  - rewrite unpack_B_end; [reflexivity|]. rewrite app_nil_r. lia.
  - rewrite unpack_B_at, (continuation_bit c Hc). cbn [Z.eqb].
    specialize (IH (pre ++ [c]) fuel). rewrite <- app_assoc, length_app in IH.
    cbn [app length] in IH. rewrite Nat.add_1_r in IH. apply IH.
    cbn [length] in Hf. lia.
Qed.

Lemma read_notes_continuation (head : byte) (conts : bytes) :
  Forall continuation conts ->
  read_notes (head :: conts) 0%nat = Raise (ValueError None).
Proof.
  intros H. unfold read_notes, rbind.
  pose proof (unpack_B_at [] head conts) as Hh. cbn [app length] in Hh. rewrite Hh.
  unfold unpack_vlc.
  rewrite (unpack_vlc_loop_continuation conts H [head]); [reflexivity|].
  cbn [length]. lia.
Qed.

(** ** The errors of the text-safe wrapper *)

Lemma a85decode_loop_error (b : bytes) :
  forall (curr : list Z) (decoded : bytes),
    match base64.a85decode_loop b curr decoded with
    | Ok _ => True
    | Raise e => a85_error e
    | Diverge => False
    end.
Proof.
  induction b as [|x b IH]; intros curr decoded; cbn [base64.a85decode_loop].
  - exact I.
  - destruct ((33 <=? u8 x) && (u8 x <=? 117)).
    + destruct (Nat.eqb _ 5); [|apply IH].
      destruct (pack_I_be _); try apply IH;
        (eexists; split; [reflexivity|discriminate]).
    + destruct (u8 x =? 122).
      * destruct curr; [apply IH|]. eexists; split; [reflexivity|discriminate].
      * destruct (existsb _ _); [apply IH|].
        eexists; split; [reflexivity|]. cbn. discriminate.
Qed.

Lemma a85decode_error (s : string) :
  match base64.a85decode s with
  | Ok _ => True
  | Raise e => a85_error e
  | Diverge => False
  end.
Proof.
  unfold base64.a85decode, base64.bytes_from_decode_data.
  destruct (forallb _ _); cbn [bind].
  - unfold base64.a85decode_bytes, base64.a85decode_from.
    pose proof (a85decode_loop_error (list_byte_of_string s ++ repeat "u"%byte 4) [] [])
      as H.
    destruct (base64.a85decode_loop _ [] []) as [[curr r]| |]; cbn [bind]; try assumption.
    unfold base64.unpad. now destruct (Nat.eqb _ 0).
  - eexists; split; [reflexivity|discriminate].
Qed.

(** ** The magic prefix *)

Lemma startswith_spec (s p : string) :
  startswith s p = true <-> exists rest, s = (p ++ rest)%string.
Proof.
  split.
  - revert s. induction p as [|c p IH]; intros s H.
    + now exists s.
    + destruct s as [|d s]; [discriminate|]. cbn in H.
      apply andb_true_iff in H as [Hc Hs]. apply Ascii.eqb_eq in Hc. subst d.
      destruct (IH _ Hs) as [rest ->]. now exists rest.
  - intros [rest ->]. apply startswith_app.
Qed.

(** ** A block of unknown type *)

Lemma firstn_app_prefix {A} (pre x y : list A) (n : nat) :
  (n <= length pre)%nat -> firstn n (pre ++ x) = firstn n (pre ++ y).
Proof.
  intros H. rewrite !firstn_app.
  replace (n - length pre)%nat with 0%nat by lia. reflexivity.
Qed.

Lemma unpack_B_offset (data : bytes) (offset : nat) (c : Z) (offset' : nat) :
  unpack_B data offset = Ok (c, offset') -> offset' = S offset.
Proof.
  unfold unpack_B, rbind, unpack.
  destruct (Nat.ltb_spec (length data) (offset + 1)); [discriminate|].
  intros [= _ <-]. lia.
Qed.

Lemma tempo_while_progress (data : bytes) (fuel : nat)
      (bpms stops : list tempo_point) (offset : nat) (r : tempo_lists) (offset' : nat) :
  tempo_while data fuel bpms stops offset = Ok (r, offset') -> (offset < offset')%nat.
Proof.
  destruct fuel as [|fuel]; [discriminate|]. cbn [tempo_while]. unfold rbind at 1.
  pose proof (unpack_B_ends data offset) as Hb.
  destruct (unpack_B data offset) as [[count o1]| |]; try discriminate.
  destruct Hb as [Hb _]. destruct (count =? 0).
  - intros [= <- <-]. lia.
  - intros H.
    pose proof (stable_bind (fun data => rbind (unpack_B data) (fun type =>
                               tempo_for data (Z.to_nat count) type bpms stops))
                  (fun x data => match x with
                                 | (b, s) => tempo_while data fuel b s
                                 end)) as St.
    destruct (St (stable_tempo_block bpms stops count)
                 (fun x => match x with (b, s) => stable_tempo_while fuel b s end)
                 data o1 r offset') as (Hle & _).
    + unfold rbind in *. destruct (unpack_B data o1) as [[type o2]| |]; assumption.
    + lia.
Qed.

(** One entry of a block whose type is neither 0 nor 1: the loop raises
    [ValueError()], whether the entry is complete or not. *)
Lemma tempo_for_unknown_type (data : bytes) (count : nat) (type : Z)
      (bpms stops : list tempo_point) (offset : nat) :
  type <> 0 -> type <> 1 ->
  tempo_for data (S count) type bpms stops offset = Raise (ValueError None).
Proof.
  intros H0 H1. cbn [tempo_for]. unfold rbind.
  pose proof (unpack_I_ends data offset) as Hi.
  destruct (unpack_I data offset) as [[tick o1]| |]; cbn in Hi;
    [|now subst|contradiction].
  pose proof (unpack_d_ends data o1) as Hd.
  destruct (unpack_d data o1) as [[value o2]| |]; cbn in Hd;
    [|now subst|contradiction].
  destruct (Z.eqb_spec type 0); [contradiction|].
  destruct (Z.eqb_spec type 1); [contradiction|]. reflexivity.
Qed.

Lemma tempo_while_unknown_type (pre rest : bytes) (count type : byte) :
  u8 count <> 0 -> u8 type <> 0 -> u8 type <> 1 ->
  forall (fuel1 : nat) (bpms stops : list tempo_point) (offset : nat)
         (lists : tempo_lists) (fuel2 : nat),
    tempo_while (pre ++ [x00]) fuel1 bpms stops offset = Ok (lists, S (length pre)) ->
    (offset <= length pre)%nat ->
    (length (pre ++ count :: type :: rest) - offset < fuel2)%nat ->
    tempo_while (pre ++ count :: type :: rest) fuel2 bpms stops offset
    = Raise (ValueError None).
Proof.
  intros Hc Ht0 Ht1. induction fuel1 as [|fuel1 IH];
    intros bpms stops offset lists fuel2 H Ho Hf; [discriminate|].
  destruct fuel2 as [|fuel2]; [lia|].
  destruct (Nat.eq_dec offset (length pre)) as [->|Hne].
  - clear H IH. cbn [tempo_while]. unfold rbind at 1. rewrite unpack_B_at.
    destruct (Z.eqb_spec (u8 count) 0); [contradiction|].
    unfold rbind at 1.
    pose proof (unpack_B_at (pre ++ [count]) type rest) as Hty.
    rewrite <- app_assoc, length_app in Hty. cbn [app length] in Hty.
    rewrite Nat.add_1_r in Hty. rewrite Hty. unfold rbind at 1.
    pose proof (u8_range count).
    destruct (Z.to_nat (u8 count)) as [|cnt] eqn:En; [lia|].
    now rewrite tempo_for_unknown_type.
  - assert (offset < length pre)%nat as Hlt by lia.
    cbn [tempo_while] in H |- *. unfold rbind at 1 in H. unfold rbind at 1.
    destruct (unpack_B (pre ++ [x00]) offset) as [[c o1]| |] eqn:E1; try discriminate.
    destruct (stable_unpack_B _ _ _ _ E1) as (Hle1 & Hext1 & _).
    destruct (Z.eqb_spec c 0) as [->|Hc0].
    { injection H as _ H. apply unpack_B_offset in E1. lia. }
    unfold rbind at 1 in H.
    destruct (unpack_B (pre ++ [x00]) o1) as [[ty o2]| |] eqn:E2; try discriminate.
    destruct (stable_unpack_B _ _ _ _ E2) as (Hle2 & Hext2 & _).
    unfold rbind at 1 in H.
    destruct (tempo_for (pre ++ [x00]) (Z.to_nat c) ty bpms stops o2)
      as [[[b s] o3]| |] eqn:E3; try discriminate.
    destruct (stable_tempo_for _ _ _ _ _ _ _ _ E3) as (Hle3 & Hext3 & _).
    pose proof (tempo_while_progress _ _ _ _ _ _ _ H) as Hp.
    assert (o3 <= length pre)%nat as Ho3 by lia.
    rewrite (Hext1 (pre ++ count :: type :: rest))
      by (apply firstn_app_prefix; lia).
    destruct (Z.eqb_spec c 0); [contradiction|].
    unfold rbind at 1.
    rewrite (Hext2 (pre ++ count :: type :: rest))
      by (apply firstn_app_prefix; lia).
    unfold rbind at 1.
    rewrite (Hext3 (pre ++ count :: type :: rest))
      by (apply firstn_app_prefix; lia).
    pose proof (unpack_B_ends (pre ++ [x00]) offset) as He.
    rewrite E1 in He. cbn in He.
    apply (IH b s o3 lists fuel2 H Ho3). rewrite length_app in *. lia.
Qed.

(** A payload that holds complete blocks and then a block with a non-zero
    count and a type other than 0 and 1. *)
Lemma read_tempo_unknown_type (pre rest : bytes) (count type : byte)
      (lists : tempo_lists) :
  read_tempo (pre ++ [x00]) 0%nat = Ok (lists, S (length pre)) ->
  u8 count <> 0 -> u8 type <> 0 -> u8 type <> 1 ->
  read_tempo (pre ++ count :: type :: rest) 0%nat = Raise (ValueError None).
Proof.
  intros H Hc Ht0 Ht1. unfold read_tempo in *.
  eapply tempo_while_unknown_type; try eassumption; lia.
Qed.

(** ** The value of an entry on the wire *)

Lemma byte_split (a r : Z) :
  0 <= a <= 255 -> (a + 256 * r) mod 256 = a /\ (a + 256 * r) / 256 = r.
Proof.
  intros Ha. split.
  - symmetry. apply (Z.mod_unique _ 256 r); lia.
  - symmetry. apply (Z.div_unique _ 256 r a); lia.
Qed.

Lemma byte_of_Z_low (b : byte) (r : Z) : byte_of_Z (u8 b + 256 * r) = b.
Proof.
  apply base64_facts.byte_of_Z_eq. apply byte_split, u8_range.
Qed.

Lemma le64_bits_of_float (v : float) : le64 (bits_of_float v) = pack_d v.
Proof.
  destruct v as [b0 b1 b2 b3 b4 b5 b6 b7]. unfold le64, bits_of_float, pack_d.
  set (r7 := u8 b7). set (r6 := u8 b6 + 256 * r7). set (r5 := u8 b5 + 256 * r6).
  set (r4 := u8 b4 + 256 * r5). set (r3 := u8 b3 + 256 * r4).
  set (r2 := u8 b2 + 256 * r3). set (r1 := u8 b1 + 256 * r2).
  assert (forall b r, (u8 b + 256 * r) / 256 = r) as Hd
    by (intros b r; apply byte_split, u8_range).
  assert ((u8 b0 + 256 * r1) / 256 = r1) as E1 by apply Hd.
  assert ((u8 b0 + 256 * r1) / 65536 = r2) as E2.
  { change 65536 with (256 * 256). rewrite <- Z.div_div by lia.
    rewrite E1. apply Hd. }
  assert ((u8 b0 + 256 * r1) / 16777216 = r3) as E3.
  { change 16777216 with (65536 * 256). rewrite <- Z.div_div by lia.
    rewrite E2. apply Hd. }
  assert ((u8 b0 + 256 * r1) / 4294967296 = r4) as E4.
  { change 4294967296 with (16777216 * 256). rewrite <- Z.div_div by lia.
    rewrite E3. apply Hd. }
  assert ((u8 b0 + 256 * r1) / 1099511627776 = r5) as E5.
  { change 1099511627776 with (4294967296 * 256). rewrite <- Z.div_div by lia.
    rewrite E4. apply Hd. }
  assert ((u8 b0 + 256 * r1) / 281474976710656 = r6) as E6.
  { change 281474976710656 with (1099511627776 * 256).
    rewrite <- Z.div_div by lia. rewrite E5. apply Hd. }
  assert ((u8 b0 + 256 * r1) / 72057594037927936 = r7) as E7.
  { change 72057594037927936 with (281474976710656 * 256).
    rewrite <- Z.div_div by lia. rewrite E6. apply Hd. }
  rewrite E1, E2, E3, E4, E5, E6, E7.
  unfold r1, r2, r3, r4, r5, r6. rewrite !byte_of_Z_low.
  unfold r7. now rewrite byte_of_Z_u8.
Qed.

Lemma wire_entry_tempo_entry (item : tempo_point) :
  wire_entry item = tempo_entry item.
Proof.
  unfold wire_entry, tempo_entry. now rewrite le64_bits_of_float.
Qed.

Lemma wire_block_tempo_block (type : Z) (chunk : list tempo_point) :
  wire_block type chunk = tempo_block type chunk.
Proof.
  unfold wire_block, tempo_block. do 3 f_equal.
  apply map_ext. intros item. apply wire_entry_tempo_entry.
Qed.

Lemma length_wire_entry (item : tempo_point) : length (wire_entry item) = 12%nat.
Proof.
  reflexivity.
Qed.

Lemma tempo_payload_wire (bpms stops : list tempo_point) :
  Forall u32_tick bpms -> Forall u32_tick stops ->
  tempo_payload bpms stops
  = Ok (concat (map (wire_block 0) (blocks_of (sorted fst bpms)))
        ++ concat (map (wire_block 1) (blocks_of (sorted fst stops)))
        ++ [x00]).
Proof.
  intros Hb Hs. rewrite (tempo_payload_ok _ _ Hb Hs). do 2 f_equal.
  - f_equal. apply map_ext. intros c. symmetry. apply wire_block_tempo_block.
  - f_equal. f_equal. apply map_ext. intros c. symmetry.
    apply wire_block_tempo_block.
Qed.

(** ** The examples of the docstrings *)

Example tempo_to_clipboard_data_doctest :
  tempo_to_clipboard_data
    [(0, float_of_bits 0x405E000000000000); (48, float_of_bits 0x4066800000000000);
     (96, float_of_bits 0x406E000000000000)]
    [(24, float_of_bits 0x3FE0000000000000); (72, float_of_bits 0x4000000000000000)]
  = Ok ("ArrowVortex:tempo:!rr<$zz?9g1Ez!!!"
        ++ String (ascii_of_nat 34) "LAjB`(zzDEn7((]XO9z!!(qA8,rViz!!!!a!!")%string.
Proof.
  reflexivity.
Qed.

Example clipboard_data_to_tempo_doctest :
  clipboard_data_to_tempo
    ("ArrowVortex:tempo:!rr<$zz?9g1Ez!!!"
     ++ String (ascii_of_nat 34) "LAjB`(zzDEn7((]XO9z!!(qA8,rViz!!!!a!!")%string
  = Ok ([(0, float_of_bits 0x405E000000000000); (48, float_of_bits 0x4066800000000000);
         (96, float_of_bits 0x406E000000000000)],
        [(24, float_of_bits 0x3FE0000000000000); (72, float_of_bits 0x4000000000000000)]).
Proof.
  reflexivity.
Qed.

Example notes_to_clipboard_data_doctest :
  notes_to_clipboard_data [make_step 0 0; make_hold 0 24 3; make_roll 12 24 1]
  = Ok "ArrowVortex:notes:!!<3$K)c_gJIE@s"%string.
Proof.
  reflexivity.
Qed.

Example clipboard_data_to_notes_doctest :
  clipboard_data_to_notes "ArrowVortex:notes:!!<3$K)c_gJIE@s"
  = Ok [mkNote 0 0 0 (-1); mkNote 0 24 3 0; mkNote 12 24 1 2].
Proof.
  reflexivity.
Qed.

Example make_doctests :
  is_step (make_step 32 0) = true /\ is_mine (make_mine 16 2) = true /\
  is_lift (make_lift 8 0) = true /\ is_fake (make_fake 0 3) = true /\
  is_hold (make_hold 0 64 2) = true /\ is_roll (make_roll 8 16 0) = true.
Proof.
  repeat split.
Qed.

(** * The claims of the specification *)

(** C1, as amended: encoding a list of notes and decoding the result gives
    back the same list, same length, same order and same fields, exactly
    when every note has non-negative ticks, a column in [0, 127], and a
    [special] that is [-1] if the note is point-like with [special <= 0] and
    in [0, 255] otherwise. *)
Theorem notes_roundtrip_well_formed (n : list Note) :
  Forall well_formed n <-> notes_roundtrip n = Ok n.
Proof.
  unfold notes_roundtrip. split.
  - intros H.
    assert (Forall encodable n) as Henc
      by (eapply Forall_impl; [|exact H]; apply well_formed_encodable).
    destruct (proj1 (notes_to_clipboard_data_ok n) Henc) as [text E].
    rewrite E. cbn [bind]. rewrite (notes_roundtrip_decoded _ _ E). f_equal.
    apply map_id_Forall. rewrite Forall_forall in *. intros note Hin.
    apply decoded_note_well_formed; auto.
  - destruct (notes_to_clipboard_data n) as [text| |] eqn:E; try discriminate.
    cbn [bind]. rewrite (notes_roundtrip_decoded _ _ E).
    intros H. apply Ok_inj, map_id_Forall in H.
    assert (Forall encodable n) as Henc by (apply notes_to_clipboard_data_ok; eauto).
    rewrite Forall_forall in *. intros note Hin.
    apply decoded_note_well_formed; auto.
Qed.

Lemma notes_roundtrip_well_formed_witness :
  notes_roundtrip [make_step 0 0; make_hold 0 24 3; make_roll 12 24 1;
                   make_mine 16 127; make_lift 8 0; make_fake 0 3]
  = Ok [make_step 0 0; make_hold 0 24 3; make_roll 12 24 1;
        make_mine 16 127; make_lift 8 0; make_fake 0 3].
Proof.
  apply (proj1 (notes_roundtrip_well_formed _)).
  repeat constructor; cbn; lia.
Defined.

(** C1, as stated, fails: a point-like note with [special = 0], as
    [make_hold 5 5 0] builds it, is written in short form and comes back
    with [special = -1]. *)
Lemma notes_roundtrip_counterexample :
  notes_roundtrip [make_hold 5 5 0] = Ok [make_step 5 0] /\
  notes_roundtrip [make_hold 5 5 0] <> Ok [make_hold 5 5 0].
Proof.
  split; [reflexivity|].
  intros H. vm_compute in H. discriminate H.
Qed.

(** C2, as amended: for all lists of tempo points and stop points whose
    ticks lie in [0, 2^32), decoding the encoding returns the two lists
    sorted by tick in ascending order with a stable sort (entries with equal
    ticks keep their relative order), whatever the number of entries. *)
Theorem tempo_roundtrip_stable (b s : list tempo_point) :
  Forall u32_tick b -> Forall u32_tick s ->
  exists b' s',
    tempo_roundtrip b s = Ok (b', s') /\
    stable_sort_of fst b b' /\ stable_sort_of fst s s'.
Proof.
  intros Hb Hs. exists (sorted fst b), (sorted fst s).
  split; [|split; apply sorted_is_stable_sort].
  unfold tempo_roundtrip.
  destruct (proj1 (tempo_to_clipboard_data_ok b s) (conj Hb Hs)) as [text E].
  rewrite E. cbn [bind]. now apply tempo_roundtrip_sorted.
Qed.

Lemma tempo_roundtrip_stable_witness :
  exists b' s',
    tempo_roundtrip [(48, float_of_bits 0x4066800000000000);
                     (0, float_of_bits 0x405E000000000000);
                     (48, float_of_bits 0x406E000000000000)]
                    [(24, float_of_bits 0x3FE0000000000000)]
    = Ok (b', s') /\
    stable_sort_of fst [(48, float_of_bits 0x4066800000000000);
                        (0, float_of_bits 0x405E000000000000);
                        (48, float_of_bits 0x406E000000000000)] b' /\
    stable_sort_of fst [(24, float_of_bits 0x3FE0000000000000)] s'.
Proof.
  apply tempo_roundtrip_stable; repeat constructor; cbn; lia.
Defined.

(** C2, as stated, fails: a tick of 2^32 does not fit the 32-bit field and
    the encoder raises [struct.error]. *)
Lemma tempo_roundtrip_counterexample :
  tempo_roundtrip [(4294967296, float_of_bits 0x405E000000000000)] []
  = Raise StructError.
Proof.
  reflexivity.
Qed.

(** Counts on both sides of the 254-entry block boundary: the sizes of the
    blocks the encoder writes. *)
Example tempo_block_boundary :
  let points n := map (fun k => (Z.of_nat k, float_of_bits (Z.of_nat k))) (seq 0 n) in
  map (fun n => map (@length tempo_point) (blocks_of (points n)))
      [0; 1; 253; 254; 255; 508; 509]%nat
  = [[]; [1]; [253]; [254]; [254; 1]; [254; 254]; [254; 254; 1]]%nat.
Proof.
  vm_compute. reflexivity.
Qed.

(** C3, as amended: the note encoder writes the short form (a control byte
    holding the low seven bits of the column, top bit 0, then
    [varint(start)]) for exactly the notes that are point-like with
    [special <= 0], which includes the point-like notes with [special = 0]
    besides the plain steps; every other note is written in long form:
    [column | 0x80], [varint(start)], [varint(end)] and one byte holding
    [special]. *)
Theorem note_record_forms (notes : list Note) :
  Forall encodable notes ->
  exists recs,
    notes_payload notes
    = Ok (x00 :: varint (Z.of_nat (length notes)) ++ concat recs) /\
    Forall2 (fun note rec =>
               (special note <= 0 /\ start note = end_ note ->
                rec = short_record note) /\
               (~ (special note <= 0 /\ start note = end_ note) ->
                rec = long_record note))
            notes recs.
Proof.
  intros H. destruct (notes_payload_layout notes H) as (recs & Hp & Hr).
  exists recs. split; [assumption|].
  eapply Forall2_impl; [|exact Hr]. intros note rec ->.
  destruct (is_step note) eqn:E.
  - apply is_step_true in E. tauto.
  - split; [|reflexivity]. intros Hs. apply is_step_true in Hs. congruence.
Qed.

Lemma note_record_forms_witness :
  exists recs,
    notes_payload [make_step 0 0; make_hold 0 24 3; make_roll 12 24 1]
    = Ok (x00 :: x03 :: concat recs) /\
    Forall2 (fun note rec =>
               (special note <= 0 /\ start note = end_ note ->
                rec = short_record note) /\
               (~ (special note <= 0 /\ start note = end_ note) ->
                rec = long_record note))
            [make_step 0 0; make_hold 0 24 3; make_roll 12 24 1] recs.
Proof.
  apply (note_record_forms [make_step 0 0; make_hold 0 24 3; make_roll 12 24 1]).
  repeat constructor; cbn; try lia; discriminate.
Defined.

(** C3, as stated, fails: [make_hold 5 5 0] is point-like with
    [special = 0], not [-1], and yet it is written in short form. *)
Lemma note_record_forms_counterexample :
  ~ (start (make_hold 5 5 0) = end_ (make_hold 5 5 0)
     /\ special (make_hold 5 5 0) = -1) /\
  notes_payload [make_hold 5 5 0]
  = Ok (x00 :: varint 1 ++ short_record (make_hold 5 5 0)) /\
  notes_payload [make_hold 5 5 0]
  <> Ok (x00 :: varint 1 ++ long_record (make_hold 5 5 0)).
Proof.
  split; [|split].
  - cbn. intros [_ H]. discriminate H.
  - reflexivity.
  - intros H. vm_compute in H. discriminate H.
Qed.

(** C4: for every non-negative integer [n] the varint writer produces the
    bytes of the varint format (seven value bits per byte, least significant
    group first, bit 7 set on every byte but the last), and the varint
    reader, started on those bytes anywhere in a buffer, returns [n] and
    stops right after them. *)
Theorem varint_roundtrip (n : Z) (pre post : bytes) :
  0 <= n ->
  pack_vlc n = Ok (varint n) /\
  unpack_vlc (pre ++ varint n ++ post) (length pre)
  = Ok (n, (length pre + length (varint n))%nat).
Proof.
  intros Hn. split.
  - now apply pack_vlc_varint.
  - apply unpack_vlc_pack. now apply pack_vlc_varint.
Qed.

Lemma varint_roundtrip_witness :
  pack_vlc 16384 = Ok [x80; x80; x01] /\
  unpack_vlc [x80; x80; x01] 0%nat = Ok (16384, 3%nat).
Proof.
  exact (varint_roundtrip 16384 [] [] ltac:(lia)).
Defined.

(** The boundary values named by the specification. *)
Example varint_boundaries :
  map pack_vlc [0; 127; 128; 16383; 16384]
  = [Ok [x00]; Ok [x7f]; Ok [x80; x01]; Ok [xff; x7f]; Ok [x80; x80; x01]] /\
  map (fun bs => unpack_vlc bs 0%nat)
      [[x00]; [x7f]; [x80; x01]; [xff; x7f]; [x80; x80; x01]]
  = [Ok (0, 1%nat); Ok (127, 1%nat); Ok (128, 2%nat); Ok (16383, 2%nat);
     Ok (16384, 3%nat)].
Proof.
  split; reflexivity.
Qed.

(** C5: the encoder returns a text for all lists whose ticks fit in 32 bits,
    and whenever it returns one, the bytes under the text-safe wrapper are:
    one block, of type 0, for each chunk of at most 254 entries of the tempo
    list sorted by tick; then one block, of type 1, for each such chunk of
    the sorted stop list; then a single zero byte.  A block is its count (1
    to 254) in one byte, its type in one byte, and for each entry twelve
    bytes: the tick as an unsigned 32-bit number and the value as its
    64-bit pattern, both least significant byte first.  The layout is
    stated with [wire_block], which is written from the numbers and not
    with the packing functions of the code. *)
Theorem tempo_payload_layout (b s : list tempo_point) :
  (Forall u32_tick b -> Forall u32_tick s ->
   exists text, tempo_to_clipboard_data b s = Ok text) /\
  (forall text, tempo_to_clipboard_data b s = Ok text ->
   exists b' s' cb cs data,
     stable_sort_of fst b b' /\ stable_sort_of fst s s' /\
     chunking 254 b' cb /\ chunking 254 s' cs /\
     data = concat (map (wire_block 0) cb) ++ concat (map (wire_block 1) cs)
            ++ [x00] /\
     tempo_payload b s = Ok data /\
     text = (TEMPO_MAGIC ++ string_of_list_byte (base64.a85encode data))%string /\
     base64.a85decode (string_of_list_byte (base64.a85encode data)) = Ok data).
Proof.
  split.
  - intros Hb Hs. now apply tempo_to_clipboard_data_ok.
  - intros text H.
    destruct (proj2 (tempo_to_clipboard_data_ok b s) (ex_intro _ text H)) as [Hb Hs].
    unfold tempo_to_clipboard_data in H.
    pose proof (tempo_payload_wire b s Hb Hs) as Hp.
    rewrite Hp in H. cbn [bind] in H.
    match type of H with
    | context [base64.a85encode ?d] =>
        destruct (base64_facts.a85_text_roundtrip d) as [Ha Hd];
          exists (sorted fst b), (sorted fst s), (blocks_of (sorted fst b)),
                 (blocks_of (sorted fst s)), d
    end.
    rewrite Ha in H. cbn [bind] in H. apply Ok_inj in H.
    repeat split; try apply sorted_is_stable_sort; try apply blocks_of_chunking;
     try apply blocks_of_chunking; auto.
Qed.

Lemma tempo_payload_layout_witness :
  (exists text,
      tempo_to_clipboard_data
        [(96, float_of_bits 0x406E000000000000)]
        [(72, float_of_bits 0x4000000000000000); (24, float_of_bits 0x3FE0000000000000)]
      = Ok text) /\
  (exists b' s' cb cs data,
      stable_sort_of fst [(96, float_of_bits 0x406E000000000000)] b' /\
      stable_sort_of fst [(72, float_of_bits 0x4000000000000000);
                          (24, float_of_bits 0x3FE0000000000000)] s' /\
      chunking 254 b' cb /\ chunking 254 s' cs /\
      data = concat (map (wire_block 0) cb) ++ concat (map (wire_block 1) cs)
             ++ [x00] /\
      tempo_payload
        [(96, float_of_bits 0x406E000000000000)]
        [(72, float_of_bits 0x4000000000000000); (24, float_of_bits 0x3FE0000000000000)]
      = Ok data /\
      "ArrowVortex:tempo:!<?L-zzDEn7((]XO9z!!(qA8,rViz!!!!a!!"%string
      = (TEMPO_MAGIC ++ string_of_list_byte (base64.a85encode data))%string /\
      base64.a85decode (string_of_list_byte (base64.a85encode data)) = Ok data).
Proof.
  split.
  - apply (proj1 (tempo_payload_layout _ _)); repeat constructor; cbn; lia.
  - apply (proj2 (tempo_payload_layout
                    [(96, float_of_bits 0x406E000000000000)]
                    [(72, float_of_bits 0x4000000000000000);
                     (24, float_of_bits 0x3FE0000000000000)])).
    reflexivity.
Defined.

(** The bytes of that payload, one entry per line: the stops come out
    sorted, every entry takes twelve bytes, and the eight bytes of a value
    are those of its binary64 pattern ([0x406E000000000000] is 240.0,
    [0x3FE0000000000000] is 0.5, [0x4000000000000000] is 2.0), least
    significant first. *)
Example tempo_payload_bytes :
  tempo_payload
    [(96, float_of_bits 0x406E000000000000)]
    [(72, float_of_bits 0x4000000000000000); (24, float_of_bits 0x3FE0000000000000)]
  = Ok ([x01; x00]
        ++ [x60; x00; x00; x00; x00; x00; x00; x00; x00; x00; x6e; x40]
        ++ [x02; x01]
        ++ [x18; x00; x00; x00; x00; x00; x00; x00; x00; x00; xe0; x3f]
        ++ [x48; x00; x00; x00; x00; x00; x00; x00; x00; x00; x00; x40]
        ++ [x00]) /\
  wire_block 0 [(96, float_of_bits 0x406E000000000000)]
  = [x01; x00; x60; x00; x00; x00; x00; x00; x00; x00; x00; x00; x6e; x40] /\
  wire_entry (24, float_of_bits 0x3FE0000000000000)
  = [x18; x00; x00; x00; x00; x00; x00; x00; x00; x00; xe0; x3f].
Proof.
  repeat split.
Qed.

(** C6: when the bytes under the text-safe wrapper are a buffer that
    decodes, cut anywhere before the end of what the decoder reads of it,
    the tempo decoder and the note decoder raise the [ValueError()] of a
    read past the end of the buffer, and return nothing; and a varint made
    of continuation bytes only, up to the end of the buffer, makes the note
    decoder raise the same error instead of looping. *)
Theorem truncated_payload_fails :
  (forall (body : string) (data : bytes) (k : nat) (lists : tempo_lists) (used : nat),
      base64.a85decode body = Ok (firstn k data) ->
      read_tempo data 0%nat = Ok (lists, used) -> (k < used)%nat ->
      clipboard_data_to_tempo (TEMPO_MAGIC ++ body) = Raise (ValueError None)) /\
  (forall (body : string) (data : bytes) (k : nat) (notes : list Note) (used : nat),
      base64.a85decode body = Ok (firstn k data) ->
      read_notes data 0%nat = Ok (notes, used) -> (k < used)%nat ->
      clipboard_data_to_notes (NOTES_MAGIC ++ body) = Raise (ValueError None)) /\
  (forall (body : string) (head : byte) (conts : bytes),
      base64.a85decode body = Ok (head :: conts) -> Forall continuation conts ->
      clipboard_data_to_notes (NOTES_MAGIC ++ body) = Raise (ValueError None)).
Proof.
  split; [|split].
  - intros body data k lists used Hb Hr Hk. unfold clipboard_data_to_tempo.
    rewrite startswith_app, drop_app. cbn [negb]. rewrite Hb. cbn [bind].
    now rewrite (read_tempo_truncated _ _ _ _ Hr Hk).
  - intros body data k notes used Hb Hr Hk. unfold clipboard_data_to_notes.
    rewrite startswith_app, drop_app. cbn [negb]. rewrite Hb. cbn [bind].
    now rewrite (read_notes_truncated _ _ _ _ Hr Hk).
  - intros body head conts Hb Hc. unfold clipboard_data_to_notes.
    rewrite startswith_app, drop_app. cbn [negb]. rewrite Hb. cbn [bind].
    now rewrite (read_notes_continuation _ _ Hc).
Qed.

Lemma truncated_payload_fails_witness :
  clipboard_data_to_tempo
    (TEMPO_MAGIC ++ string_of_list_byte (base64.a85encode [x01; x00; x00; x00; x00]))
  = Raise (ValueError None).
Proof.
  apply (proj1 truncated_payload_fails _
           ([x01; x00; x00; x00; x00; x00] ++ pack_d (float_of_bits 0x405E000000000000)
            ++ [x00])
           5%nat
           ([(0, float_of_bits 0x405E000000000000)], []) 15%nat).
  - reflexivity.
  - reflexivity.
  - lia.
Defined.

(** C7: a text that does not start with the magic prefix of the decoder it
    is given to makes that decoder raise [ValueError('Invalid data')], the
    error of the magic check. *)
Theorem magic_mismatch (text : string) :
  (startswith text TEMPO_MAGIC = false ->
   clipboard_data_to_tempo text = Raise (ValueError (Some "Invalid data"%string))) /\
  (startswith text NOTES_MAGIC = false ->
   clipboard_data_to_notes text = Raise (ValueError (Some "Invalid data"%string))).
Proof.
  split; intros H.
  - unfold clipboard_data_to_tempo. now rewrite H.
  - unfold clipboard_data_to_notes. now rewrite H.
Qed.

Lemma magic_mismatch_witness :
  clipboard_data_to_tempo "ArrowVortex:notes:!!<3$K)c_gJIE@s"
  = Raise (ValueError (Some "Invalid data"%string)) /\
  clipboard_data_to_notes "ArrowVortex:tempo:!!"
  = Raise (ValueError (Some "Invalid data"%string)).
Proof.
  split.
  - apply (proj1 (magic_mismatch _)). reflexivity.
  - apply (proj2 (magic_mismatch _)). reflexivity.
Defined.

(** C8: when the bytes under the text-safe wrapper are complete blocks
    followed by a block with a non-zero count and a type byte other than 0
    and 1, the tempo decoder raises [ValueError()] and returns nothing. *)
Theorem unknown_block_type (body : string) (pre rest : bytes) (count type : byte)
        (lists : tempo_lists) :
  base64.a85decode body = Ok (pre ++ count :: type :: rest) ->
  read_tempo (pre ++ [x00]) 0%nat = Ok (lists, S (length pre)) ->
  u8 count <> 0 -> u8 type <> 0 -> u8 type <> 1 ->
  clipboard_data_to_tempo (TEMPO_MAGIC ++ body) = Raise (ValueError None).
Proof.
  intros Hb Hp Hc Ht0 Ht1. unfold clipboard_data_to_tempo.
  rewrite startswith_app, drop_app. cbn [negb]. rewrite Hb. cbn [bind].
  now rewrite (read_tempo_unknown_type _ _ _ _ _ Hp Hc Ht0 Ht1).
Qed.

Lemma unknown_block_type_witness :
  clipboard_data_to_tempo
    (TEMPO_MAGIC
     ++ string_of_list_byte
          (base64.a85encode
             (tempo_block 0 [(0, float_of_bits 0x405E000000000000)]
              ++ x01 :: x02 :: tempo_entry (48, float_of_bits 0x4066800000000000)
              ++ [x00])))
  = Raise (ValueError None).
Proof.
  apply (unknown_block_type _
           (tempo_block 0 [(0, float_of_bits 0x405E000000000000)])
           (tempo_entry (48, float_of_bits 0x4066800000000000) ++ [x00]) x01 x02
           ([(0, float_of_bits 0x405E000000000000)], [])).
  - reflexivity.
  - reflexivity.
  - discriminate.
  - discriminate.
  - discriminate.
Defined.

(** C9, as amended: each decoder either returns a complete result or raises
    one [ValueError], never anything else and never part of a result.  The
    error tells three cases apart: no magic prefix (message
    ['Invalid data']), a body the text-safe decoder rejects (its own
    message, never ['Invalid data']), and a well-wrapped buffer that the
    reader rejects, with [ValueError()] and no message, which is what both
    a read past the end and a block of unknown type raise. *)
Theorem decode_failures (text : string) :
  match clipboard_data_to_tempo text with
  | Ok _ => True
  | Raise e =>
      (startswith text TEMPO_MAGIC = false /\
       e = ValueError (Some "Invalid data"%string)) \/
      (startswith text TEMPO_MAGIC = true /\
       base64.a85decode (drop (String.length TEMPO_MAGIC) text) = Raise e /\
       a85_error e) \/
      (startswith text TEMPO_MAGIC = true /\
       (exists data,
           base64.a85decode (drop (String.length TEMPO_MAGIC) text) = Ok data /\
           read_tempo data 0%nat = Raise e) /\
       e = ValueError None)
  | Diverge => False
  end /\
  match clipboard_data_to_notes text with
  | Ok _ => True
  | Raise e =>
      (startswith text NOTES_MAGIC = false /\
       e = ValueError (Some "Invalid data"%string)) \/
      (startswith text NOTES_MAGIC = true /\
       base64.a85decode (drop (String.length NOTES_MAGIC) text) = Raise e /\
       a85_error e) \/
      (startswith text NOTES_MAGIC = true /\
       (exists data,
           base64.a85decode (drop (String.length NOTES_MAGIC) text) = Ok data /\
           read_notes data 0%nat = Raise e) /\
       e = ValueError None)
  | Diverge => False
  end.
Proof.
  split.
  - unfold clipboard_data_to_tempo.
    destruct (startswith text TEMPO_MAGIC); cbn [negb]; [|left; split; reflexivity].
    pose proof (a85decode_error (drop (String.length TEMPO_MAGIC) text)) as Ha.
    destruct (base64.a85decode _) as [data|e|]; cbn [bind]; [|right; left; auto|exact Ha].
    pose proof (read_tempo_ends data) as He.
    destruct (read_tempo data 0%nat) as [[lists used]|e|] eqn:Er; cbn [bind];
      cbn in He; [exact I| |exact He].
    right; right. subst e. repeat split. now exists data.
  - unfold clipboard_data_to_notes.
    destruct (startswith text NOTES_MAGIC); cbn [negb]; [|left; split; reflexivity].
    pose proof (a85decode_error (drop (String.length NOTES_MAGIC) text)) as Ha.
    destruct (base64.a85decode _) as [data|e|]; cbn [bind]; [|right; left; auto|exact Ha].
    pose proof (read_notes_ends data) as He.
    destruct (read_notes data 0%nat) as [[notes used]|e|] eqn:Er; cbn [bind];
      cbn in He; [exact I| |exact He].
    right; right. subst e. repeat split. now exists data.
Qed.

(** C9, as stated, fails: a payload cut in the middle of an entry and a
    payload with a block of type 2 make the tempo decoder raise the very
    same error, so nothing computed from the error can tell [Truncated]
    from [UnknownBlockType]. *)
Lemma decode_failures_counterexample :
  ~ exists classify : exn -> error_kind,
      (forall e,
          clipboard_data_to_tempo
            (TEMPO_MAGIC ++ string_of_list_byte (base64.a85encode [x01; x00; x00]))
          = Raise e -> classify e = Truncated) /\
      (forall e,
          clipboard_data_to_tempo
            (TEMPO_MAGIC
             ++ string_of_list_byte
                  (base64.a85encode
                     (x01 :: x02
                      :: tempo_entry (0, float_of_bits 0x405E000000000000) ++ [x00])))
          = Raise e -> classify e = UnknownBlockType).
Proof.
  intros (classify & Ht & Hu).
  specialize (Ht (ValueError None) eq_refl).
  specialize (Hu (ValueError None) eq_refl).
  congruence.
Qed.

(** C10: a plain step whose column is 128 or more is encoded without
    failure, with the column masked to its low seven bits: decoding gives
    the note back with its column taken modulo 128, which is not the
    original column. *)
Theorem step_column_masked (pre post : list Note) (note : Note) :
  Forall encodable pre -> Forall encodable post ->
  special note = -1 -> start note = end_ note -> 0 <= start note ->
  128 <= column note ->
  exists text,
    notes_to_clipboard_data (pre ++ note :: post) = Ok text /\
    clipboard_data_to_notes text
    = Ok (map decoded_note pre
          ++ mkNote (start note) (end_ note) (column note mod 128) (-1)
          :: map decoded_note post) /\
    column note mod 128 <> column note.
Proof.
  intros Hpre Hpost Hsp Heq Hs Hc.
  assert (is_step note = true) as Hstep by (apply is_step_true; lia).
  assert (encodable note) as Hn.
  { split; [assumption|]. rewrite Hstep. discriminate. }
  assert (Forall encodable (pre ++ note :: post)) as Hall.
  { apply Forall_app. split; [assumption|]. constructor; assumption. }
  destruct (proj1 (notes_to_clipboard_data_ok _) Hall) as [text E].
  exists text. split; [assumption|]. split.
  - rewrite (notes_roundtrip_decoded _ _ E), map_app. cbn [map].
    unfold decoded_note at 2. rewrite Hstep, land_127_mod, <- Heq. reflexivity.
  - pose proof (Z.mod_pos_bound (column note) 128). lia.
Qed.

Lemma step_column_masked_witness :
  exists text,
    notes_to_clipboard_data ([make_hold 0 24 3] ++ make_step 7 200 :: [make_mine 9 1])
    = Ok text /\
    clipboard_data_to_notes text
    = Ok (map decoded_note [make_hold 0 24 3]
          ++ mkNote 7 7 (200 mod 128) (-1) :: map decoded_note [make_mine 9 1]) /\
    200 mod 128 <> 200.
Proof.
  apply (step_column_masked [make_hold 0 24 3] [make_mine 9 1] (make_step 7 200)).
  - repeat constructor; cbn; lia.
  - repeat constructor; cbn; lia.
  - reflexivity.
  - reflexivity.
  - cbn. lia.
  - cbn. lia.
Defined.


(** * Further properties of the code *)

(** ** The kinds of a note *)

(** X1: the six kind predicates exclude one another: at most one of them
    holds of a note.  None holds exactly of the point-like notes whose
    [special] is 2 or at least 5. *)
Theorem note_kinds_exclusive (n : Note) :
  (length (filter (fun b : bool => b) (kinds n)) <= 1)%nat /\
  (filter (fun b : bool => b) (kinds n) = []
   <-> start n = end_ n /\ (special n = 2 \/ 5 <= special n)).
Proof.
  unfold kinds, is_step, is_mine, is_lift, is_fake, is_hold, is_roll.
  destruct n as [s e c sp]. cbn [start end_ special].
  destruct (Z.eqb_spec s e) as [Hse|Hse]; cbn [negb];
    rewrite ?andb_true_r, ?andb_false_r.
  - destruct (Z.leb_spec sp 0) as [H0|H0];
      destruct (Z.eqb_spec sp 1) as [H1|H1];
      destruct (Z.eqb_spec sp 3) as [H3|H3];
      destruct (Z.eqb_spec sp 4) as [H4|H4]; cbn [filter length];
      (split; [lia|split; [intros H; try discriminate H; split; lia
                          |intros [Ha Hb]; try reflexivity; exfalso; lia]]).
  - destruct (Z.eqb_spec sp 0) as [H0|H0]; cbn [negb filter length];
      (split; [lia|split; [intros H; discriminate H|intros [H _]; contradiction]]).
Qed.

(** X2: the note a factory builds is of the factory's kind and of no other,
    with one exception each for holds and rolls: [make_hold] with equal
    ticks builds a step, and [make_roll] with equal ticks builds a note of
    no kind. *)
Theorem factory_kinds (tick start end_ column : Z) :
  kinds (make_step tick column) = [true; false; false; false; false; false] /\
  kinds (make_mine tick column) = [false; true; false; false; false; false] /\
  kinds (make_lift tick column) = [false; false; true; false; false; false] /\
  kinds (make_fake tick column) = [false; false; false; true; false; false] /\
  kinds (make_hold start end_ column)
  = (if start =? end_ then [true; false; false; false; false; false]
     else [false; false; false; false; true; false]) /\
  kinds (make_roll start end_ column)
  = (if start =? end_ then [false; false; false; false; false; false]
     else [false; false; false; false; false; true]).
Proof.
  unfold kinds, is_step, is_mine, is_lift, is_fake, is_hold, is_roll,
    make_step, make_mine, make_lift, make_fake, make_hold, make_roll.
  cbn. rewrite !Z.eqb_refl.
  repeat split; destruct (start =? end_); reflexivity.
Qed.

(** ** The varint reader on arbitrary bytes *)

Lemma lor_shiftl_7 (a b : Z) :
  0 <= a < 128 -> Z.lor a (Z.shiftl b 7) = a + 128 * b.
Proof.
  intros Ha.
  assert (Z.land a (Z.shiftl b 7) = 0) as Hd.
  { apply Z.bits_inj'. intros i Hi. rewrite Z.land_spec, Z.bits_0.
    destruct (Z_lt_le_dec i 7) as [Hlt|Hge].
    - rewrite (Z.shiftl_spec_low b 7 i) by lia. apply andb_false_r.
    - replace (Z.testbit a i) with false; [reflexivity|].
      symmetry. destruct (Z.eq_dec a 0) as [->|Hne]; [apply Z.bits_0|].
      apply Z.bits_above_log2; [lia|].
      assert (Z.log2 a < 7) by (apply Z.log2_lt_pow2; lia). lia. }
  rewrite <- Z.lxor_lor by assumption.
  rewrite <- Z.add_nocarry_lxor by assumption.
  rewrite Z.shiftl_mul_pow2 by lia. change (2 ^ 7) with 128. lia.
Qed.

Lemma base128_nonneg (bs : bytes) : 0 <= base128 bs.
Proof.
  induction bs as [|b bs IH]; cbn [base128]; [lia|].
  pose proof (land_127_range (u8 b)). lia.
Qed.

Lemma base128_lor (b : byte) (bs : bytes) :
  base128 (b :: bs) = Z.lor (Z.land (u8 b) 127) (Z.shiftl (base128 bs) 7).
Proof.
  cbn [base128]. symmetry. apply lor_shiftl_7, land_127_range.
Qed.

Lemma unpack_vlc_loop_run (conts : bytes) :
  Forall continuation conts ->
  forall (last : byte) (pre post : bytes) (fuel : nat) (value k : Z),
    u8 last < 128 -> (length conts < fuel)%nat -> 0 <= k ->
    unpack_vlc_loop (pre ++ conts ++ last :: post) fuel value k (length pre)
    = Ok (Z.lor value (Z.shiftl (base128 (conts ++ [last])) (7 * k)),
          (length pre + length conts + 1)%nat).
Proof.
  induction 1 as [|c conts Hc _ IH]; intros last pre post fuel value k Hl Hf Hk;
    (destruct fuel as [|fuel]; [cbn in Hf; lia|]); cbn [unpack_vlc_loop app];
    unfold rbind.
  - rewrite unpack_B_at. pose proof (u8_range last).
    rewrite land_128_low by lia. cbn [Z.eqb]. unfold ret.
    cbn [base128 length]. rewrite Z.mul_0_r, Z.add_0_r.
    f_equal. f_equal. lia.
  - rewrite unpack_B_at, (continuation_bit c Hc). cbn [Z.eqb].
    specialize (IH last (pre ++ [c]) post fuel
                  (Z.lor value (Z.shiftl (Z.land (u8 c) 127) (7 * k))) (k + 1) Hl).
    rewrite <- app_assoc, length_app in IH. cbn [app length] in IH.
    rewrite Nat.add_1_r in IH. rewrite IH by (cbn [length] in Hf; lia).
    f_equal. f_equal.
    + rewrite <- Z.lor_assoc. f_equal.
      change ((c :: conts) ++ [last]) with (c :: (conts ++ [last])).
      rewrite base128_lor, Z.shiftl_lor.
      replace (7 * (k + 1)) with (7 + 7 * k) by lia.
      now rewrite Z.shiftl_shiftl by lia.
    + cbn [length]. lia.
Qed.

(** X3: wherever a buffer holds a run of bytes with bit 7 set followed by a
    byte with bit 7 clear, the varint reader returns the number these bytes
    stand for in base 128, least significant group first, and stops right
    after them.  The number is never negative, and the run need not be the
    shortest one for that number. *)
Theorem unpack_vlc_any_run (pre conts : bytes) (last : byte) (post : bytes) :
  Forall continuation conts -> u8 last < 128 ->
  unpack_vlc (pre ++ conts ++ last :: post) (length pre)
  = Ok (base128 (conts ++ [last]), (length pre + length conts + 1)%nat) /\
  0 <= base128 (conts ++ [last]).
Proof.
  intros Hc Hl. split; [|apply base128_nonneg].
  unfold unpack_vlc.
  rewrite (unpack_vlc_loop_run conts Hc last pre post _ 0 0 Hl).
  - now rewrite Z.lor_0_l, Z.shiftl_0_r.
  - rewrite !length_app. cbn [length]. lia.
  - lia.
Qed.

Lemma unpack_vlc_any_run_witness :
  unpack_vlc ([x07] ++ [x80; x80] ++ x00 :: [xff]) 1%nat = Ok (0, 4%nat) /\
  0 <= base128 ([x80; x80] ++ [x00]).
Proof.
  apply (unpack_vlc_any_run [x07] [x80; x80] x00 [xff]).
  - repeat constructor; unfold continuation; cbn; lia.
  - cbn. lia.
Defined.

(** ** The length of a varint *)

(** X4: for a non-negative value the varint writer produces the shortest
    encoding: [k] bytes, where [k] is the least positive number with
    [value < 128 ^ k]. *)
Theorem pack_vlc_length (value : Z) :
  0 <= value ->
  exists bs,
    pack_vlc value = Ok bs /\
    (0 < length bs)%nat /\
    value < 128 ^ Z.of_nat (length bs) /\
    ((1 < length bs)%nat -> 128 ^ (Z.of_nat (length bs) - 1) <= value).
Proof.
  intros Hv. exists (varint value). split; [now apply pack_vlc_varint|].
  unfold varint. rewrite length_map, length_seq. unfold varint_length.
  pose proof (Z.log2_nonneg value) as Hl.
  assert (0 <= Z.log2 value / 7) as Hq by (apply Z.div_pos; lia).
  split; [lia|]. rewrite Nat2Z.inj_succ, Z2Nat.id by assumption.
  change 128 with (2 ^ 7). rewrite <- !Z.pow_mul_r by lia.
  destruct (Z.eq_dec value 0) as [->|Hne].
  - cbn. split; [lia|intros H; lia].
  - pose proof (Z.log2_spec value ltac:(lia)) as [Hlo Hhi].
    pose proof (Z.div_mod (Z.log2 value) 7 ltac:(lia)) as Hdm.
    pose proof (Z.mod_pos_bound (Z.log2 value) 7 ltac:(lia)) as Hm.
    split.
    + eapply Z.lt_le_trans; [exact Hhi|]. apply Z.pow_le_mono_r; lia.
    + intros _. eapply Z.le_trans; [|exact Hlo]. apply Z.pow_le_mono_r; lia.
Qed.

Lemma pack_vlc_length_witness :
  exists bs,
    pack_vlc 16384 = Ok bs /\
    (0 < length bs)%nat /\
    16384 < 128 ^ Z.of_nat (length bs) /\
    ((1 < length bs)%nat -> 128 ^ (Z.of_nat (length bs) - 1) <= 16384).
Proof.
  apply (pack_vlc_length 16384). lia.
Defined.

(** ** What the note decoder can return *)

Lemma unpack_length (data : bytes) (size offset : nat) (bs : bytes) (offset' : nat) :
  unpack data size offset = Ok (bs, offset') ->
  length bs = size /\ offset' = (offset + size)%nat.
Proof.
  unfold unpack. destruct (Nat.ltb_spec (length data) (offset + size)); [discriminate|].
  intros [= <- <-]. split; [|reflexivity].
  rewrite length_firstn, length_skipn. lia.
Qed.

Lemma le_uint_range (bs : bytes) : 0 <= le_uint bs < 256 ^ Z.of_nat (length bs).
Proof.
  induction bs as [|b bs IH]; cbn [le_uint length]; [cbn; lia|].
  pose proof (u8_range b). rewrite Nat2Z.inj_succ, Z.pow_succ_r by lia. lia.
Qed.

Lemma unpack_B_range (data : bytes) (offset : nat) (c : Z) (offset' : nat) :
  unpack_B data offset = Ok (c, offset') -> 0 <= c <= 255.
Proof.
  unfold unpack_B, rbind.
  destruct (unpack data 1 offset) as [[bs o]| |] eqn:E; try discriminate.
  intros [= <- _]. apply unpack_length in E as [Hl _].
  pose proof (le_uint_range bs) as R. rewrite Hl in R.
  change (256 ^ Z.of_nat 1) with 256 in R. lia.
Qed.

Lemma unpack_I_range (data : bytes) (offset : nat) (x : Z) (offset' : nat) :
  unpack_I data offset = Ok (x, offset') -> 0 <= x <= 4294967295.
Proof.
  unfold unpack_I, rbind.
  destruct (unpack data 4 offset) as [[bs o]| |] eqn:E; try discriminate.
  intros [= <- _]. apply unpack_length in E as [Hl _].
  pose proof (le_uint_range bs) as R. rewrite Hl in R.
  change (256 ^ Z.of_nat 4) with 4294967296 in R. lia.
Qed.

Lemma unpack_vlc_loop_nonneg (data : bytes) (fuel : nat) :
  forall (value k : Z) (offset : nat) (v : Z) (offset' : nat),
    0 <= value -> 0 <= k ->
    unpack_vlc_loop data fuel value k offset = Ok (v, offset') -> 0 <= v.
Proof.
  induction fuel as [|fuel IH]; intros value k offset v offset' Hv Hk;
    [discriminate|].
  cbn [unpack_vlc_loop]. unfold rbind.
  destruct (unpack_B data offset) as [[byte o1]| |]; try discriminate.
  assert (0 <= Z.lor value (Z.shiftl (Z.land byte 127) (7 * k))) as Hn.
  { apply Z.lor_nonneg. split; [assumption|].
    apply Z.shiftl_nonneg. pose proof (land_127_range byte). lia. }
  destruct (Z.land byte 128 =? 0).
  - now intros [= <- _].
  - apply IH; [assumption|lia].
Qed.

Lemma unpack_vlc_nonneg (data : bytes) (offset : nat) (v : Z) (offset' : nat) :
  unpack_vlc data offset = Ok (v, offset') -> 0 <= v.
Proof.
  apply unpack_vlc_loop_nonneg; lia.
Qed.

Lemma notes_for_decodable (data : bytes) (count : nat) :
  forall (acc : list Note) (offset : nat) (notes : list Note) (offset' : nat),
    Forall decodable_note acc ->
    notes_for data count acc offset = Ok (notes, offset') ->
    Forall decodable_note notes /\ length notes = (length acc + count)%nat.
Proof.
  induction count as [|count IH]; intros acc offset notes offset' Hacc.
  - intros [= <- _]. split; [assumption|lia].
  - cbn [notes_for]. unfold rbind at 1.
    destruct (unpack_B data offset) as [[bits o1]| |]; try discriminate.
    pose proof (land_127_range bits) as Hcol.
    destruct (negb (Z.land bits 128 =? 0)).
    + unfold rbind at 1.
      destruct (unpack_vlc data o1) as [[s o2]| |] eqn:Es; try discriminate.
      unfold rbind at 1.
      destruct (unpack_vlc data o2) as [[e o3]| |] eqn:Ee; try discriminate.
      unfold rbind at 1.
      destruct (unpack_B data o3) as [[sp o4]| |] eqn:Esp; try discriminate.
      intros H. apply IH in H.
      * rewrite length_app in H. cbn [length] in H. split; [tauto|lia].
      * apply Forall_app. split; [assumption|]. constructor; [|constructor].
        unfold decodable_note. cbn [start end_ column special].
        apply unpack_vlc_nonneg in Es, Ee. apply unpack_B_range in Esp.
        repeat split; lia.
    + unfold rbind at 1.
      destruct (unpack_vlc data o1) as [[s o2]| |] eqn:Es; try discriminate.
      intros H. apply IH in H.
      * rewrite length_app in H. cbn [length] in H. split; [tauto|lia].
      * apply Forall_app. split; [assumption|]. constructor; [|constructor].
        unfold decodable_note. cbn [start end_ column special].
        apply unpack_vlc_nonneg in Es. repeat split; lia.
Qed.

Lemma read_notes_decodable (data : bytes) (notes : list Note) (used : nat) :
  read_notes data 0%nat = Ok (notes, used) -> Forall decodable_note notes.
Proof.
  unfold read_notes, rbind. intros E.
  destruct (unpack_B data 0%nat) as [[head o1]| |]; try discriminate.
  destruct (unpack_vlc data o1) as [[count o2]| |]; try discriminate.
  now apply notes_for_decodable in E as [H _].
Qed.

(** X5: whatever the text, every note the note decoder returns has
    non-negative ticks and a column in [0, 127], and is either a point with
    [special = -1] (read from a short record) or has [special] in [0, 255]
    (read from a long record). *)
Theorem note_decoder_range (text : string) (notes : list Note) :
  clipboard_data_to_notes text = Ok notes -> Forall decodable_note notes.
Proof.
  unfold clipboard_data_to_notes.
  destruct (negb (startswith text NOTES_MAGIC)); [discriminate|].
  destruct (base64.a85decode _) as [data| |]; try discriminate. cbn [bind].
  destruct (read_notes data 0%nat) as [[ns used]| |] eqn:E; try discriminate.
  cbn [bind]. intros [= <-]. eapply read_notes_decodable; eassumption.
Qed.

Lemma note_decoder_range_witness :
  Forall decodable_note [mkNote 0 0 0 (-1); mkNote 0 24 3 0; mkNote 12 24 1 2].
Proof.
  apply (note_decoder_range "ArrowVortex:notes:!!<3$K)c_gJIE@s"). reflexivity.
Defined.

(** X6: the note decoder returns exactly as many notes as the count field
    of the payload says: the varint read at position 1, after the header
    byte. *)
Theorem note_decoder_count (body : string) (notes : list Note) :
  clipboard_data_to_notes (NOTES_MAGIC ++ body) = Ok notes ->
  exists data count offset,
    base64.a85decode body = Ok data /\
    unpack_vlc data 1%nat = Ok (count, offset) /\
    count = Z.of_nat (length notes).
Proof.
  unfold clipboard_data_to_notes. rewrite startswith_app, drop_app. cbn [negb].
  destruct (base64.a85decode body) as [data| |]; try discriminate. cbn [bind].
  destruct (read_notes data 0%nat) as [[ns used]| |] eqn:E; try discriminate.
  cbn [bind]. intros [= <-]. unfold read_notes, rbind in E.
  destruct (unpack_B data 0%nat) as [[head o1]| |] eqn:Eh; try discriminate.
  apply unpack_B_offset in Eh. subst o1.
  destruct (unpack_vlc data 1%nat) as [[count o2]| |] eqn:Ec; try discriminate.
  exists data, count, o2. split; [reflexivity|]. split; [exact Ec|].
  apply unpack_vlc_nonneg in Ec.
  apply notes_for_decodable in E as [_ Hl]; [|constructor].
  cbn [length] in Hl. lia.
Qed.

Lemma note_decoder_count_witness :
  exists data count offset,
    base64.a85decode "!!<3$K)c_gJIE@s" = Ok data /\
    unpack_vlc data 1%nat = Ok (count, offset) /\
    count = Z.of_nat (length [mkNote 0 0 0 (-1); mkNote 0 24 3 0; mkNote 12 24 1 2]).
Proof.
  apply (note_decoder_count "!!<3$K)c_gJIE@s"). reflexivity.
Defined.

(** ** Encoding what the decoders return *)

Lemma decodable_note_encodable (n : Note) : decodable_note n -> encodable n.
Proof.
  intros (Hs & He & Hc & Hsp). split; [assumption|]. intros Hstep.
  repeat split; try lia; destruct Hsp as [[Hsp Heq]|Hsp]; try lia;
    (assert (is_step n = true) by (apply is_step_true; lia); congruence).
Qed.

Lemma decoded_note_is_well_formed (n : Note) :
  encodable n -> well_formed (decoded_note n).
Proof.
  intros [Hs Hl]. unfold decoded_note, well_formed.
  pose proof (land_127_range (column n)) as Hc.
  destruct (is_step n) eqn:E.
  - cbn [start end_ column special]. unfold is_step. cbn [start end_ special].
    rewrite Z.eqb_refl. cbn. repeat split; lia.
  - destruct (Hl eq_refl) as (He & _ & Hsp).
    replace (is_step _) with (is_step n) by reflexivity.
    rewrite E. cbn [start end_ column special]. repeat split; lia.
Qed.

(** X7: the round trip through the note codec normalises: for a list of
    notes the encoder accepts, it returns the decoded form of every note,
    all of which are well formed, and a second round trip changes nothing
    more. *)
Theorem notes_roundtrip_normalises (n : list Note) :
  Forall encodable n ->
  notes_roundtrip n = Ok (map decoded_note n) /\
  Forall well_formed (map decoded_note n) /\
  notes_roundtrip (map decoded_note n) = Ok (map decoded_note n).
Proof.
  intros H.
  assert (Forall well_formed (map decoded_note n)) as Hwf.
  { apply Forall_map. eapply Forall_impl; [|exact H].
    apply decoded_note_is_well_formed. }
  assert (forall l, Forall encodable l -> notes_roundtrip l = Ok (map decoded_note l))
    as Hrt.
  { intros l Hl. unfold notes_roundtrip.
    destruct (proj1 (notes_to_clipboard_data_ok l) Hl) as [text E].
    rewrite E. cbn [bind]. now apply notes_roundtrip_decoded. }
  split; [now apply Hrt|]. split; [assumption|].
  assert (Forall encodable (map decoded_note n)) as Henc
    by (eapply Forall_impl; [|exact Hwf]; apply well_formed_encodable).
  rewrite (Hrt _ Henc). f_equal. apply map_id_Forall.
  rewrite Forall_forall in *. intros note Hin.
  apply decoded_note_well_formed; auto.
Qed.

Lemma notes_roundtrip_normalises_witness :
  notes_roundtrip [make_hold 5 5 200; make_roll 1 2 3]
  = Ok (map decoded_note [make_hold 5 5 200; make_roll 1 2 3]) /\
  Forall well_formed (map decoded_note [make_hold 5 5 200; make_roll 1 2 3]) /\
  notes_roundtrip (map decoded_note [make_hold 5 5 200; make_roll 1 2 3])
  = Ok (map decoded_note [make_hold 5 5 200; make_roll 1 2 3]).
Proof.
  apply notes_roundtrip_normalises.
  repeat constructor; cbn; try lia; discriminate.
Defined.

(** X8: the note encoder accepts every list the note decoder returns,
    whatever text it was decoded from, and decoding the new text gives the
    normalised list. *)
Theorem note_decoder_output_encodable (text : string) (notes : list Note) :
  clipboard_data_to_notes text = Ok notes ->
  exists text',
    notes_to_clipboard_data notes = Ok text' /\
    clipboard_data_to_notes text' = Ok (map decoded_note notes).
Proof.
  intros H.
  assert (Forall decodable_note notes) as Hd.
  { unfold clipboard_data_to_notes in H.
    destruct (negb (startswith text NOTES_MAGIC)); [discriminate|].
    destruct (base64.a85decode _) as [data| |]; try discriminate. cbn [bind] in H.
    destruct (read_notes data 0%nat) as [[ns used]| |] eqn:E; try discriminate.
    cbn [bind] in H. apply Ok_inj in H. subst ns.
    eapply read_notes_decodable; eassumption. }
  clear H. rename Hd into H.
  assert (Forall encodable notes) as Henc
    by (eapply Forall_impl; [|exact H]; apply decodable_note_encodable).
  destruct (proj1 (notes_to_clipboard_data_ok notes) Henc) as [text' E].
  exists text'. split; [assumption|]. now apply notes_roundtrip_decoded.
Qed.

Lemma note_decoder_output_encodable_witness :
  exists text',
    notes_to_clipboard_data [mkNote 0 0 0 (-1); mkNote 0 24 3 0; mkNote 12 24 1 2]
    = Ok text' /\
    clipboard_data_to_notes text'
    = Ok (map decoded_note [mkNote 0 0 0 (-1); mkNote 0 24 3 0; mkNote 12 24 1 2]).
Proof.
  apply (note_decoder_output_encodable "ArrowVortex:notes:!!<3$K)c_gJIE@s").
  reflexivity.
Defined.

(** ** The tempo decoder on any sequence of blocks *)

Lemma tempo_while_typed_blocks (blocks : list typed_block) :
  Forall readable_block blocks ->
  forall (pre post : bytes) (fuel : nat) (bpms stops : list tempo_point),
    tempo_while (pre ++ blocks_bytes blocks ++ post) (length blocks + fuel)
                bpms stops (length pre)
    = tempo_while (pre ++ blocks_bytes blocks ++ post) fuel
        (bpms ++ entries_of_type 0 blocks) (stops ++ entries_of_type 1 blocks)
        (length pre + length (blocks_bytes blocks))%nat.
Proof.
  induction 1 as [|[type chunk] blocks [Ht [Hl Hu]] _ IH];
    intros pre post fuel bpms stops.
  - cbn. now rewrite !app_nil_r, Nat.add_0_r.
  - cbn [fst snd] in *. unfold blocks_bytes in *.
    cbn [length map concat Nat.add fst snd]. rewrite <- !app_assoc.
    rewrite tempo_while_block by assumption.
    specialize (IH (pre ++ tempo_block type chunk) post fuel).
    rewrite <- !app_assoc, length_app in IH. rewrite IH.
    rewrite !length_app, Nat.add_assoc. unfold entries_of_type.
    cbn [filter fst]. destruct Ht as [-> | ->]; cbn [Z.eqb Pos.eqb map concat snd];
      now rewrite <- ?app_assoc.
Qed.

Lemma length_blocks_bytes_ge (blocks : list typed_block) :
  (length blocks <= length (blocks_bytes blocks))%nat.
Proof.
  unfold blocks_bytes. induction blocks as [|b blocks IH]; [reflexivity|].
  cbn [map concat length]. rewrite length_app, length_tempo_block. lia.
Qed.

Lemma read_tempo_typed_blocks (blocks : list typed_block) (extra : bytes) :
  Forall readable_block blocks ->
  read_tempo (blocks_bytes blocks ++ x00 :: extra) 0%nat
  = Ok ((entries_of_type 0 blocks, entries_of_type 1 blocks),
        S (length (blocks_bytes blocks))).
Proof.
  intros H. unfold read_tempo.
  pose proof (length_blocks_bytes_ge blocks) as Hl.
  set (payload := blocks_bytes blocks) in *.
  assert (exists fuel,
             S (length (payload ++ x00 :: extra)) = (length blocks + S fuel)%nat)
    as [fuel ->].
  { exists (length (payload ++ x00 :: extra) - length blocks)%nat.
    rewrite length_app. cbn [length]. clearbody payload. lia. }
  pose proof (tempo_while_typed_blocks blocks H [] (x00 :: extra) (S fuel) [] [])
    as Hw.
  cbn [app length Nat.add] in Hw. fold payload in Hw. rewrite Hw.
  cbn [tempo_while]. unfold rbind.
  pose proof (unpack_B_at payload x00 extra) as Hb. rewrite Hb.
  reflexivity.
Qed.

(** X9: the tempo decoder reads any sequence of blocks of type 0 and 1, in
    any order and with 1 to 255 entries each, up to the first zero count:
    it returns the entries of the blocks of type 0 and those of the blocks
    of type 1, each in the order read, without sorting them, and it ignores
    every byte after the zero count. *)
Theorem tempo_decoder_any_blocks (body : string) (blocks : list typed_block)
        (extra : bytes) :
  Forall readable_block blocks ->
  base64.a85decode body = Ok (blocks_bytes blocks ++ x00 :: extra) ->
  clipboard_data_to_tempo (TEMPO_MAGIC ++ body)
  = Ok (entries_of_type 0 blocks, entries_of_type 1 blocks).
Proof.
  intros H Hb. unfold clipboard_data_to_tempo.
  rewrite startswith_app, drop_app. cbn [negb]. rewrite Hb. cbn [bind].
  now rewrite read_tempo_typed_blocks.
Qed.

Lemma tempo_decoder_any_blocks_witness :
  clipboard_data_to_tempo
    (TEMPO_MAGIC
     ++ string_of_list_byte
          (base64.a85encode
             (blocks_bytes [(1, [(72, float_of_bits 0x4000000000000000)]);
                            (0, [(96, float_of_bits 0x406E000000000000)]);
                            (1, [(24, float_of_bits 0x3FE0000000000000)])]
              ++ x00 :: [x2a; x2a])))
  = Ok ([(96, float_of_bits 0x406E000000000000)],
        [(72, float_of_bits 0x4000000000000000);
         (24, float_of_bits 0x3FE0000000000000)]).
Proof.
  apply (tempo_decoder_any_blocks _
           [(1, [(72, float_of_bits 0x4000000000000000)]);
            (0, [(96, float_of_bits 0x406E000000000000)]);
            (1, [(24, float_of_bits 0x3FE0000000000000)])] [x2a; x2a]).
  - repeat constructor; cbn; lia.
  - reflexivity.
Defined.

(** ** What the tempo decoder can return *)

Lemma tempo_for_u32 (data : bytes) (count : nat) (type : Z) :
  forall (bpms stops : list tempo_point) (offset : nat) (lists : tempo_lists)
         (offset' : nat),
    Forall u32_tick bpms -> Forall u32_tick stops ->
    tempo_for data count type bpms stops offset = Ok (lists, offset') ->
    Forall u32_tick (fst lists) /\ Forall u32_tick (snd lists).
Proof.
  induction count as [|count IH]; intros bpms stops offset lists offset' Hb Hs.
  - intros [= <- _]. now split.
  - cbn [tempo_for]. unfold rbind at 1.
    destruct (unpack_I data offset) as [[tick o1]| |] eqn:Et; try discriminate.
    unfold rbind at 1.
    destruct (unpack_d data o1) as [[value o2]| |]; try discriminate.
    apply unpack_I_range in Et.
    assert (Forall u32_tick [(tick, value)]) as Hi by (repeat constructor; cbn; lia).
    destruct (type =? 0); [apply IH; [apply Forall_app|]; auto|].
    destruct (type =? 1); [apply IH; [|apply Forall_app]; auto|discriminate].
Qed.

Lemma tempo_while_u32 (data : bytes) (fuel : nat) :
  forall (bpms stops : list tempo_point) (offset : nat) (lists : tempo_lists)
         (offset' : nat),
    Forall u32_tick bpms -> Forall u32_tick stops ->
    tempo_while data fuel bpms stops offset = Ok (lists, offset') ->
    Forall u32_tick (fst lists) /\ Forall u32_tick (snd lists).
Proof.
  induction fuel as [|fuel IH]; intros bpms stops offset lists offset' Hb Hs;
    [discriminate|].
  cbn [tempo_while]. unfold rbind at 1.
  destruct (unpack_B data offset) as [[count o1]| |]; try discriminate.
  destruct (count =? 0); [intros [= <- _]; now split|].
  unfold rbind at 1.
  destruct (unpack_B data o1) as [[type o2]| |]; try discriminate.
  unfold rbind at 1.
  destruct (tempo_for data (Z.to_nat count) type bpms stops o2)
    as [[[b s] o3]| |] eqn:Ef; try discriminate.
  apply tempo_for_u32 in Ef as [Hb' Hs']; try assumption.
  now apply IH.
Qed.

Lemma clipboard_data_to_tempo_u32 (text : string) (lists : tempo_lists) :
  clipboard_data_to_tempo text = Ok lists ->
  Forall u32_tick (fst lists) /\ Forall u32_tick (snd lists).
Proof.
  unfold clipboard_data_to_tempo.
  destruct (negb (startswith text TEMPO_MAGIC)); [discriminate|].
  destruct (base64.a85decode _) as [data| |]; try discriminate. cbn [bind].
  destruct (read_tempo data 0%nat) as [[ls used]| |] eqn:E; try discriminate.
  cbn [bind]. intros [= <-]. unfold read_tempo in E.
  eapply tempo_while_u32; [| |exact E]; constructor.
Qed.

(** X10: whatever the text, every tick the tempo decoder returns lies in
    [0, 2^32), so the tempo encoder accepts every pair of lists the decoder
    returns; decoding the new text gives the two lists sorted by tick with
    a stable sort. *)
Theorem tempo_decoder_output_encodable (text : string) (b s : list tempo_point) :
  clipboard_data_to_tempo text = Ok (b, s) ->
  Forall u32_tick b /\ Forall u32_tick s /\
  exists text' b' s',
    tempo_to_clipboard_data b s = Ok text' /\
    clipboard_data_to_tempo text' = Ok (b', s') /\
    stable_sort_of fst b b' /\ stable_sort_of fst s s'.
Proof.
  intros H. apply clipboard_data_to_tempo_u32 in H as [Hb Hs]. cbn [fst snd] in *.
  split; [assumption|]. split; [assumption|].
  destruct (proj1 (tempo_to_clipboard_data_ok b s) (conj Hb Hs)) as [text' E].
  exists text', (sorted fst b), (sorted fst s). split; [assumption|].
  split; [now apply tempo_roundtrip_sorted|]. split; apply sorted_is_stable_sort.
Qed.

Lemma tempo_decoder_output_encodable_witness :
  Forall u32_tick [(96, float_of_bits 0x406E000000000000)] /\
  Forall u32_tick [(72, float_of_bits 0x4000000000000000);
                   (24, float_of_bits 0x3FE0000000000000)] /\
  exists text' b' s',
    tempo_to_clipboard_data
      [(96, float_of_bits 0x406E000000000000)]
      [(72, float_of_bits 0x4000000000000000); (24, float_of_bits 0x3FE0000000000000)]
    = Ok text' /\
    clipboard_data_to_tempo text' = Ok (b', s') /\
    stable_sort_of fst [(96, float_of_bits 0x406E000000000000)] b' /\
    stable_sort_of fst [(72, float_of_bits 0x4000000000000000);
                        (24, float_of_bits 0x3FE0000000000000)] s'.
Proof.
  apply (tempo_decoder_output_encodable
           (TEMPO_MAGIC
            ++ string_of_list_byte
                 (base64.a85encode
                    (blocks_bytes [(1, [(72, float_of_bits 0x4000000000000000)]);
                                   (0, [(96, float_of_bits 0x406E000000000000)]);
                                   (1, [(24, float_of_bits 0x3FE0000000000000)])]
                     ++ [x00])))).
  reflexivity.
Defined.

(** ** The texts the encoders return *)

Lemma notes_text_form (notes : list Note) (text : string) :
  notes_to_clipboard_data notes = Ok text ->
  exists data,
    notes_payload notes = Ok data /\
    text = (NOTES_MAGIC ++ string_of_list_byte (base64.a85encode data))%string.
Proof.
  unfold notes_to_clipboard_data.
  destruct (notes_payload notes) as [data| |]; try discriminate. cbn [bind].
  rewrite (proj1 (base64_facts.a85_text_roundtrip data)). cbn [bind].
  intros H. apply Ok_inj in H. subst text. now exists data.
Qed.

Lemma tempo_text_form (bpms stops : list tempo_point) (text : string) :
  tempo_to_clipboard_data bpms stops = Ok text ->
  exists data,
    tempo_payload bpms stops = Ok data /\
    text = (TEMPO_MAGIC ++ string_of_list_byte (base64.a85encode data))%string.
Proof.
  unfold tempo_to_clipboard_data.
  destruct (tempo_payload bpms stops) as [data| |]; try discriminate. cbn [bind].
  rewrite (proj1 (base64_facts.a85_text_roundtrip data)). cbn [bind].
  intros H. apply Ok_inj in H. subst text. now exists data.
Qed.

Lemma startswith_other_magic (body : string) :
  startswith (NOTES_MAGIC ++ body) TEMPO_MAGIC = false /\
  startswith (TEMPO_MAGIC ++ body) NOTES_MAGIC = false.
Proof.
  split; reflexivity.
Qed.

(** X11: a text written by one encoder is refused by the decoder of the
    other kind, with the [ValueError('Invalid data')] of the magic check:
    the tempo decoder never reads notes as tempo changes, nor the note
    decoder tempo changes as notes. *)
Theorem cross_kind_rejected (notes : list Note) (bpms stops : list tempo_point)
        (notes_text tempo_text : string) :
  notes_to_clipboard_data notes = Ok notes_text ->
  tempo_to_clipboard_data bpms stops = Ok tempo_text ->
  clipboard_data_to_tempo notes_text
  = Raise (ValueError (Some "Invalid data"%string)) /\
  clipboard_data_to_notes tempo_text
  = Raise (ValueError (Some "Invalid data"%string)).
Proof.
  intros Hn Ht.
  apply notes_text_form in Hn as (dn & _ & ->).
  apply tempo_text_form in Ht as (dt & _ & ->).
  split.
  - unfold clipboard_data_to_tempo.
    now rewrite (proj1 (startswith_other_magic
                          (string_of_list_byte (base64.a85encode dn)))).
  - unfold clipboard_data_to_notes.
    now rewrite (proj2 (startswith_other_magic
                          (string_of_list_byte (base64.a85encode dt)))).
Qed.

Lemma cross_kind_rejected_witness :
  clipboard_data_to_tempo "ArrowVortex:notes:!!<3$K)c_gJIE@s"
  = Raise (ValueError (Some "Invalid data"%string)) /\
  clipboard_data_to_notes "ArrowVortex:tempo:!<?L-zzDEn1"
  = Raise (ValueError (Some "Invalid data"%string)).
Proof.
  apply (cross_kind_rejected
           [make_step 0 0; make_hold 0 24 3; make_roll 12 24 1]
           [(96, float_of_bits 0x406E000000000000)] []); reflexivity.
Defined.

(** ** Texts and what they stand for *)

(** X12: two lists of notes with the same encoding are the same once
    normalised as the decoder does (short form for the point-like notes
    with [special <= 0], column modulo 128); two well-formed lists with the
    same encoding are equal. *)
Theorem notes_encoder_injective (n1 n2 : list Note) (text : string) :
  notes_to_clipboard_data n1 = Ok text ->
  notes_to_clipboard_data n2 = Ok text ->
  map decoded_note n1 = map decoded_note n2 /\
  (Forall well_formed n1 -> Forall well_formed n2 -> n1 = n2).
Proof.
  intros H1 H2.
  apply notes_roundtrip_decoded in H1, H2. rewrite H1 in H2.
  apply Ok_inj in H2. split; [assumption|]. intros W1 W2.
  assert (forall n, Forall well_formed n -> map decoded_note n = n) as Hid.
  { intros n W. apply map_id_Forall. rewrite Forall_forall in *. intros note Hin.
    apply decoded_note_well_formed; auto using well_formed_encodable. }
  now rewrite <- (Hid n1 W1), <- (Hid n2 W2).
Qed.

Lemma notes_encoder_injective_witness :
  map decoded_note [make_hold 5 5 0; make_mine 8 129]
  = map decoded_note [make_step 5 0; make_mine 8 1] /\
  (Forall well_formed [make_hold 5 5 0; make_mine 8 129] ->
   Forall well_formed [make_step 5 0; make_mine 8 1] ->
   [make_hold 5 5 0; make_mine 8 129] = [make_step 5 0; make_mine 8 1]).
Proof.
  apply (notes_encoder_injective _ _ "ArrowVortex:notes:!!3-(JHuM^"); reflexivity.
Defined.

(** X13: two pairs of tempo lists with the same encoding are the same once
    sorted by tick: the text determines the sorted lists. *)
Theorem tempo_encoder_injective (b1 s1 b2 s2 : list tempo_point) (text : string) :
  tempo_to_clipboard_data b1 s1 = Ok text ->
  tempo_to_clipboard_data b2 s2 = Ok text ->
  sorted fst b1 = sorted fst b2 /\ sorted fst s1 = sorted fst s2.
Proof.
  intros H1 H2.
  apply tempo_roundtrip_sorted in H1, H2. rewrite H1 in H2.
  apply Ok_inj in H2. now injection H2.
Qed.

Lemma tempo_encoder_injective_witness :
  sorted fst [(96, float_of_bits 0x406E000000000000);
              (0, float_of_bits 0x405E000000000000)]
  = sorted fst [(0, float_of_bits 0x405E000000000000);
                (96, float_of_bits 0x406E000000000000)] /\
  sorted fst (@nil tempo_point) = sorted fst (@nil tempo_point).
Proof.
  apply (tempo_encoder_injective _ _ _ _ "ArrowVortex:tempo:!WW3#zz?9hluzzDEn1");
    reflexivity.
Defined.

Lemma sorted_same_filters {A} (key : A -> Z) (l1 l2 : list A) :
  (forall k, filter (fun x => key x =? k) l1 = filter (fun x => key x =? k) l2) ->
  sorted key l1 = sorted key l2.
Proof.
  intros H. apply (stable_sort_unique key l1); [apply sorted_is_stable_sort|].
  destruct (sorted_is_stable_sort key l2) as [Hs Hf]. split; [assumption|].
  intros k. now rewrite Hf, H.
Qed.

(** X14: the tempo encoder only looks at its lists through the stable sort
    by tick: two lists that have, for every tick, the same entries with
    that tick in the same order give the same outcome, text or error.  So
    the order of entries with different ticks does not matter, and sorting
    a list beforehand changes nothing. *)
Theorem tempo_encoder_order_insensitive (b1 s1 b2 s2 : list tempo_point) :
  (forall k, filter (fun x => fst x =? k) b1 = filter (fun x => fst x =? k) b2) ->
  (forall k, filter (fun x => fst x =? k) s1 = filter (fun x => fst x =? k) s2) ->
  tempo_to_clipboard_data b1 s1 = tempo_to_clipboard_data b2 s2 /\
  tempo_to_clipboard_data (sorted fst b1) (sorted fst s1)
  = tempo_to_clipboard_data b1 s1.
Proof.
  intros Hb Hs. unfold tempo_to_clipboard_data, tempo_payload. split.
  - now rewrite (sorted_same_filters fst b1 b2 Hb), (sorted_same_filters fst s1 s2 Hs).
  - rewrite (sorted_same_filters fst (sorted fst b1) b1),
      (sorted_same_filters fst (sorted fst s1) s1); [reflexivity| |];
      apply sorted_is_stable_sort.
Qed.

Lemma tempo_encoder_order_insensitive_witness :
  tempo_to_clipboard_data
    [(96, float_of_bits 0x406E000000000000); (0, float_of_bits 0x405E000000000000)] []
  = tempo_to_clipboard_data
      [(0, float_of_bits 0x405E000000000000); (96, float_of_bits 0x406E000000000000)] []
  /\
  tempo_to_clipboard_data
    (sorted fst [(96, float_of_bits 0x406E000000000000);
                 (0, float_of_bits 0x405E000000000000)]) (sorted fst [])
  = tempo_to_clipboard_data
      [(96, float_of_bits 0x406E000000000000); (0, float_of_bits 0x405E000000000000)] [].
Proof.
  apply (tempo_encoder_order_insensitive
           [(96, float_of_bits 0x406E000000000000);
            (0, float_of_bits 0x405E000000000000)] []
           [(0, float_of_bits 0x405E000000000000);
            (96, float_of_bits 0x406E000000000000)] []).
  - intros k. cbn [filter fst].
    destruct (Z.eqb_spec 96 k), (Z.eqb_spec 0 k); try reflexivity; exfalso; lia.
  - reflexivity.
Defined.

(** ** Bytes after the end of the data *)

Lemma firstn_app_le {A} (l extra : list A) (n : nat) :
  (n <= length l)%nat -> firstn n (l ++ extra) = firstn n l.
Proof.
  intros H. rewrite firstn_app. replace (n - length l)%nat with 0%nat by lia.
  cbn. apply app_nil_r.
Qed.

Lemma read_notes_extra (data extra : bytes) (notes : list Note) (used : nat) :
  read_notes data 0%nat = Ok (notes, used) ->
  read_notes (data ++ extra) 0%nat = Ok (notes, used).
Proof.
  intros H. pose proof (read_notes_ends data) as He. rewrite H in He.
  destruct He as [He1 He2].
  destruct (stable_read_notes _ _ _ _ H) as (_ & Hsame & _).
  apply Hsame. apply firstn_app_le. lia.
Qed.

Lemma read_tempo_extra (data extra : bytes) (lists : tempo_lists) (used : nat) :
  read_tempo data 0%nat = Ok (lists, used) ->
  read_tempo (data ++ extra) 0%nat = Ok (lists, used).
Proof.
  intros H. pose proof (read_tempo_ends data) as He. rewrite H in He.
  destruct He as [He1 He2]. unfold read_tempo in H.
  destruct (stable_tempo_while _ _ _ _ _ _ _ H) as (_ & Hsame & _).
  rewrite (read_tempo_fuel _ (S (length data))); rewrite Hsame;
    try (apply firstn_app_le; lia); [reflexivity|discriminate].
Qed.

(** X15: if a decoder returns a result for the bytes under the text-safe
    wrapper, it returns the same result when any bytes follow them: both
    decoders stop at the end of the data they were told to read (the note
    count, the zero count) and never look at what comes after. *)
Theorem decoders_ignore_trailing_bytes (body body' : string) (data extra : bytes) :
  base64.a85decode body = Ok data ->
  base64.a85decode body' = Ok (data ++ extra) ->
  (forall notes,
      clipboard_data_to_notes (NOTES_MAGIC ++ body) = Ok notes ->
      clipboard_data_to_notes (NOTES_MAGIC ++ body') = Ok notes) /\
  (forall lists,
      clipboard_data_to_tempo (TEMPO_MAGIC ++ body) = Ok lists ->
      clipboard_data_to_tempo (TEMPO_MAGIC ++ body') = Ok lists).
Proof.
  intros Hb Hb'. split.
  - intros notes. unfold clipboard_data_to_notes.
    rewrite !startswith_app, !drop_app. cbn [negb]. rewrite Hb, Hb'. cbn [bind].
    destruct (read_notes data 0%nat) as [[ns used]| |] eqn:E; try discriminate.
    now rewrite (read_notes_extra _ extra _ _ E).
  - intros lists. unfold clipboard_data_to_tempo.
    rewrite !startswith_app, !drop_app. cbn [negb]. rewrite Hb, Hb'. cbn [bind].
    destruct (read_tempo data 0%nat) as [[ls used]| |] eqn:E; try discriminate.
    now rewrite (read_tempo_extra _ extra _ _ E).
Qed.

Lemma decoders_ignore_trailing_bytes_witness :
  (forall notes,
      clipboard_data_to_notes
        (NOTES_MAGIC ++ string_of_list_byte (base64.a85encode [x00; x01; x03; x05]))
      = Ok notes ->
      clipboard_data_to_notes
        (NOTES_MAGIC
         ++ string_of_list_byte (base64.a85encode ([x00; x01; x03; x05] ++ [xff; x2a])))
      = Ok notes) /\
  (forall lists,
      clipboard_data_to_tempo
        (TEMPO_MAGIC ++ string_of_list_byte (base64.a85encode [x00; x01; x03; x05]))
      = Ok lists ->
      clipboard_data_to_tempo
        (TEMPO_MAGIC
         ++ string_of_list_byte (base64.a85encode ([x00; x01; x03; x05] ++ [xff; x2a])))
      = Ok lists).
Proof.
  apply (decoders_ignore_trailing_bytes _ _ [x00; x01; x03; x05] [xff; x2a]);
    reflexivity.
Defined.

(** ** How the encoders fail *)

Lemma mapM_app_fail {A B} (f : A -> result B) (pre post : list A) (x : A) :
  Forall (fun x => exists y, f x = Ok y) pre ->
  mapM f (pre ++ x :: post)
  = match f x with
    | Ok _ => mapM f (pre ++ x :: post)
    | Raise e => Raise e
    | Diverge => Diverge
    end.
Proof.
  induction 1 as [|a pre [y Ha] _ IH]; cbn [app mapM].
  - now destruct (f x).
  - rewrite Ha. cbn [bind]. destruct (f x) eqn:E; try reflexivity.
    + rewrite IH. reflexivity.
    + rewrite IH. reflexivity.
Qed.

Lemma pack_note_fail (note : Note) :
  ~ encodable note ->
  pack_note note
  = if is_step note
       || ((0 <=? column note) && (column note <=? 255)
           && ((start note <? 0) || (end_ note <? 0)))
    then Diverge else Raise StructError.
Proof.
  intros Hn. unfold pack_note, encodable in *.
  destruct (is_step note) eqn:Es; cbn [orb].
  - rewrite pack_B_ok by (pose proof (land_127_range (column note)); lia).
    cbn [bind]. rewrite pack_vlc_negative; [reflexivity|].
    destruct (Z.ltb_spec (start note) 0); [assumption|]. exfalso. apply Hn.
    split; [assumption|discriminate].
  - destruct (Z.leb_spec 0 (column note)) as [Hc0|Hc0]; cbn [andb].
    2:{ rewrite pack_B_error; [reflexivity|].
        destruct (Z.ltb_spec (Z.lor (column note) 128) 0) as [|Hl]; [now left|].
        destruct (Z.leb_spec (Z.lor (column note) 128) 255) as [Hu|]; [|right; lia].
        pose proof (lor_128_range_inv (column note) (conj Hl Hu)). lia. }
    destruct (Z.leb_spec (column note) 255) as [Hc1|Hc1]; cbn [andb].
    2:{ rewrite pack_B_error; [reflexivity|].
        destruct (Z.ltb_spec (Z.lor (column note) 128) 0) as [|Hl]; [now left|].
        destruct (Z.leb_spec (Z.lor (column note) 128) 255) as [Hu|]; [|right; lia].
        pose proof (lor_128_range_inv (column note) (conj Hl Hu)). lia. }
    rewrite pack_B_ok by (apply lor_128_range; lia). cbn [bind].
    destruct (Z.ltb_spec (start note) 0) as [Hs|Hs]; cbn [orb].
    { now rewrite pack_vlc_negative. }
    destruct (pack_vlc_ok (start note) Hs) as [bs ->]. cbn [bind].
    destruct (Z.ltb_spec (end_ note) 0) as [He|He].
    { now rewrite pack_vlc_negative. }
    destruct (pack_vlc_ok (end_ note) He) as [be ->]. cbn [bind].
    rewrite pack_B_error; [reflexivity|].
    destruct (Z.ltb_spec (special note) 0); [now left|].
    destruct (Z.leb_spec (special note) 255); [|right; lia].
    exfalso. apply Hn. split; [assumption|]. intros _. lia.
Qed.

(** X16: the note encoder fails at the first note it cannot encode, and how
    it fails depends on that note alone.  A negative tick that reaches the
    varint writer (the start of any note, the end of a note in long form)
    makes it loop forever, appending bytes without end; otherwise a column
    outside [0, 255] or a [special] outside [0, 255] in long form raises
    [struct.error].  The column is checked before the ticks, the ticks
    before [special]. *)
Theorem notes_encoder_failure (pre post : list Note) (note : Note) :
  Forall encodable pre -> ~ encodable note ->
  notes_to_clipboard_data (pre ++ note :: post)
  = if is_step note
       || ((0 <=? column note) && (column note <=? 255)
           && ((start note <? 0) || (end_ note <? 0)))
    then Diverge else Raise StructError.
Proof.
  intros Hp Hn. unfold notes_to_clipboard_data, notes_payload.
  rewrite pack_B_ok by lia. cbn [bind].
  destruct (pack_vlc_ok (Z.of_nat (length (pre ++ note :: post)))) as [bc ->];
    [lia|]. cbn [bind].
  rewrite mapM_app_fail
    by (eapply Forall_impl; [|exact Hp]; intros a Ha; now apply pack_note_ok).
  rewrite (pack_note_fail note Hn).
  now destruct (is_step note
                || ((0 <=? column note) && (column note <=? 255)
                    && ((start note <? 0) || (end_ note <? 0)))).
Qed.

Lemma notes_encoder_failure_witness :
  notes_to_clipboard_data ([make_step 0 0] ++ make_hold 4 (-2) 1 :: [make_step 8 1])
  = Diverge /\
  notes_to_clipboard_data ([make_step 0 0] ++ make_hold (-4) 2 256 :: [make_step 8 1])
  = Raise StructError.
Proof.
  split.
  - apply (notes_encoder_failure [make_step 0 0] [make_step 8 1] (make_hold 4 (-2) 1)).
    + constructor; [|constructor]. split; [cbn; lia|intros H; discriminate H].
    + intros [_ H]. cbn in H. specialize (H eq_refl). lia.
  - apply (notes_encoder_failure [make_step 0 0] [make_step 8 1]
             (make_hold (-4) 2 256)).
    + constructor; [|constructor]. split; [cbn; lia|intros H; discriminate H].
    + intros [H _]. cbn in H. lia.
Defined.

Lemma struct_outcome_bind {A B} (m : result A) (f : A -> result B) :
  struct_outcome m -> (forall a, struct_outcome (f a)) -> struct_outcome (bind m f).
Proof.
  destruct m as [a| |]; cbn; auto.
Qed.

Lemma struct_outcome_mapM {A B} (f : A -> result B) (l : list A) :
  (forall x, struct_outcome (f x)) -> struct_outcome (mapM f l).
Proof.
  intros H. induction l as [|x l IH]; cbn [mapM]; [exact I|].
  apply struct_outcome_bind; [apply H|]. intros y.
  apply struct_outcome_bind; [apply IH|]. intros ys. exact I.
Qed.

Lemma struct_outcome_pack_B (x : Z) : struct_outcome (pack_B x).
Proof.
  unfold pack_B. destruct ((0 <=? x) && (x <=? 255)); [|reflexivity].
  destruct (Byte.of_N (Z.to_N x)); [exact I|reflexivity].
Qed.

Lemma struct_outcome_pack_I (x : Z) : struct_outcome (pack_I x).
Proof.
  unfold pack_I. destruct ((0 <=? x) && (x <=? 4294967295)); [|reflexivity].
  repeat (apply struct_outcome_bind; [apply struct_outcome_pack_B|intros ?]).
  exact I.
Qed.

Lemma struct_outcome_pack_tempo_block (data : list tempo_point) (type : Z) :
  struct_outcome (pack_tempo_block data type).
Proof.
  unfold pack_tempo_block.
  apply struct_outcome_bind; [apply struct_outcome_pack_B|intros ?].
  apply struct_outcome_bind; [apply struct_outcome_pack_B|intros ?].
  apply struct_outcome_bind; [|intros ?; exact I].
  apply struct_outcome_mapM. intros item. unfold pack_tempo_item.
  apply struct_outcome_bind; [apply struct_outcome_pack_I|intros ?; exact I].
Qed.

Lemma struct_outcome_tempo_payload (bpms stops : list tempo_point) :
  struct_outcome (tempo_payload bpms stops).
Proof.
  unfold tempo_payload.
  apply struct_outcome_bind;
    [apply struct_outcome_mapM; intros i; apply struct_outcome_pack_tempo_block|].
  intros ?.
  apply struct_outcome_bind;
    [apply struct_outcome_mapM; intros i; apply struct_outcome_pack_tempo_block|].
  intros ?.
  apply struct_outcome_bind; [apply struct_outcome_pack_B|intros ?; exact I].
Qed.

(** X17: the tempo encoder never loops and fails in one way only: it
    raises [struct.error] exactly when some tick, of a tempo change or of a
    stop, is outside [0, 2^32); the other pairs of lists get a text. *)
Theorem tempo_encoder_failure (bpms stops : list tempo_point) :
  ~ (Forall u32_tick bpms /\ Forall u32_tick stops) ->
  tempo_to_clipboard_data bpms stops = Raise StructError.
Proof.
  intros Hn. unfold tempo_to_clipboard_data.
  pose proof (struct_outcome_tempo_payload bpms stops) as Ho.
  destruct (tempo_payload bpms stops) as [data|e|] eqn:E.
  - contradiction Hn. now apply (tempo_payload_inv _ _ data).
  - cbn in Ho. now subst e.
  - contradiction Ho.
Qed.

Lemma tempo_encoder_failure_witness :
  tempo_to_clipboard_data [(0, float_of_bits 0x405E000000000000)]
                          [(-1, float_of_bits 0x3FE0000000000000)]
  = Raise StructError.
Proof.
  apply tempo_encoder_failure. intros [_ H]. inversion H as [|x l Hx Hl]; subst.
  unfold u32_tick in Hx. cbn in Hx. lia.
Defined.

(** ** Characters the decoders skip *)

Lemma a85_ignored_code (c : byte) :
  a85_ignored c = true ->
  u8 c = 32 \/ u8 c = 9 \/ u8 c = 10 \/ u8 c = 13 \/ u8 c = 11.
Proof.
  unfold a85_ignored, base64.ignorechars. cbn [existsb].
  rewrite !Bool.orb_true_iff, !Z.eqb_eq. intuition discriminate.
Qed.

Lemma a85decode_loop_strip (b : bytes) :
  forall (curr : list Z) (decoded : bytes),
    base64.a85decode_loop (filter (fun c => negb (a85_ignored c)) b) curr decoded
    = base64.a85decode_loop b curr decoded.
Proof.
  induction b as [|xb b IH]; intros curr decoded; [reflexivity|].
  cbn [filter]. destruct (a85_ignored xb) eqn:Ei; cbn [negb].
  - rewrite IH. cbn [base64.a85decode_loop]. fold (a85_ignored xb). rewrite Ei.
    apply a85_ignored_code in Ei.
    destruct ((33 <=? u8 xb) && (u8 xb <=? 117)) eqn:E1; [exfalso; lia|].
    destruct (Z.eqb_spec (u8 xb) 122); [exfalso; lia|]. reflexivity.
  - cbn [base64.a85decode_loop].
    destruct ((33 <=? u8 xb) && (u8 xb <=? 117)).
    + destruct (length (curr ++ [u8 xb]) =? 5)%nat; [|apply IH].
      destruct (pack_I_be _); try reflexivity. apply IH.
    + destruct (u8 xb =? 122); [destruct curr; [apply IH|reflexivity]|].
      fold (a85_ignored xb). rewrite Ei. reflexivity.
Qed.

Lemma filter_ignored_ascii (b : bytes) :
  forallb is_ascii (filter (fun c => negb (a85_ignored c)) b) = forallb is_ascii b.
Proof.
  induction b as [|xb b IH]; [reflexivity|]. cbn [filter forallb].
  destruct (a85_ignored xb) eqn:Ei; cbn [negb forallb]; rewrite IH; [|reflexivity].
  apply a85_ignored_code in Ei. unfold is_ascii.
  destruct (Z.ltb_spec (u8 xb) 128); [reflexivity|exfalso; lia].
Qed.

Lemma a85decode_strip (s : string) :
  base64.a85decode (strip_ignored s) = base64.a85decode s.
Proof.
  unfold base64.a85decode, base64.bytes_from_decode_data, strip_ignored.
  rewrite list_byte_of_string_of_list_byte, filter_ignored_ascii.
  destruct (forallb is_ascii (list_byte_of_string s)); [|reflexivity]. cbn [bind].
  unfold base64.a85decode_bytes, base64.a85decode_from.
  rewrite <- (a85decode_loop_strip (list_byte_of_string s ++ _)), filter_app.
  reflexivity.
Qed.

(** X18: both decoders skip the spaces, tabs, line feeds, carriage returns
    and vertical tabs found after the magic prefix: a text copied with line
    breaks or blanks in its body is decoded, or refused, exactly as the
    text without them. *)
Theorem decoders_ignore_whitespace (body : string) :
  clipboard_data_to_notes (NOTES_MAGIC ++ body)
  = clipboard_data_to_notes (NOTES_MAGIC ++ strip_ignored body) /\
  clipboard_data_to_tempo (TEMPO_MAGIC ++ body)
  = clipboard_data_to_tempo (TEMPO_MAGIC ++ strip_ignored body).
Proof.
  unfold clipboard_data_to_notes, clipboard_data_to_tempo.
  rewrite !startswith_app, !drop_app, a85decode_strip. split; reflexivity.
Qed.

(** The text of the doctest, broken over two lines. *)
Example clipboard_data_to_notes_line_break :
  strip_ignored ("!!<3$K)c" ++ String (ascii_of_byte x0a) " _gJIE@s")
  = "!!<3$K)c_gJIE@s"%string /\
  clipboard_data_to_notes
    (NOTES_MAGIC ++ "!!<3$K)c" ++ String (ascii_of_byte x0a) " _gJIE@s")
  = Ok [make_step 0 0; make_hold 0 24 3; make_roll 12 24 1].
Proof.
  split; reflexivity.
Qed.

(** ** Readers: the bytes before the position *)

Lemma skipn_further {A} (l l' : list A) (o o' : nat) :
  skipn o l = skipn o l' -> (o <= o')%nat -> skipn o' l = skipn o' l'.
Proof.
  intros H Hle. replace o' with ((o' - o) + o)%nat by lia.
  now rewrite <- !skipn_skipn, H.
Qed.

Lemma forward_ret {A} (a : A) : forward (fun _ => ret a).
Proof.
  intros data data' offset _ _. reflexivity.
Qed.

Lemma forward_unpack (size : nat) : forward (fun data => unpack data size).
Proof.
  intros data data' offset Hl Hs. unfold unpack. now rewrite Hl, Hs.
Qed.

Lemma forward_bind {A B} (m : reading A) (f : A -> reading B) :
  stable m -> forward m -> (forall a, forward (f a)) ->
  forward (fun data => rbind (m data) (fun a => f a data)).
Proof.
  intros Hs Hm Hf data data' offset Hl Hd. unfold rbind.
  rewrite <- (Hm data data' offset Hl Hd).
  destruct (m data offset) as [[a o1]| |] eqn:Em; try reflexivity.
  destruct (Hs _ _ _ _ Em) as (Hle & _ & _).
  apply Hf; [assumption|]. now apply (skipn_further _ _ offset).
Qed.

Lemma forward_unpack_B : forward unpack_B.
Proof.
  apply (forward_bind (fun data => unpack data 1) (fun bs _ => ret (le_uint bs))).
  - apply stable_unpack.
  - apply forward_unpack.
  - intros bs. apply forward_ret.
Qed.

Lemma forward_unpack_vlc_loop (fuel : nat) :
  forall value k : Z, forward (fun data => unpack_vlc_loop data fuel value k).
Proof.
  induction fuel as [|fuel IH]; intros value k.
  - intros data data' offset _ _. reflexivity.
  - cbn [unpack_vlc_loop].
    apply (forward_bind unpack_B
             (fun byte data =>
                if Z.land byte 128 =? 0
                then ret (Z.lor value (Z.shiftl (Z.land byte 127) (7 * k)))
                else unpack_vlc_loop data fuel
                       (Z.lor value (Z.shiftl (Z.land byte 127) (7 * k))) (k + 1))).
    + apply stable_unpack_B.
    + apply forward_unpack_B.
    + intros byte. destruct (Z.land byte 128 =? 0); [apply forward_ret|apply IH].
Qed.

Lemma forward_unpack_vlc : forward unpack_vlc.
Proof.
  intros data data' offset Hl Hd. unfold unpack_vlc. rewrite <- Hl.
  now apply forward_unpack_vlc_loop.
Qed.

Lemma forward_notes_for (count : nat) :
  forall notes : list Note, forward (fun data => notes_for data count notes).
Proof.
  induction count as [|count IH]; intros notes; [apply forward_ret|].
  cbn [notes_for].
  apply (forward_bind unpack_B
           (fun bits data =>
              if negb (Z.land bits 128 =? 0)
              then
                rbind (unpack_vlc data) (fun start =>
                rbind (unpack_vlc data) (fun end_ =>
                rbind (unpack_B data) (fun special =>
                notes_for data count
                  (notes ++ [mkNote start end_ (Z.land bits 127) special]))))
              else
                rbind (unpack_vlc data) (fun start =>
                notes_for data count
                  (notes ++ [mkNote start start (Z.land bits 127) (-1)]))));
    [apply stable_unpack_B|apply forward_unpack_B|].
  intros bits. destruct (negb _).
  - apply (forward_bind unpack_vlc
             (fun start data =>
                rbind (unpack_vlc data) (fun end_ =>
                rbind (unpack_B data) (fun special =>
                notes_for data count
                  (notes ++ [mkNote start end_ (Z.land bits 127) special])))));
      [apply stable_unpack_vlc|apply forward_unpack_vlc|]. intros s.
    apply (forward_bind unpack_vlc
             (fun end_ data =>
                rbind (unpack_B data) (fun special =>
                notes_for data count
                  (notes ++ [mkNote s end_ (Z.land bits 127) special]))));
      [apply stable_unpack_vlc|apply forward_unpack_vlc|]. intros e.
    apply (forward_bind unpack_B
             (fun special data =>
                notes_for data count
                  (notes ++ [mkNote s e (Z.land bits 127) special])));
      [apply stable_unpack_B|apply forward_unpack_B|]. intros sp. apply IH.
  - apply (forward_bind unpack_vlc
             (fun start data =>
                notes_for data count
                  (notes ++ [mkNote start start (Z.land bits 127) (-1)])));
      [apply stable_unpack_vlc|apply forward_unpack_vlc|]. intros s. apply IH.
Qed.

Lemma read_notes_header (head head' : byte) (rest : bytes) :
  read_notes (head :: rest) 0%nat = read_notes (head' :: rest) 0%nat.
Proof.
  unfold read_notes. unfold rbind at 1 3.
  pose proof (unpack_B_at [] head rest) as H. cbn [app length] in H. rewrite H.
  pose proof (unpack_B_at [] head' rest) as H'. cbn [app length] in H'. rewrite H'.
  apply (forward_bind unpack_vlc
           (fun count data => notes_for data (Z.to_nat count) [])
           stable_unpack_vlc forward_unpack_vlc
           (fun count => forward_notes_for (Z.to_nat count) [])
           (head :: rest) (head' :: rest) 1%nat); reflexivity.
Qed.

(** X19: the note decoder reads the first byte under the text-safe wrapper,
    which the encoder sets to 0, and never looks at its value: two payloads
    that differ in that byte only are decoded, or refused, alike. *)
Theorem note_decoder_ignores_header (body body' : string) (head head' : byte)
        (rest : bytes) :
  base64.a85decode body = Ok (head :: rest) ->
  base64.a85decode body' = Ok (head' :: rest) ->
  clipboard_data_to_notes (NOTES_MAGIC ++ body)
  = clipboard_data_to_notes (NOTES_MAGIC ++ body').
Proof.
  intros Hb Hb'. unfold clipboard_data_to_notes.
  rewrite !startswith_app, !drop_app. cbn [negb]. rewrite Hb, Hb'. cbn [bind].
  now rewrite (read_notes_header head head' rest).
Qed.

Lemma note_decoder_ignores_header_witness :
  clipboard_data_to_notes "ArrowVortex:notes:!!<3$K)c_gJIE@s"
  = clipboard_data_to_notes
      (NOTES_MAGIC
       ++ string_of_list_byte
            (base64.a85encode
               [xff; x03; x00; x00; x83; x00; x18; x00; x81; x0c; x18; x02])).
Proof.
  apply (note_decoder_ignores_header
           "!!<3$K)c_gJIE@s" _ x00 xff
           [x03; x00; x00; x83; x00; x18; x00; x81; x0c; x18; x02]); reflexivity.
Defined.

(** ** The characters of an encoded text *)

Lemma digits5_a85_char (w : Z) :
  0 <= w <= 4294967295 -> forallb a85_char (base64.digits5 w) = true.
Proof.
  intros R. rewrite base64_facts.digits5_digits.
  pose proof (base64_facts.digits_range w R) as (D0 & D1 & D2 & D3 & D4).
  cbn [forallb]. unfold a85_char. rewrite !base64_facts.u8_digit by assumption.
  repeat (apply andb_true_iff; split); try reflexivity;
    apply orb_true_iff; left; apply andb_true_iff; split; apply Z.leb_le; lia.
Qed.

Lemma a85encode_a85_char (b : bytes) :
  forallb a85_char (base64.a85encode b) = true.
Proof.
  induction b as [|b0|b0 b1|b0 b1 b2|b0 b1 b2 b3 rest IH]
    using base64_facts.bytes_ind4.
  - reflexivity.
  - rewrite base64_facts.a85encode_1.
    apply base64_facts.forallb_firstn, digits5_a85_char, base64_facts.word_of_range.
  - rewrite base64_facts.a85encode_2.
    apply base64_facts.forallb_firstn, digits5_a85_char, base64_facts.word_of_range.
  - rewrite base64_facts.a85encode_3.
    apply base64_facts.forallb_firstn, digits5_a85_char, base64_facts.word_of_range.
  - rewrite base64_facts.a85encode_full, forallb_app, IH, andb_true_r.
    unfold base64.encode_word.
    destruct (base64.word_of b0 b1 b2 b3 =? 0); [reflexivity|].
    apply digits5_a85_char, base64_facts.word_of_range.
Qed.

(** X20: a text returned by an encoder is its magic prefix followed by
    characters from ['!'] to ['u'] and ['z'] only: printable ASCII, with no
    blank, no line break and no character outside the Ascii85 alphabet. *)
Theorem encoded_text_alphabet (text : string) :
  (exists notes, notes_to_clipboard_data notes = Ok text) \/
  (exists bpms stops, tempo_to_clipboard_data bpms stops = Ok text) ->
  exists magic body,
    (magic = NOTES_MAGIC \/ magic = TEMPO_MAGIC) /\
    text = (magic ++ body)%string /\
    forallb a85_char (list_byte_of_string body) = true.
Proof.
  intros [[notes H]|(bpms & stops & H)].
  - apply notes_text_form in H as (data & _ & ->).
    exists NOTES_MAGIC, (string_of_list_byte (base64.a85encode data)).
    split; [now left|]. split; [reflexivity|].
    rewrite list_byte_of_string_of_list_byte. apply a85encode_a85_char.
  - apply tempo_text_form in H as (data & _ & ->).
    exists TEMPO_MAGIC, (string_of_list_byte (base64.a85encode data)).
    split; [now right|]. split; [reflexivity|].
    rewrite list_byte_of_string_of_list_byte. apply a85encode_a85_char.
Qed.

Lemma encoded_text_alphabet_witness :
  exists magic body,
    (magic = NOTES_MAGIC \/ magic = TEMPO_MAGIC) /\
    "ArrowVortex:notes:!!<3$K)c_gJIE@s"%string = (magic ++ body)%string /\
    forallb a85_char (list_byte_of_string body) = true.
Proof.
  apply encoded_text_alphabet. left.
  exists [make_step 0 0; make_hold 0 24 3; make_roll 12 24 1]. reflexivity.
Defined.

(** ** What a round trip keeps of a note *)

Lemma decoded_note_kinds (n : Note) :
  kinds (decoded_note n) = kinds n /\
  start (decoded_note n) = start n /\ end_ (decoded_note n) = end_ n /\
  column (decoded_note n) = column n mod 128.
Proof.
  unfold decoded_note. destruct (is_step n) eqn:Es.
  - pose proof (proj1 (is_step_true n) Es) as [Hsp He].
    unfold kinds, is_step, is_mine, is_lift, is_fake, is_hold, is_roll.
    cbn [start end_ column special]. rewrite <- He, Z.eqb_refl, land_127_mod.
    destruct (Z.leb_spec (special n) 0); [|lia].
    destruct (Z.eqb_spec (special n) 1); [lia|].
    destruct (Z.eqb_spec (special n) 3); [lia|].
    destruct (Z.eqb_spec (special n) 4); [lia|].
    cbn. rewrite !andb_false_r. auto.
  - unfold kinds, is_step, is_mine, is_lift, is_fake, is_hold, is_roll.
    cbn [start end_ column special]. rewrite land_127_mod. auto.
Qed.

(** X21: whatever a round trip changes in a note, it keeps its kind (step,
    mine, lift, fake, hold, roll or none of them) and its two ticks, and
    only reduces its column modulo 128; the decoded list has the notes of
    the encoded one, in the same order. *)
Theorem notes_roundtrip_preserves_kinds (notes notes' : list Note) :
  notes_roundtrip notes = Ok notes' ->
  Forall2 (fun n n' =>
             kinds n' = kinds n /\ start n' = start n /\ end_ n' = end_ n /\
             column n' = column n mod 128)
          notes notes'.
Proof.
  unfold notes_roundtrip.
  destruct (notes_to_clipboard_data notes) as [text| |] eqn:E; try discriminate.
  cbn [bind]. rewrite (notes_roundtrip_decoded _ _ E). intros H.
  apply Ok_inj in H. subst notes'. clear E.
  induction notes as [|n notes IH]; cbn [map]; constructor;
    [apply decoded_note_kinds|assumption].
Qed.

Lemma notes_roundtrip_preserves_kinds_witness :
  Forall2 (fun n n' =>
             kinds n' = kinds n /\ start n' = start n /\ end_ n' = end_ n /\
             column n' = column n mod 128)
          [make_hold 5 5 0; make_mine 8 129; make_roll 3 9 200]
          [make_step 5 0; make_mine 8 1; make_roll 3 9 72].
Proof.
  apply notes_roundtrip_preserves_kinds. reflexivity.
Defined.

Lemma factory_built_well_formed (n : Note) : factory_built n -> well_formed n.
Proof.
  intros [t c Ht Hc|t c Ht Hc|t c Ht Hc|t c Ht Hc|s e c Hs He Hn Hc|s e c Hs He Hn Hc];
    unfold well_formed, is_step, make_step, make_mine, make_lift, make_fake,
      make_hold, make_roll; cbn [start end_ column special];
    rewrite ?Z.eqb_refl; cbn; try (repeat split; lia).
  destruct (Z.eqb_spec s e); [contradiction|]. repeat split; lia.
Qed.

(** X22: a list of notes built by the six factories from ticks that are not
    negative, columns in [0, 127] and, for holds and rolls, an end
    different from the start, comes back unchanged from a round trip. *)
Theorem factory_notes_roundtrip (notes : list Note) :
  Forall factory_built notes -> notes_roundtrip notes = Ok notes.
Proof.
  intros H.
  assert (Forall well_formed notes) as W
    by (eapply Forall_impl; [|exact H]; apply factory_built_well_formed).
  assert (Forall encodable notes) as Henc
    by (eapply Forall_impl; [|exact W]; apply well_formed_encodable).
  unfold notes_roundtrip.
  destruct (proj1 (notes_to_clipboard_data_ok notes) Henc) as [text E].
  rewrite E. cbn [bind]. rewrite (notes_roundtrip_decoded _ _ E). f_equal.
  apply map_id_Forall. rewrite Forall_forall in *. intros note Hin.
  apply decoded_note_well_formed; auto.
Qed.

Lemma factory_notes_roundtrip_witness :
  notes_roundtrip [make_step 0 0; make_mine 4 1; make_lift 8 2; make_fake 12 3;
                   make_hold 16 40 127; make_roll 48 20 5]
  = Ok [make_step 0 0; make_mine 4 1; make_lift 8 2; make_fake 12 3;
        make_hold 16 40 127; make_roll 48 20 5].
Proof.
  apply factory_notes_roundtrip.
  repeat first [apply Forall_nil | apply Forall_cons];
    constructor; lia.
Defined.

(** ** Varints in a stream *)

(** X23: the varints the writer produces are prefix-free: if the bytes of
    one value are followed by more bytes, the whole is never the encoding
    of another value, so a reader always knows where a varint ends. *)
Theorem varint_prefix_free (n m : Z) (bs rest : bytes) :
  pack_vlc n = Ok bs -> pack_vlc m = Ok (bs ++ rest) -> n = m /\ rest = [].
Proof.
  intros Hn Hm.
  pose proof (unpack_vlc_pack n bs [] rest Hn) as Rn.
  pose proof (unpack_vlc_pack m (bs ++ rest) [] [] Hm) as Rm.
  cbn [app length Nat.add] in Rn, Rm. rewrite app_nil_r in Rm.
  rewrite Rn in Rm. injection Rm as Hv Hl. split; [assumption|].
  rewrite length_app in Hl. destruct rest; [reflexivity|cbn in Hl; lia].
Qed.

Lemma varint_prefix_free_witness : 300 = 300 /\ @nil byte = [].
Proof.
  apply (varint_prefix_free 300 300 [xac; x02] []); reflexivity.
Defined.

(** ** The size of the tempo payload *)

Lemma length_concat_tempo_blocks (type : Z) (chunks : list (list tempo_point)) :
  length (concat (map (tempo_block type) chunks))
  = (12 * length (concat chunks) + 2 * length chunks)%nat.
Proof.
  induction chunks as [|c chunks IH]; [reflexivity|].
  cbn [map concat length]. rewrite !length_app, IH, length_tempo_block.
  assert (length (concat (map tempo_entry c)) = 12 * length c)%nat as ->.
  { clear. induction c as [|item c IH]; [reflexivity|].
    cbn [map concat length]. rewrite length_app, IH, length_tempo_entry. lia. }
  lia.
Qed.

Lemma length_blocks_of (l : list tempo_point) :
  length (blocks_of l) = ((length l + 253) / 254)%nat.
Proof.
  unfold blocks_of, range_step. rewrite !length_map, length_seq.
  f_equal. lia.
Qed.

(** X24: the bytes the tempo encoder wraps are 12 for every entry, 2 for
    every block, one block for every 254 entries of a list or part
    thereof, and 1 for the end. *)
Theorem tempo_payload_size (bpms stops : list tempo_point) (data : bytes) :
  tempo_payload bpms stops = Ok data ->
  length data
  = (12 * (length bpms + length stops)
     + 2 * ((length bpms + 253) / 254 + (length stops + 253) / 254) + 1)%nat.
Proof.
  intros H. destruct (tempo_payload_inv _ _ _ H) as [Hb Hs].
  rewrite (tempo_payload_ok _ _ Hb Hs) in H. apply Ok_inj in H. subst data.
  rewrite !length_app, !length_concat_tempo_blocks, !length_blocks_of.
  rewrite (proj1 (blocks_of_chunking (sorted fst bpms))).
  rewrite (proj1 (blocks_of_chunking (sorted fst stops))).
  rewrite !sorted_length. cbn [length]. lia.
Qed.

Lemma tempo_payload_size_witness :
  length [x01; x00; x60; x00; x00; x00; x00; x00; x00; x00; x00; x00; x6e; x40; x00]
  = (12 * (1 + 0) + 2 * ((1 + 253) / 254 + (0 + 253) / 254) + 1)%nat.
Proof.
  apply (tempo_payload_size [(96, float_of_bits 0x406E000000000000)] []).
  reflexivity.
Defined.

(** ** Encoding again what was decoded *)

Lemma lor_128_land_127 (c : Z) :
  0 <= c <= 255 -> Z.lor (Z.land c 127) 128 = Z.lor c 128.
Proof.
  intros Hc. destruct (Z_lt_le_dec c 128) as [Hlt|Hge].
  - now rewrite land_127_small by lia.
  - rewrite land_127_mod.
    assert (c mod 128 = c - 128) as ->
      by (symmetry; apply (Z.mod_unique c 128 1); lia).
    replace c with ((c - 128) + 128) at 2 by lia.
    rewrite <- (lor_128_low (c - 128)) by lia.
    now rewrite <- Z.lor_assoc, Z.lor_diag.
Qed.

Lemma pack_note_decoded (note : Note) :
  encodable note -> pack_note (decoded_note note) = pack_note note.
Proof.
  intros [Hs Hl]. unfold pack_note.
  assert (is_step (decoded_note note) = is_step note) as ->.
  { pose proof (proj1 (decoded_note_kinds note)) as H. unfold kinds in H.
    now injection H. }
  unfold decoded_note. destruct (is_step note) eqn:Es; cbn [start end_ column special].
  - rewrite <- Z.land_assoc. reflexivity.
  - specialize (Hl eq_refl). now rewrite lor_128_land_127 by lia.
Qed.

Lemma mapM_pack_note_decoded (notes : list Note) :
  Forall encodable notes ->
  mapM pack_note (map decoded_note notes) = mapM pack_note notes.
Proof.
  induction 1 as [|n notes Hn _ IH]; [reflexivity|].
  cbn [map mapM]. now rewrite pack_note_decoded, IH.
Qed.

(** X25: a text written by the note encoder is the encoding of what the
    decoder reads from it: the decoded list may differ from the encoded
    one, but encoding it gives the very same text. *)
Theorem notes_reencode_same_text (notes notes' : list Note) (text : string) :
  notes_to_clipboard_data notes = Ok text ->
  clipboard_data_to_notes text = Ok notes' ->
  notes_to_clipboard_data notes' = Ok text.
Proof.
  intros He Hd. rewrite (notes_roundtrip_decoded _ _ He) in Hd.
  apply Ok_inj in Hd. subst notes'.
  assert (Forall encodable notes) as Henc
    by (apply notes_to_clipboard_data_ok; now exists text).
  rewrite <- He. unfold notes_to_clipboard_data, notes_payload.
  now rewrite length_map, (mapM_pack_note_decoded notes Henc).
Qed.

Lemma notes_reencode_same_text_witness :
  notes_to_clipboard_data [make_step 5 0; make_mine 8 1; make_roll 3 9 72]
  = Ok "ArrowVortex:notes:!!<3)JHuM^a9)_M"%string.
Proof.
  apply (notes_reencode_same_text
           [make_hold 5 5 0; make_mine 8 129; make_roll 3 9 200]); reflexivity.
Defined.

(** X26: a text written by the tempo encoder is the encoding of the two
    sorted lists the decoder reads from it. *)
Theorem tempo_reencode_same_text (bpms stops bpms' stops' : list tempo_point)
        (text : string) :
  tempo_to_clipboard_data bpms stops = Ok text ->
  clipboard_data_to_tempo text = Ok (bpms', stops') ->
  tempo_to_clipboard_data bpms' stops' = Ok text.
Proof.
  intros He Hd. rewrite (tempo_roundtrip_sorted _ _ _ He) in Hd.
  apply Ok_inj in Hd. injection Hd as <- <-.
  rewrite <- He. unfold tempo_to_clipboard_data, tempo_payload.
  rewrite (sorted_same_filters fst (sorted fst bpms) bpms),
    (sorted_same_filters fst (sorted fst stops) stops); [reflexivity| |];
    apply sorted_is_stable_sort.
Qed.

Lemma tempo_reencode_same_text_witness :
  tempo_to_clipboard_data
    [(0, float_of_bits 0x405E000000000000); (96, float_of_bits 0x406E000000000000)] []
  = Ok "ArrowVortex:tempo:!WW3#zz?9hluzzDEn1"%string.
Proof.
  apply (tempo_reencode_same_text
           [(96, float_of_bits 0x406E000000000000);
            (0, float_of_bits 0x405E000000000000)] []
           _ _ "ArrowVortex:tempo:!WW3#zz?9hluzzDEn1"); reflexivity.
Defined.
